(** * The live-reconfigurable ports of package [flow]

    A shallow embedding of the generic port/connection code
    ([Network], [Conn], [In], [Out]) and of the pump-based
    [StringConnection], with an interleaving semantics for the goroutines
    that call [Recv], [Send], [Connect] and [Disconnect]. *)

From stdpp Require Import base option list strings.

Set Default Proof Using "Type".

(** ** Errors and contexts *)

(** The values an [error] result can hold, [None] standing for [nil].
    [Canceled] and [DeadlineExceeded] are what [ctx.Err()] gives once the
    context is done; [Failed] is any other error of a component. *)
Inductive error := Canceled | DeadlineExceeded | Failed (code : nat).

(** ** Channels *)

(** A data channel on the heap: [make(chan T)] gives capacity 0. *)
Record dchan := DChan { dcap : nat; dclosed : bool }.

(** The wake-up channel of a port: [make(chan struct{})], capacity 0, with
    the number of buffered tokens. *)
Record pchan := PChan { pcap : nat; plen : nat }.

(** [In[T]] and [Out[T]] have the same fields: [data] (guarded by [mu]),
    [ping] and the [sync.Once] [create], here the flag "already run".
    A [nil] channel is [None]. The zero value is what [var p In[T]] gives. *)
Record Port := MkPort { data : option nat; ping : option pchan; create : bool }.

Definition zero_port : Port := MkPort None None false.

(** A pointer to a port: [*In[T]] or [*Out[T]], by address in its store. *)
Inductive pref := PIn (a : nat) | POut (a : nat).

(** [Conn[T]]: the two ports of a connection. *)
Record Conn := MkConn { from : nat; to : nat }.

(** The atomic pieces of the controller-side code: [p.init()], the locked
    assignment [p.data = d], the non-blocking send on [p.ping], and a call
    of [Connect], which allocates the channel its two swaps install. *)
Inductive instr :=
| IInit (p : pref)
| ISet (p : pref) (d : option nat)
| INotify (p : pref)
| IConnect (out_ inp : nat).

(** Where a [Recv] or [Send] call stands: at the [ctx.Err()] test, at
    [init()], at the draining [select], at the evaluation of [current()] on
    entry of the second [select], polling its cases with the channel
    evaluated, or parked on them. *)
Inductive loc :=
| Entry | Init | Drain | Eval
| Poll (ch : option nat)
| Park (ch : option nat).

(** The case of a [select] the runtime picks; [BNone] is [default], or
    parking when no case can proceed. *)
Inductive branch := BDone | BData | BPing | BNone.

Section Flow.
Context {T : Type} (zero : T).

(** A goroutine: a call of [in.Recv(ctx)] on the port at [a] with context
    [k], the same call returned, a call of [out.Send(ctx, v)], that call
    returned or panicked (send on a closed channel), or controller code. *)
Inductive thread :=
| Recv (a k : nat) (l : loc)
| RecvRet (v : T) (err : option error)
| Send (a k : nat) (v : T) (l : loc)
| SendRet (err : option error)
| SendPanic
| Ctl (code : list instr).

(** Program state: the [In] and [Out] ports, the heap of data channels,
    the contexts (each holds its [Err()]), and the goroutines. *)
Record config := Config {
  ins : list Port;
  outs : list Port;
  chans : list dchan;
  ctxs : list (option error);
  threads : list thread }.

Definition set_threads (ts : list thread) (σ : config) : config :=
  Config (ins σ) (outs σ) (chans σ) (ctxs σ) ts.

Definition get_port (p : pref) (σ : config) : option Port :=
  match p with PIn a => ins σ !! a | POut a => outs σ !! a end.

Definition set_port (p : pref) (x : Port) (σ : config) : config :=
  match p with
  | PIn a => Config (<[a:=x]> (ins σ)) (outs σ) (chans σ) (ctxs σ) (threads σ)
  | POut a => Config (ins σ) (<[a:=x]> (outs σ)) (chans σ) (ctxs σ) (threads σ)
  end.

(** [func (in *In[T]) init() { in.create.Do(func() { in.ping = make(chan struct{}) }) }] *)
Definition init (p : pref) (σ : config) : option config :=
  x ← get_port p σ;
  Some (if create x then σ
        else set_port p (MkPort (data x) (Some (PChan 0 0)) true) σ).

(** [in.mu.Lock(); in.data = data; in.mu.Unlock()]. The mutex is held for
    this assignment and for the read in [current()] only, and nothing
    blocks while it is held: each is one atomic action. *)
Definition set_data (p : pref) (d : option nat) (σ : config) : option config :=
  x ← get_port p σ;
  Some (set_port p (MkPort d (ping x) (create x)) σ).

(** [func (in *In[T]) current() chan T] *)
Definition current (p : pref) (σ : config) : option (option nat) :=
  data <$> get_port p σ.

(** A goroutine parked in the second [select] of [Recv] on the [In] port
    [a], or of [Send] on the [Out] port [a], waits on that port's [ping]. *)
Definition parked_on (p : pref) (t : thread) : bool :=
  match p, t with
  | PIn a, Recv a' _ (Park _) => bool_decide (a = a')
  | POut a, Send a' _ _ (Park _) => bool_decide (a = a')
  | _, _ => false
  end.

Fixpoint find_idx {A} (f : A → bool) (l : list A) : option nat :=
  match l with
  | [] => None
  | x :: l' => if f x then Some 0 else S <$> find_idx f l'
  end.

(** The case [<-p.ping] of the second [select] has an empty body: the loop
    starts over at the draining [select]. *)
Definition wake (t : thread) : thread :=
  match t with
  | Recv a k _ => Recv a k Drain
  | Send a k v _ => Send a k v Drain
  | _ => t
  end.

(** [select { case p.ping <- struct{}{}: default: }]. The send goes to a
    goroutine waiting on [ping] if there is one, else into the buffer if it
    has room, else [default] is taken. A send on a [nil] channel cannot
    proceed. *)
Definition notify (p : pref) (σ : config) : option config :=
  x ← get_port p σ;
  match ping x with
  | None => Some σ
  | Some c =>
      match find_idx (parked_on p) (threads σ) with
      | Some j => Some (set_threads (alter wake j (threads σ)) σ)
      | None =>
          if decide (plen c < pcap c)
          then Some (set_port p (MkPort (data x) (Some (PChan (pcap c) (S (plen c)))) (create x)) σ)
          else Some σ
      end
  end.

(** [func (in *In[T]) swap(data chan T)], run without interruption. *)
Definition swap (p : pref) (d : option nat) (σ : config) : option config :=
  σ1 ← init p σ;
  σ2 ← set_data p d σ1;
  notify p σ2.

(** [make(chan T)]: a fresh unbuffered open channel, named by its index. *)
Definition make_chan (σ : config) : nat * config :=
  (length (chans σ),
   Config (ins σ) (outs σ) (chans σ ++ [DChan 0 false]) (ctxs σ) (threads σ)).

(** [func Connect[T any](from *Out[T], to *In[T]) *Conn[T]] *)
Definition Connect (out_ inp : nat) (σ : config) : option (Conn * config) :=
  let conn := MkConn out_ inp in
  let '(d, σ0) := make_chan σ in
  σ1 ← swap (POut (from conn)) (Some d) σ0;
  σ2 ← swap (PIn (to conn)) (Some d) σ1;
  Some (conn, σ2).

(** [func (conn *Conn[T]) Disconnect()] *)
Definition Disconnect (conn : Conn) (σ : config) : option config :=
  σ1 ← swap (POut (from conn)) None σ;
  swap (PIn (to conn)) None σ1.

(** The same three functions as controller code, one atomic action each. *)
Definition swap_code (p : pref) (d : option nat) : list instr :=
  [IInit p; ISet p d; INotify p].

Definition Disconnect_code (conn : Conn) : list instr :=
  swap_code (POut (from conn)) None ++ swap_code (PIn (to conn)) None.

(** ** The two selects of [Recv] and [Send] *)

(** [select { case <-p.ping: default: }] takes a buffered token if there is
    one. No goroutine ever blocks sending on [ping] (every send on it is
    the non-blocking one of [swap]), so there is no sender to meet. *)
Definition drain (p : pref) (σ : config) : option config :=
  x ← get_port p σ;
  match ping x with
  | Some c =>
      if decide (0 < plen c)
      then Some (set_port p (MkPort (data x) (Some (PChan (pcap c) (pred (plen c)))) (create x)) σ)
      else Some σ
  | None => Some σ
  end.

Definition token_ready (p : pref) (σ : config) : bool :=
  match get_port p σ with
  | Some x => match ping x with Some c => bool_decide (0 < plen c) | None => false end
  | None => false
  end.

Definition is_closed (c : nat) (σ : config) : bool :=
  match chans σ !! c with Some d => dclosed d | None => false end.

Definition send_parked (c : nat) (t : thread) : bool :=
  match t with
  | Send _ _ _ (Park (Some c')) => bool_decide (c = c')
  | _ => false
  end.

Definition recv_parked (c : nat) (t : thread) : bool :=
  match t with
  | Recv _ _ (Park (Some c')) => bool_decide (c = c')
  | _ => false
  end.

Definition ctx_done (k : nat) (σ : config) : bool :=
  match ctxs σ !! k with Some (Some _) => true | _ => false end.

(** Can the case [v := <-ch] of [Recv] proceed: the channel is closed or a
    sender waits on it. A [nil] channel never can. *)
Definition recv_ready (ch : option nat) (σ : config) : bool :=
  match ch with
  | Some c => is_closed c σ || bool_decide (is_Some (find_idx (send_parked c) (threads σ)))
  | None => false
  end.

Definition send_ready (ch : option nat) (σ : config) : bool :=
  match ch with
  | Some c => is_closed c σ || bool_decide (is_Some (find_idx (recv_parked c) (threads σ)))
  | None => false
  end.

Definition sent_value (t : thread) : T :=
  match t with Send _ _ v _ => v | _ => zero end.

(** The second [select] of [Recv], its channels evaluated, taking case [b]:
    [<-ctx.Done()] returns [zero, ctx.Err()]; [v := <-ch] returns [v, nil]
    ([zero] from a closed channel) and releases the sender; [<-in.ping]
    loops; with no case able to proceed the goroutine parks. *)
Definition recv_poll (i a k : nat) (ch : option nat) (b : branch) (σ : config)
  : option config :=
  match b with
  | BDone =>
      ctxs σ !! k ≫= λ ce,
      match ce with
      | Some e => Some (set_threads (<[i:=RecvRet zero (Some e)]> (threads σ)) σ)
      | None => None
      end
  | BData =>
      ch ≫= λ c,
      if is_closed c σ
      then Some (set_threads (<[i:=RecvRet zero None]> (threads σ)) σ)
      else
        find_idx (send_parked c) (threads σ) ≫= λ j,
        threads σ !! j ≫= λ t,
        Some (set_threads (<[i:=RecvRet (sent_value t) None]>
                            (<[j:=SendRet None]> (threads σ))) σ)
  | BPing =>
      if token_ready (PIn a) σ
      then drain (PIn a) σ ≫= λ σ',
           Some (set_threads (<[i:=Recv a k Drain]> (threads σ')) σ')
      else None
  | BNone =>
      if ctx_done k σ || recv_ready ch σ || token_ready (PIn a) σ then None
      else Some (set_threads (<[i:=Recv a k (Park ch)]> (threads σ)) σ)
  end.

(** The second [select] of [Send]: [out.current() <- v] returns [nil] and
    hands [v] to the waiting receiver; a send on a closed channel panics. *)
Definition send_poll (i a k : nat) (v : T) (ch : option nat) (b : branch)
  (σ : config) : option config :=
  match b with
  | BDone =>
      ctxs σ !! k ≫= λ ce,
      match ce with
      | Some e => Some (set_threads (<[i:=SendRet (Some e)]> (threads σ)) σ)
      | None => None
      end
  | BData =>
      ch ≫= λ c,
      if is_closed c σ
      then Some (set_threads (<[i:=SendPanic]> (threads σ)) σ)
      else
        find_idx (recv_parked c) (threads σ) ≫= λ j,
        Some (set_threads (<[i:=SendRet None]>
                            (<[j:=RecvRet v None]> (threads σ))) σ)
  | BPing =>
      if token_ready (POut a) σ
      then drain (POut a) σ ≫= λ σ',
           Some (set_threads (<[i:=Send a k v Drain]> (threads σ')) σ')
      else None
  | BNone =>
      if ctx_done k σ || send_ready ch σ || token_ready (POut a) σ then None
      else Some (set_threads (<[i:=Send a k v (Park ch)]> (threads σ)) σ)
  end.

(** One atomic action of goroutine [i]. A parked or returned goroutine has
    none of its own: it is moved by whoever completes one of its cases. *)
Definition step_thread (i : nat) (b : branch) (σ : config) : option config :=
  threads σ !! i ≫= λ t,
  match t with
  | Recv a k Entry =>
      ctxs σ !! k ≫= λ ce,
      match ce with
      | Some e => Some (set_threads (<[i:=RecvRet zero (Some e)]> (threads σ)) σ)
      | None => Some (set_threads (<[i:=Recv a k Init]> (threads σ)) σ)
      end
  | Recv a k Init =>
      init (PIn a) σ ≫= λ σ',
      Some (set_threads (<[i:=Recv a k Drain]> (threads σ')) σ')
  | Recv a k Drain =>
      drain (PIn a) σ ≫= λ σ',
      Some (set_threads (<[i:=Recv a k Eval]> (threads σ')) σ')
  | Recv a k Eval =>
      current (PIn a) σ ≫= λ d,
      Some (set_threads (<[i:=Recv a k (Poll d)]> (threads σ)) σ)
  | Recv a k (Poll ch) => recv_poll i a k ch b σ
  | Send a k v Entry =>
      ctxs σ !! k ≫= λ ce,
      match ce with
      | Some e => Some (set_threads (<[i:=SendRet (Some e)]> (threads σ)) σ)
      | None => Some (set_threads (<[i:=Send a k v Init]> (threads σ)) σ)
      end
  | Send a k v Init =>
      init (POut a) σ ≫= λ σ',
      Some (set_threads (<[i:=Send a k v Drain]> (threads σ')) σ')
  | Send a k v Drain =>
      drain (POut a) σ ≫= λ σ',
      Some (set_threads (<[i:=Send a k v Eval]> (threads σ')) σ')
  | Send a k v Eval =>
      current (POut a) σ ≫= λ d,
      Some (set_threads (<[i:=Send a k v (Poll d)]> (threads σ)) σ)
  | Send a k v (Poll ch) => send_poll i a k v ch b σ
  | Ctl (IInit p :: code) =>
      init p σ ≫= λ σ', Some (set_threads (<[i:=Ctl code]> (threads σ')) σ')
  | Ctl (ISet p d :: code) =>
      set_data p d σ ≫= λ σ', Some (set_threads (<[i:=Ctl code]> (threads σ')) σ')
  | Ctl (INotify p :: code) =>
      notify p σ ≫= λ σ', Some (set_threads (<[i:=Ctl code]> (threads σ')) σ')
  | Ctl (IConnect o n :: code) =>
      let '(d, σ') := make_chan σ in
      Some (set_threads
              (<[i:=Ctl (swap_code (POut o) (Some d) ++ swap_code (PIn n) (Some d) ++ code)]>
                 (threads σ')) σ')
  | _ => None
  end.

(** Cancelling context [k] closes its [Done()] channel: every goroutine
    parked with that context takes the case [<-ctx.Done()] and returns
    [ctx.Err()]. *)
Definition cancel_wake (k : nat) (e : error) (t : thread) : thread :=
  match t with
  | Recv _ k' (Park _) => if decide (k = k') then RecvRet zero (Some e) else t
  | Send _ k' _ (Park _) => if decide (k = k') then SendRet (Some e) else t
  | _ => t
  end.

Definition cancel (k : nat) (e : error) (σ : config) : option config :=
  ctxs σ !! k ≫= λ ce,
  match ce with
  | Some _ => None
  | None =>
      Some (Config (ins σ) (outs σ) (chans σ) (<[k:=Some e]> (ctxs σ))
              (cancel_wake k e <$> threads σ))
  end.

Inductive action :=
| Step (i : nat) (b : branch)
| Cancel (k : nat) (e : error).

Definition step (act : action) (σ : config) : option config :=
  match act with
  | Step i b => step_thread i b σ
  | Cancel k e => cancel k e σ
  end.

Fixpoint exec (tr : list action) (σ : config) : option config :=
  match tr with
  | [] => Some σ
  | act :: tr' => step act σ ≫= exec tr'
  end.

(** ** What one action does to one goroutine *)

(** In the second [select] with the data channel evaluated to [ch]. *)
Definition at_select (l : loc) (ch : option nat) : Prop :=
  l = Poll ch ∨ l = Park ch.

(** [moves act σ σ' t t']: action [act], leading from [σ] to [σ'], takes a
    goroutine from [t] to [t']. Each rule names the statement of [Recv] or
    [Send] that ran and what made it possible. *)
Inductive moves (act : action) (σ σ' : config) : thread → thread → Prop :=
| mv_recv_entry_err a k e :
    ctxs σ !! k = Some (Some e) →
    moves act σ σ' (Recv a k Entry) (RecvRet zero (Some e))
| mv_recv_entry a k :
    ctxs σ !! k = Some None →
    moves act σ σ' (Recv a k Entry) (Recv a k Init)
| mv_recv_init a k : moves act σ σ' (Recv a k Init) (Recv a k Drain)
| mv_recv_drain a k : moves act σ σ' (Recv a k Drain) (Recv a k Eval)
| mv_recv_eval a k d :
    current (PIn a) σ = Some d →
    moves act σ σ' (Recv a k Eval) (Recv a k (Poll d))
| mv_recv_park a k ch :
    ctx_done k σ = false → recv_ready ch σ = false →
    moves act σ σ' (Recv a k (Poll ch)) (Recv a k (Park ch))
| mv_recv_done a k l ch e :
    at_select l ch → ctxs σ' !! k = Some (Some e) →
    moves act σ σ' (Recv a k l) (RecvRet zero (Some e))
| mv_recv_closed a k c :
    is_closed c σ = true →
    moves act σ σ' (Recv a k (Poll (Some c))) (RecvRet zero None)
| mv_recv_data a k l c j a' k' v l' :
    at_select l (Some c) → at_select l' (Some c) →
    threads σ !! j = Some (Send a' k' v l') →
    threads σ' !! j = Some (SendRet None) →
    moves act σ σ' (Recv a k l) (RecvRet v None)
| mv_recv_ping a k l ch :
    at_select l ch →
    token_ready (PIn a) σ = true
    ∨ (∃ j b code, act = Step j b
                   ∧ threads σ !! j = Some (Ctl (INotify (PIn a) :: code))) →
    moves act σ σ' (Recv a k l) (Recv a k Drain)
| mv_send_entry_err a k v e :
    ctxs σ !! k = Some (Some e) →
    moves act σ σ' (Send a k v Entry) (SendRet (Some e))
| mv_send_entry a k v :
    ctxs σ !! k = Some None →
    moves act σ σ' (Send a k v Entry) (Send a k v Init)
| mv_send_init a k v : moves act σ σ' (Send a k v Init) (Send a k v Drain)
| mv_send_drain a k v : moves act σ σ' (Send a k v Drain) (Send a k v Eval)
| mv_send_eval a k v d :
    current (POut a) σ = Some d →
    moves act σ σ' (Send a k v Eval) (Send a k v (Poll d))
| mv_send_park a k v ch :
    ctx_done k σ = false → send_ready ch σ = false →
    moves act σ σ' (Send a k v (Poll ch)) (Send a k v (Park ch))
| mv_send_done a k v l ch e :
    at_select l ch → ctxs σ' !! k = Some (Some e) →
    moves act σ σ' (Send a k v l) (SendRet (Some e))
| mv_send_closed a k v c :
    is_closed c σ = true →
    moves act σ σ' (Send a k v (Poll (Some c))) SendPanic
| mv_send_data a k v l c j a' k' l' :
    at_select l (Some c) → at_select l' (Some c) →
    threads σ !! j = Some (Recv a' k' l') →
    threads σ' !! j = Some (RecvRet v None) →
    moves act σ σ' (Send a k v l) (SendRet None)
| mv_send_ping a k v l ch :
    at_select l ch →
    token_ready (POut a) σ = true
    ∨ (∃ j b code, act = Step j b
                   ∧ threads σ !! j = Some (Ctl (INotify (POut a) :: code))) →
    moves act σ σ' (Send a k v l) (Send a k v Drain)
| mv_ctl code code' : moves act σ σ' (Ctl code) (Ctl code').

(** A returned [Recv] that carries an error carries the zero value. *)
Definition ret_ok (t : thread) : Prop :=
  match t with RecvRet v (Some _) => v = zero | _ => True end.

(** The [ping] of a port once [init()] has run on it. *)
Definition made_once (x : Port) : option pchan :=
  if create x then ping x else Some (PChan 0 0).

(** [n] calls of [Disconnect] on the same [Conn], one after the other. *)
Fixpoint Disconnect_times (n : nat) (conn : Conn) (σ : config) : option config :=
  match n with
  | 0 => Some σ
  | S n' => Disconnect conn σ ≫= Disconnect_times n' conn
  end.

(** A call on port [p] with context [k] that is in its retry loop and has
    not evaluated anything but the absent channel: at the draining
    [select], at [current()], or in the second [select] on [nil]. *)
Definition retry_loc (l : loc) : Prop :=
  l = Drain ∨ l = Eval ∨ l = Poll None ∨ l = Park None.

Definition retrying (p : pref) (k : nat) (t : thread) : Prop :=
  match p, t with
  | PIn a, Recv a' k' l => a = a' ∧ k = k' ∧ retry_loc l
  | POut a, Send a' k' _ l => a = a' ∧ k = k' ∧ retry_loc l
  | _, _ => False
  end.

(** Runs during which port [p] stays absent and context [k] is not
    cancelled: no later [swap] installs a channel on [p]. *)
Inductive runs_absent (p : pref) (k : nat) : config → config → Prop :=
| ra_refl σ : runs_absent p k σ σ
| ra_step σ σ1 act σ2 :
    runs_absent p k σ σ1 →
    step act σ1 = Some σ2 →
    current p σ2 = Some None → ctxs σ2 !! k = Some None →
    runs_absent p k σ σ2.

(** [exec] that goes on only while port [p] is absent and context [k] is
    not cancelled after each action. *)
Fixpoint exec_absent (p : pref) (k : nat) (tr : list action) (σ : config)
  : option config :=
  match tr with
  | [] => Some σ
  | act :: tr' =>
      step act σ ≫= λ σ1,
      match current p σ1, ctxs σ1 !! k with
      | Some None, Some None => exec_absent p k tr' σ1
      | _, _ => None
      end
  end.

End Flow.

Arguments Recv {T} a k l.
Arguments RecvRet {T} v err.
Arguments Send {T} a k v l.
Arguments SendRet {T} err.
Arguments SendPanic {T}.
Arguments Ctl {T} code.

(** ** [Network.Run] *)

Module Net.
Section Net.
Context {C : Type}.

(** Modelled from the spec: the task group is the external library
    [errgroup] (golang.org/x/sync), absent from the sources: "start N
    tasks, wait, collect first error". [wg] counts the tasks started by
    [Go] that have not returned, [errOnce] tells whether an error was
    recorded, [err] is that error. The zero [Group] used by [Run] has no
    cancel function and no limit. *)
Record Group := MkGroup { wg : nat; errOnce : bool; err : option error }.

Definition zero_group : Group := MkGroup 0 false None.

(** [g.Go(f)]: one more task to wait for. *)
Definition Go (g : Group) : Group := MkGroup (S (wg g)) (errOnce g) (err g).

(** The end of a task started by [Go] whose function returned [r]: a
    non-nil [r] is recorded if it is the first one, and the task is done. *)
Definition done (r : option error) (g : Group) : Group :=
  match r with
  | Some e =>
      if errOnce g then MkGroup (pred (wg g)) true (err g)
      else MkGroup (pred (wg g)) true (Some e)
  | None => MkGroup (pred (wg g)) (errOnce g) (err g)
  end.

(** [g.Wait()] returns [g.err] once no task is left, and blocks before. *)
Definition Wait (g : Group) : option (option error) :=
  if decide (wg g = 0) then Some (err g) else None.

(** A goroutine started by [Run]: the component whose [Run] it calls, the
    context it passes, and whether the call has returned. *)
Record task := MkTask { comp : C; arg : nat; fin : bool }.

(** [Network.Run]: in the [for] loop with the components still to start
    (at [g.Wait()] when none is left), or returned. *)
Inductive run_pc := Looping (rest : list C) | Returned (r : option error).

Record run_state := MkRun { pc : run_pc; group : Group; tasks : list task }.

(** [Spawn] is one iteration of the loop of [Run], [Finish j r] the return
    of [c.Run(ctx)] in task [j] with result [r], [Join] the return of
    [g.Wait()]. *)
Inductive event := Spawn | Finish (j : nat) (r : option error) | Join.

(** [func (net *Network) Run(ctx context.Context) error], from its first
    statement, for the network whose components are [cs]. *)
Definition start (cs : list C) : run_state := MkRun (Looping cs) zero_group [].

Definition run_step (ctx : nat) (ev : event) (s : run_state) : option run_state :=
  match ev, pc s with
  | Spawn, Looping (c :: rest) =>
      Some (MkRun (Looping rest) (Go (group s)) (tasks s ++ [MkTask c ctx false]))
  | Finish j r, _ =>
      tasks s !! j ≫= λ t,
      if fin t then None
      else Some (MkRun (pc s) (done r (group s))
                   (<[j:=MkTask (comp t) (arg t) true]> (tasks s)))
  | Join, Looping [] =>
      Wait (group s) ≫= λ r, Some (MkRun (Returned r) (group s) (tasks s))
  | _, _ => None
  end.

Fixpoint run (ctx : nat) (evs : list event) (s : run_state) : option run_state :=
  match evs with
  | [] => Some s
  | ev :: evs' => run_step ctx ev s ≫= run ctx evs'
  end.

(** The number of started tasks that have not returned. *)
Fixpoint unfinished (ts : list task) : nat :=
  match ts with
  | [] => 0
  | t :: ts' => if fin t then unfinished ts' else S (unfinished ts')
  end.

(** The components [Run] still has to start, or none once it returned. *)
Definition to_start (s : run_state) : list C :=
  match pc s with Looping rest => rest | Returned _ => [] end.

(** [Network]: the registered components. *)
Record Network := MkNetwork { components : list C }.

(** [func (net *Network) Add(components ...Component)] *)
Definition Add (net : Network) (cs : list C) : Network :=
  MkNetwork (components net ++ cs).

(** [net.Run(ctx)] under the schedule [evs]. *)
Definition Run (net : Network) (ctx : nat) (evs : list event) : option run_state :=
  run ctx evs (start (components net)).

(** The non-nil results in the order the tasks returned them. *)
Fixpoint reported (evs : list event) : list error :=
  match evs with
  | Finish _ (Some e) :: evs' => e :: reported evs'
  | _ :: evs' => reported evs'
  | [] => []
  end.

(** What holds of a run of [Run] on the components [cs] with context [ctx]
    after the events [evs]: the tasks are those of the components already
    taken by the loop, each was given [ctx], the group counts the tasks
    that have not returned and holds the first error reported; and [Run]
    returns that error, with no task left. *)
Definition run_inv (ctx : nat) (cs : list C) (evs : list event) (s : run_state) : Prop :=
  cs = (comp <$> tasks s) ++ to_start s
  ∧ Forall (λ t, arg t = ctx) (tasks s)
  ∧ wg (group s) = unfinished (tasks s)
  ∧ err (group s) = head (reported evs)
  ∧ (errOnce (group s) = true ↔ is_Some (err (group s)))
  ∧ (∀ r, pc s = Returned r → r = head (reported evs) ∧ unfinished (tasks s) = 0).

End Net.
End Net.

(** ** [StringConnection] *)

(** The fields of a [StringConnection]: the [sync.Once] [cut] as the flag
    "already run", and whether the channels [stop] and [exited] are
    closed. *)
Record StringConnection := MkSC { cut : bool; stop : bool; exited : bool }.

(** [close(ch)] panics on a closed channel. *)
Definition close_chan (closed : bool) : option bool :=
  if closed then None else Some true.

(** [conn.pump(out, in)] makes both channels; the goroutine it starts
    closes [exited] when it returns, which it does once it can receive from
    [stop]. *)
Definition pump : StringConnection := MkSC false false false.

Definition pump_exit (c : StringConnection) : option StringConnection :=
  if stop c then Some (MkSC (cut c) (stop c) true) else None.

(** [func (conn *StringConnection) Cut()]: the guarded [close(conn.stop)],
    then [<-conn.exited], which returns when the pump has exited. *)
Definition Cut (c : StringConnection) : option StringConnection :=
  c1 ← (if cut c then Some c
        else s ← close_chan (stop c); Some (MkSC true s (exited c)));
  pump_exit c1.

(** ** Scenarios *)

(** One receiver on an [In] port, one sender on an [Out] port, both ports
    unbound, and a controller about to call [Connect] on them. *)
Definition race_start : config (T:=nat) :=
  Config [zero_port] [zero_port] [] [None]
    [Recv 0 0 Entry; Ctl [IConnect 0 0]; Send 0 0 7 Entry].

(** The receiver runs up to the second [select] and evaluates
    [in.current()], still [nil]; the controller runs all of [Connect]; the
    receiver enters the [select]; the sender runs up to its [select]. *)
Definition race_schedule : list action :=
  [Step 0 BNone; Step 0 BNone; Step 0 BNone; Step 0 BNone;
   Step 1 BNone; Step 1 BNone; Step 1 BNone; Step 1 BNone;
   Step 1 BNone; Step 1 BNone; Step 1 BNone;
   Step 0 BNone;
   Step 2 BNone; Step 2 BNone; Step 2 BNone; Step 2 BNone; Step 2 BNone].

Definition bound_port : Port := MkPort (Some 0) (Some (PChan 0 0)) true.

Definition race_end : config (T:=nat) :=
  Config [bound_port] [bound_port] [DChan 0 false] [None]
    [Recv 0 0 (Park None); Ctl []; Send 0 0 7 (Park (Some 0))].

(** A [Recv] and a [Send] about to start with a cancelled context, while
    another [Send], with a live context, waits on the channel. *)
Definition cancelled_start : config (T:=nat) :=
  Config [bound_port] [bound_port] [DChan 0 false] [Some Canceled; None]
    [Recv 0 0 Entry; Send 0 0 7 Entry; Send 0 1 9 (Park (Some 0))].

(** A [Recv] parked on the channel of its port. *)
Definition parked_start : config (T:=nat) :=
  Config [bound_port] [bound_port] [DChan 0 false] [None]
    [Recv 0 0 (Park (Some 0))].

(** An initialised port with no channel. *)
Definition absent_port : Port := MkPort None (Some (PChan 0 0)) true.

(** A [Recv] at the head of its loop on an absent port, and a controller
    about to call [Disconnect] on it. *)
Definition stall_start : config (T:=nat) :=
  Config [absent_port] [absent_port] [DChan 0 false] [None]
    [Recv 0 0 Drain; Ctl (Disconnect_code (MkConn 0 0))].

(** The [Recv] parks, then the controller runs [Disconnect]. *)
Definition stall_schedule : list action :=
  replicate 3 (Step 0 BNone) ++ replicate 6 (Step 1 BNone).

(** The same after the [Recv] has parked and the controller has run
    [Disconnect] on the absent ports. *)
Definition stall_end : config (T:=nat) :=
  Config [absent_port] [absent_port] [DChan 0 false] [None]
    [Recv 0 0 Drain; Ctl []].

(** Two [In] ports and one [Out] port, fresh, and no goroutine. *)
Definition wiring_start : config (T:=nat) :=
  Config [zero_port; zero_port] [zero_port] [] [] [].

(** After [c1 := Connect(out0, in0); c1.Disconnect(); Connect(out0, in1)]
    and then after a second [c1.Disconnect()]. *)
Definition rewired : config (T:=nat) :=
  Config [absent_port; MkPort (Some 1) (Some (PChan 0 0)) true]
    [MkPort (Some 1) (Some (PChan 0 0)) true]
    [DChan 0 false; DChan 0 false] [] [].

Definition rewired_cut : config (T:=nat) :=
  Config [absent_port; MkPort (Some 1) (Some (PChan 0 0)) true]
    [absent_port]
    [DChan 0 false; DChan 0 false] [] [].

(** A network with two components added. *)
Definition two_components : Net.Network (C:=nat) :=
  Net.Add (Net.MkNetwork []) [10; 20].

(** [Run] on two components: the second fails first, then the first returns
    the cancellation error. *)
Definition two_failures : list Net.event :=
  [Net.Spawn; Net.Spawn; Net.Finish 1 (Some (Failed 1));
   Net.Finish 0 (Some Canceled); Net.Join].

Definition two_failures_end : Net.run_state (C:=nat) :=
  Net.MkRun (Net.Returned (Some (Failed 1))) (Net.MkGroup 0 true (Some (Failed 1)))
    [Net.MkTask 10 5 true; Net.MkTask 20 5 true].

(** ** Wiring by [Connect] and [Disconnect] alone *)

(** A call of the controller: [Connect(&out, &in)] or [conn.Disconnect()]. *)
Inductive wiring := WConnect (out_ inp : nat) | WDisconnect (conn : Conn).

#[global] Instance pref_eq_dec : EqDecision pref.
Proof. solve_decision. Defined.

(** Two pointers to ports of the same kind. *)
Definition same_side (p q : pref) : Prop :=
  match p, q with
  | PIn _, PIn _ | POut _, POut _ => True
  | _, _ => False
  end.

(** The [ping] of a port holds no token: it is [nil] or as [init()] made it. *)
Definition ping_empty (x : Port) : Prop :=
  ping x = None ∨ ping x = Some (PChan 0 0).

Section FlowMore.
Context {T : Type} (zero : T).

(** The controller calls run one after the other, each to its end. *)
Definition rewire (w : wiring) (σ : config (T:=T)) : option config :=
  match w with
  | WConnect o n => snd <$> Connect o n σ
  | WDisconnect conn => Disconnect conn σ
  end.

Fixpoint rewires (ws : list wiring) (σ : config (T:=T)) : option config :=
  match ws with
  | [] => Some σ
  | w :: ws' => rewire w σ ≫= rewires ws'
  end.

(** Every channel held by a port is on the heap. *)
Definition bound_in_range (σ : config (T:=T)) : Prop :=
  ∀ p x c, get_port p σ = Some x → data x = Some c → c < length (chans σ).

(** No channel is current on two [In] ports, or on two [Out] ports. *)
Definition exclusive (σ : config (T:=T)) : Prop :=
  ∀ p q x y c,
    same_side p q →
    get_port p σ = Some x → get_port q σ = Some y →
    data x = Some c → data y = Some c → p = q.

Definition pings_empty (σ : config (T:=T)) : Prop :=
  Forall ping_empty (ins σ) ∧ Forall ping_empty (outs σ).

(** [init()] has run on port [p]: the [sync.Once] is done and [ping] is the
    channel it made. *)
Definition initialised (p : pref) (σ : config (T:=T)) : Prop :=
  ∃ x, get_port p σ = Some x ∧ create x = true ∧ ping x = Some (PChan 0 0).

End FlowMore.

(** ** The pump of a [StringConnection] *)

(** The goroutine started by [pump]: in its outer [select], in the inner
    one with the value it received from [out], or returned. *)
Inductive pump_pc := PIdle | PHold (val : string) | PExited.

(** What can happen to a connection: the pump receives [val] from [out]
    (the empty string when [out] is closed); the pump sends the value it
    holds on [in]; the pump receives from the closed [stop] and returns, its
    deferred call closing [exited]; a caller of [Cut] runs
    [conn.cut.Do(...)]. A send on a closed [in] panics: the events are those
    of a connection whose [in] is open. *)
Inductive pump_event := PTake (val : string) | PGive | PStop | PCut.

Record pump_state := MkPump { conn_of : StringConnection; ppc : pump_pc }.

(** [ConnectString(out, in)]: a new connection with its pump started. *)
Definition ConnectString : pump_state := MkPump pump PIdle.

(** One event, with the value sent on [in] if there is one. *)
Definition pump_step (ev : pump_event) (s : pump_state)
  : option (pump_state * option string) :=
  match ev, ppc s with
  | PTake val, PIdle => Some (MkPump (conn_of s) (PHold val), None)
  | PGive, PHold val => Some (MkPump (conn_of s) PIdle, Some val)
  | PStop, PIdle | PStop, PHold _ =>
      if stop (conn_of s)
      then close_chan (exited (conn_of s)) ≫= λ x,
           Some (MkPump (MkSC (cut (conn_of s)) (stop (conn_of s)) x) PExited, None)
      else None
  | PCut, _ =>
      (if cut (conn_of s) then Some (conn_of s)
       else close_chan (stop (conn_of s)) ≫= λ x,
            Some (MkSC true x (exited (conn_of s)))) ≫= λ c,
      Some (MkPump c (ppc s), None)
  | _, _ => None
  end.

(** A run of events, with the values sent on [in] in order. *)
Fixpoint pump_run (evs : list pump_event) (s : pump_state)
  : option (pump_state * list string) :=
  match evs with
  | [] => Some (s, [])
  | ev :: evs' =>
      pump_step ev s ≫= λ '(s1, o),
      pump_run evs' s1 ≫= λ '(s2, given),
      Some (s2, from_option (λ v, [v]) [] o ++ given)
  end.

(** The values the pump received from [out], in order. *)
Fixpoint taken (evs : list pump_event) : list string :=
  match evs with
  | PTake val :: evs' => val :: taken evs'
  | _ :: evs' => taken evs'
  | [] => []
  end.

(** [<-conn.exited], the last statement of [Cut], can return. *)
Definition Cut_returns (s : pump_state) : bool := exited (conn_of s).

(** ** [StringProcessor.Run] *)

(** [StringProcessor.Run]: in its outer [select], in the inner one with the
    processed value, or returned. *)
Inductive sp_pc := SPWait | SPHold (value : string) | SPRet (err : option error).

(** The context is done with error [e]; a value is received from [p.In];
    [p.In] is found closed; the held value is sent on [p.Out] (which is
    open: a send on a closed channel panics). *)
Inductive sp_event :=
| SPDone (e : error) | SPRecv (value : string) | SPClosed | SPSend.

(** [func (p *StringProcessor) Run(ctx context.Context) error], with the
    field [process] ([None] for [nil]). *)
Definition sp_step (process : option (string → string)) (ev : sp_event)
  (pc : sp_pc) : option (sp_pc * option string) :=
  match pc, ev with
  | SPWait, SPDone e => Some (SPRet (Some e), None)
  | SPWait, SPClosed => Some (SPRet None, None)
  | SPWait, SPRecv value =>
      Some (SPHold (match process with Some f => f value | None => value end),
            None)
  | SPHold _, SPDone e => Some (SPRet (Some e), None)
  | SPHold value, SPSend => Some (SPWait, Some value)
  | _, _ => None
  end.

Fixpoint sp_run (process : option (string → string)) (evs : list sp_event)
  (pc : sp_pc) : option (sp_pc * list string) :=
  match evs with
  | [] => Some (pc, [])
  | ev :: evs' =>
      sp_step process ev pc ≫= λ '(pc1, o),
      sp_run process evs' pc1 ≫= λ '(pc2, sent),
      Some (pc2, from_option (λ v, [v]) [] o ++ sent)
  end.

(** The values received from [p.In], in order. *)
Fixpoint sp_received (evs : list sp_event) : list string :=
  match evs with
  | SPRecv value :: evs' => value :: sp_received evs'
  | _ :: evs' => sp_received evs'
  | [] => []
  end.

(** ** More of [Network.Run] *)

(** The tasks that returned, in the order they did. *)
Fixpoint finished (evs : list Net.event) : list nat :=
  match evs with
  | Net.Finish j _ :: evs' => j :: finished evs'
  | _ :: evs' => finished evs'
  | [] => []
  end.

(** ** More scenarios *)

(** [Connect(out0, in0)] done on fresh ports, with a second [In] port. *)
Definition wired_once : config (T:=nat) :=
  Config [bound_port; zero_port] [bound_port] [DChan 0 false] [] [].

(** The same after [Connect(out0, in1)]. *)
Definition wired_twice : config (T:=nat) :=
  Config [bound_port; MkPort (Some 1) (Some (PChan 0 0)) true]
    [MkPort (Some 1) (Some (PChan 0 0)) true]
    [DChan 0 false; DChan 0 false] [] [].

(** A [Recv] parked on the channel of its port and a [Send] about to start
    on the port at the other end. *)
Definition handover_start : config (T:=nat) :=
  Config [bound_port] [bound_port] [DChan 0 false] [None]
    [Recv 0 0 (Park (Some 0)); Send 0 0 7 Entry].

(** A [Recv] parked on a port that was never connected. *)
Definition waiting_start : config (T:=nat) :=
  Config [absent_port] [zero_port] [] [None] [Recv 0 0 (Park None)].

Definition empty_network : Net.Network (C:=nat) := Net.MkNetwork [].

(** The pump forwards one value, receives a second, and is cut. *)
Definition cut_while_holding : list pump_event :=
  [PTake "a"; PGive; PTake "b"; PCut; PStop].

Definition cut_while_holding_end : pump_state :=
  MkPump (MkSC true true true) PExited.

(** A processor receives and sends a value, then finds its input closed. *)
Definition relay_events : list sp_event := [SPRecv "a"; SPSend; SPClosed].

(** ** Calls of [Disconnect] running together *)

Section Teardown.
Context {T : Type}.

(** Every controller goroutine is a call of [conn.Disconnect()] that is
    about to start; the other goroutines are calls of [Recv] and [Send]. *)
Definition Disconnect_calls (conn : Conn) (σ : config (T:=T)) : Prop :=
  ∀ i code, threads σ !! i = Some (Ctl code) → code = Disconnect_code conn.

(** How far the calls of [conn.Disconnect()] have come: every controller
    goroutine has run the first [n] statements of [Disconnect], and once
    the assignment of a port is among them the port is absent. *)
Definition tearing (conn : Conn) (σ : config (T:=T)) : Prop :=
  ∀ i code, threads σ !! i = Some (Ctl code) →
    ∃ n, code = drop n (Disconnect_code conn)
         ∧ (2 ≤ n → current (POut (from conn)) σ = Some None)
         ∧ (5 ≤ n → current (PIn (to conn)) σ = Some None).

End Teardown.

(** [n] calls of [Cut] on the same [StringConnection], one after the
    other. *)
Fixpoint Cut_times (n : nat) (c : StringConnection) : option StringConnection :=
  match n with
  | 0 => Some c
  | S n' => Cut c ≫= Cut_times n'
  end.

(** A [Recv] parked on the channel of its port, a [Send] at its second
    [select] on the same channel, and a controller about to run
    [in.swap(nil)]. *)
Definition blocked_start : config (T:=nat) :=
  Config [bound_port] [bound_port] [DChan 0 false] [None]
    [Recv 0 0 (Park (Some 0)); Send 0 0 7 (Poll (Some 0));
     Ctl (swap_code (PIn 0) None)].

(** A [Send] parked on the channel of its port, a [Recv] at its second
    [select] on the same channel, and a controller about to run
    [out.swap(nil)]. *)
Definition blocked_send_start : config (T:=nat) :=
  Config [bound_port] [bound_port] [DChan 0 false] [None]
    [Send 0 0 7 (Park (Some 0)); Recv 0 0 (Poll (Some 0));
     Ctl (swap_code (POut 0) None)].

(** Two goroutines about to call [Disconnect] on the same [Conn], whose
    ports are connected, and a [Recv] parked on the channel. *)
Definition teardown_start : config (T:=nat) :=
  Config [bound_port] [bound_port] [DChan 0 false] [None]
    [Ctl (Disconnect_code (MkConn 0 0)); Ctl (Disconnect_code (MkConn 0 0));
     Recv 0 0 (Park (Some 0))].

(** The two calls take turns, statement by statement. *)
Definition teardown_schedule : list action :=
  [Step 0 BNone; Step 1 BNone; Step 1 BNone; Step 0 BNone;
   Step 0 BNone; Step 1 BNone; Step 0 BNone; Step 1 BNone;
   Step 1 BNone; Step 0 BNone; Step 0 BNone; Step 1 BNone].

Definition teardown_end : config (T:=nat) :=
  Config [absent_port] [absent_port] [DChan 0 false] [None]
    [Ctl []; Ctl []; Recv 0 0 Drain].

(** [wired_once] after [c1.Disconnect()], [c1] being the connection of
    [out0] and [in0]. *)
Definition unwired_once : config (T:=nat) :=
  Config [absent_port; zero_port] [absent_port] [DChan 0 false] [] [].

(** * Properties *)

Section Facts.
Context {T : Type} (zero : T).
Implicit Types (σ : config (T:=T)) (t : thread (T:=T)).

(** ** Lists *)

Lemma find_idx_Some {A} (f : A → bool) (l : list A) j :
  find_idx f l = Some j → ∃ x, l !! j = Some x ∧ f x = true.
Proof.
  revert j. induction l as [|x l IH]; intros j; simpl; [done|].
  destruct (f x) eqn:Hx.
  - intros [= <-]. eauto.
  - destruct (find_idx f l) as [j'|]; simpl; [|done].
    intros [= <-]. by apply IH.
Qed.

Lemma find_idx_None {A} (f : A → bool) (l : list A) j x :
  find_idx f l = None → l !! j = Some x → f x = false.
Proof.
  revert j. induction l as [|y l IH]; intros j; simpl; [done|].
  destruct (f y) eqn:Hy; [done|].
  destruct (find_idx f l); simpl; [done|].
  intros _. destruct j; simpl; [by intros [= <-]|by apply IH].
Qed.

Lemma find_idx_is_Some {A} (f : A → bool) (l : list A) j x :
  l !! j = Some x → f x = true → is_Some (find_idx f l).
Proof.
  intros Hj Hx. destruct (find_idx f l) eqn:Hf; [by eexists|].
  by rewrite (find_idx_None _ _ _ _ Hf Hj) in Hx.
Qed.

(** ** What the port operations leave alone *)

Lemma set_port_frame p x σ :
  chans (set_port p x σ) = chans σ ∧ ctxs (set_port p x σ) = ctxs σ
  ∧ threads (set_port p x σ) = threads σ.
Proof. by destruct p. Qed.

Lemma init_frame p σ σ' :
  init p σ = Some σ' →
  chans σ' = chans σ ∧ ctxs σ' = ctxs σ ∧ threads σ' = threads σ.
Proof.
  unfold init. intros H. destruct (get_port p σ) as [x|]; simplify_eq/=.
  destruct (create x); [done|apply set_port_frame].
Qed.

Lemma set_data_frame p d σ σ' :
  set_data p d σ = Some σ' →
  chans σ' = chans σ ∧ ctxs σ' = ctxs σ ∧ threads σ' = threads σ.
Proof.
  unfold set_data. intros H. destruct (get_port p σ) as [x|]; simplify_eq/=.
  apply set_port_frame.
Qed.

Lemma drain_frame p σ σ' :
  drain p σ = Some σ' →
  chans σ' = chans σ ∧ ctxs σ' = ctxs σ ∧ threads σ' = threads σ.
Proof.
  unfold drain. intros H. destruct (get_port p σ) as [x|]; simplify_eq/=.
  destruct (ping x) as [c|]; simplify_eq/=; [|done].
  case_decide; simplify_eq; [apply set_port_frame|done].
Qed.

Lemma notify_frame p σ σ' :
  notify p σ = Some σ' →
  chans σ' = chans σ ∧ ctxs σ' = ctxs σ
  ∧ (threads σ' = threads σ
     ∨ ∃ j, find_idx (parked_on p) (threads σ) = Some j
            ∧ threads σ' = alter wake j (threads σ)).
Proof.
  unfold notify. intros H. destruct (get_port p σ) as [x|]; simplify_eq/=.
  destruct (ping x) as [c|]; simplify_eq/=; [|naive_solver].
  destruct (find_idx _ _) as [j|] eqn:Hj; simplify_eq/=; [naive_solver|].
  case_decide; simplify_eq; [|naive_solver].
  destruct (set_port_frame p
    (MkPort (data x) (Some (PChan (pcap c) (S (plen c)))) (create x)) σ)
    as (?&?&?).
  naive_solver.
Qed.

(** Opens a successful step into the case of the code that ran. *)
Ltac step_cases H :=
  unfold step_thread, recv_poll, send_poll in H;
  repeat (case_match; simplify_option_eq);
  repeat match goal with
    | H : init _ _ = Some _ |- _ => apply init_frame in H as (?&?&?)
    | H : drain _ _ = Some _ |- _ => apply drain_frame in H as (?&?&?)
    | H : set_data _ _ _ = Some _ |- _ => apply set_data_frame in H as (?&?&?)
    end.

Lemma parked_on_PIn a t :
  parked_on (PIn a) t = true → ∃ k ch, t = Recv a k (Park ch).
Proof.
  destruct t as [a' k []| | | | |]; simpl; try done.
  intros ->%bool_decide_eq_true. eauto.
Qed.

Lemma parked_on_POut a t :
  parked_on (POut a) t = true → ∃ k v ch, t = Send a k v (Park ch).
Proof.
  destruct t as [| |a' k v []| | |]; simpl; try done.
  intros ->%bool_decide_eq_true. eauto.
Qed.

Lemma send_parked_inv c t :
  send_parked c t = true → ∃ a k v, t = Send a k v (Park (Some c)).
Proof.
  destruct t as [| |a k v [| | | | |[c'|]]| | |]; simpl; try done.
  intros ->%bool_decide_eq_true. eauto.
Qed.

Lemma recv_parked_inv c t :
  recv_parked c t = true → ∃ a k, t = Recv a k (Park (Some c)).
Proof.
  destruct t as [a k [| | | | |[c'|]]| | | | |]; simpl; try done.
  intros ->%bool_decide_eq_true. eauto.
Qed.

Lemma step_cancel_moves k e σ σ' i t t' :
  cancel zero k e σ = Some σ' →
  threads σ !! i = Some t → threads σ' !! i = Some t' →
  t' = t ∨ moves zero (Cancel k e) σ σ' t t'.
Proof.
  unfold cancel. intros Hs Ht Ht'.
  destruct (ctxs σ !! k) as [[|]|] eqn:Hk; simplify_eq/=.
  rewrite list_lookup_fmap, Ht in Ht'. simplify_eq/=.
  assert (<[k:=Some e]> (ctxs σ) !! k = Some (Some e)) as Hk'.
  { apply list_lookup_insert_eq. by eapply lookup_lt_Some. }
  destruct t as [a k' []| |a k' v []| | |]; simpl; auto;
    case_decide; subst; auto; right.
  - eapply mv_recv_done; [by right|done].
  - eapply mv_send_done; [by right|done].
Qed.

(** A step that rewrites only the goroutine that took it. *)
Lemma own_move act σ σ' i0 t0 t0' i t t' :
  threads σ !! i0 = Some t0 →
  threads σ' = <[i0:=t0']> (threads σ) →
  moves zero act σ σ' t0 t0' →
  threads σ !! i = Some t → threads σ' !! i = Some t' →
  t' = t ∨ moves zero act σ σ' t t'.
Proof.
  intros H0 -> Hm Ht [(->&->&_)|(_&Ht')]%list_lookup_insert_Some.
  - right. by simplify_eq.
  - left. by simplify_eq.
Qed.

Ltac own H0 :=
  eapply (own_move _ _ _ _ _ _ _ _ _ H0);
  [simpl; try match goal with H : threads _ = threads _ |- _ => rewrite H end;
   reflexivity| |done|done].

Lemma recv_poll_moves i0 a k ch b σ σ' i t t' :
  threads σ !! i0 = Some (Recv a k (Poll ch)) →
  recv_poll zero i0 a k ch b σ = Some σ' →
  threads σ !! i = Some t → threads σ' !! i = Some t' →
  t' = t ∨ moves zero (Step i0 b) σ σ' t t'.
Proof.
  intros H0 Hs Ht Ht'. unfold recv_poll in Hs. destruct b.
  - destruct (ctxs σ !! k) as [[e|]|] eqn:Hk; simplify_eq/=.
    own H0.
    eapply mv_recv_done; [by left|done].
  - destruct ch as [c|]; simplify_eq/=.
    destruct (is_closed c σ) eqn:Hc; simplify_eq/=.
    { own H0. by apply mv_recv_closed. }
    destruct (find_idx _ _) as [j|] eqn:Hj; simplify_eq/=.
    destruct (find_idx_Some _ _ _ Hj) as (tj&Hjt&(a'&k'&v&->)%send_parked_inv).
    rewrite Hjt in Hs. simplify_eq/=.
    assert (i0 ≠ j) by (intros ->; congruence).
    assert (j < length (threads σ)) by by eapply lookup_lt_Some.
    assert (<[i0:=RecvRet v None]> (<[j:=SendRet None]> (threads σ)) !! j
            = Some (SendRet None)) as Hj'.
    { by rewrite list_lookup_insert_ne, list_lookup_insert_eq. }
    apply list_lookup_insert_Some in Ht' as [(->&<-&_)|(_&Ht')].
    { right. simplify_eq. eapply mv_recv_data; [by left|by right|done..]. }
    apply list_lookup_insert_Some in Ht' as [(->&<-&_)|(_&Ht')].
    { right. simplify_eq.
      eapply (mv_send_data _ _ _ _ _ _ _ _ _ i0); [by right|by left|done|].
      simpl. by rewrite list_lookup_insert_eq by (rewrite length_insert; by eapply lookup_lt_Some). }
    left. congruence.
  - destruct (token_ready (PIn a) σ) eqn:Hr; simplify_eq/=.
    destruct (drain (PIn a) σ) as [σ1|] eqn:Hd; simplify_eq/=.
    apply drain_frame in Hd as (_&_&Hth).
    own H0.
    eapply mv_recv_ping; [by left|by left].
  - destruct (ctx_done k σ) eqn:Hk; [done|].
    destruct (recv_ready ch σ) eqn:Hr; [done|].
    destruct (token_ready (PIn a) σ); simplify_eq/=.
    own H0. by apply mv_recv_park.
Qed.

Lemma send_poll_moves i0 a k v ch b σ σ' i t t' :
  threads σ !! i0 = Some (Send a k v (Poll ch)) →
  send_poll i0 a k v ch b σ = Some σ' →
  threads σ !! i = Some t → threads σ' !! i = Some t' →
  t' = t ∨ moves zero (Step i0 b) σ σ' t t'.
Proof.
  intros H0 Hs Ht Ht'. unfold send_poll in Hs. destruct b.
  - destruct (ctxs σ !! k) as [[e|]|] eqn:Hk; simplify_eq/=.
    own H0.
    eapply mv_send_done; [by left|done].
  - destruct ch as [c|]; simplify_eq/=.
    destruct (is_closed c σ) eqn:Hc; simplify_eq/=.
    { own H0. by apply mv_send_closed. }
    destruct (find_idx _ _) as [j|] eqn:Hj; simplify_eq/=.
    destruct (find_idx_Some _ _ _ Hj) as (tj&Hjt&(a'&k'&->)%recv_parked_inv).
    assert (i0 ≠ j) by (intros ->; congruence).
    assert (j < length (threads σ)) by by eapply lookup_lt_Some.
    assert (<[i0:=SendRet None]> (<[j:=RecvRet v None]> (threads σ)) !! j
            = Some (RecvRet v None)) as Hj'.
    { by rewrite list_lookup_insert_ne, list_lookup_insert_eq. }
    apply list_lookup_insert_Some in Ht' as [(->&<-&_)|(_&Ht')].
    { right. simplify_eq. eapply mv_send_data; [by left|by right|done..]. }
    apply list_lookup_insert_Some in Ht' as [(->&<-&_)|(_&Ht')].
    { right. simplify_eq.
      eapply (mv_recv_data _ _ _ _ _ _ _ _ i0); [by right|by left|done|].
      simpl. by rewrite list_lookup_insert_eq by (rewrite length_insert; by eapply lookup_lt_Some). }
    left. congruence.
  - destruct (token_ready (POut a) σ) eqn:Hr; simplify_eq/=.
    destruct (drain (POut a) σ) as [σ1|] eqn:Hd; simplify_eq/=.
    apply drain_frame in Hd as (_&_&Hth).
    own H0.
    eapply mv_send_ping; [by left|by left].
  - destruct (ctx_done k σ) eqn:Hk; [done|].
    destruct (send_ready ch σ) eqn:Hr; [done|].
    destruct (token_ready (POut a) σ); simplify_eq/=.
    own H0. by apply mv_send_park.
Qed.

Lemma notify_moves i0 b p code σ σ1 i t t' :
  threads σ !! i0 = Some (Ctl (INotify p :: code)) →
  notify p σ = Some σ1 →
  threads σ !! i = Some t → <[i0:=Ctl code]> (threads σ1) !! i = Some t' →
  t' = t
  ∨ moves zero (Step i0 b) σ (set_threads (<[i0:=Ctl code]> (threads σ1)) σ1) t t'.
Proof.
  intros H0 Hn Ht Ht'.
  apply list_lookup_insert_Some in Ht' as [(->&<-&_)|(_&Ht')].
  { right. simplify_eq. apply mv_ctl. }
  apply notify_frame in Hn as (_&_&[Hth|(j&Hj&Hth)]); rewrite Hth in Ht'.
  { left. congruence. }
  rewrite list_lookup_alter in Ht'. case_decide; [subst j|left; congruence].
  rewrite Ht in Ht'. simplify_eq/=.
  destruct (find_idx_Some _ _ _ Hj) as (t''&?&Hp). simplify_eq.
  right. destruct p as [a|a].
  - apply parked_on_PIn in Hp as (k&ch&->). simpl.
    eapply mv_recv_ping; [by right|]. right. eauto.
  - apply parked_on_POut in Hp as (k&v&ch&->). simpl.
    eapply mv_send_ping; [by right|]. right. eauto.
Qed.

Lemma step_thread_moves i0 b σ σ' i t t' :
  step_thread zero i0 b σ = Some σ' →
  threads σ !! i = Some t → threads σ' !! i = Some t' →
  t' = t ∨ moves zero (Step i0 b) σ σ' t t'.
Proof.
  intros Hs Ht Ht'. unfold step_thread in Hs.
  destruct (threads σ !! i0) as [t0|] eqn:H0; simplify_eq/=.
  destruct t0 as [a k l| |a k v l| | |code].
  - destruct l; simplify_eq/=.
    + destruct (ctxs σ !! k) as [[e|]|] eqn:Hk; simplify_eq/=;
        own H0; by constructor.
    + destruct (init (PIn a) σ) as [σ1|] eqn:Hi; simplify_eq/=.
      apply init_frame in Hi as (_&_&Hth).
      own H0. constructor.
    + destruct (drain (PIn a) σ) as [σ1|] eqn:Hi; simplify_eq/=.
      apply drain_frame in Hi as (_&_&Hth).
      own H0. constructor.
    + destruct (current (PIn a) σ) as [d|] eqn:Hc; simplify_eq/=.
      own H0. by constructor.
    + by eapply recv_poll_moves.
  - done.
  - destruct l; simplify_eq/=.
    + destruct (ctxs σ !! k) as [[e|]|] eqn:Hk; simplify_eq/=;
        own H0; by constructor.
    + destruct (init (POut a) σ) as [σ1|] eqn:Hi; simplify_eq/=.
      apply init_frame in Hi as (_&_&Hth).
      own H0. constructor.
    + destruct (drain (POut a) σ) as [σ1|] eqn:Hi; simplify_eq/=.
      apply drain_frame in Hi as (_&_&Hth).
      own H0. constructor.
    + destruct (current (POut a) σ) as [d|] eqn:Hc; simplify_eq/=.
      own H0. by constructor.
    + by eapply send_poll_moves.
  - done.
  - done.
  - destruct code as [|[p|p d|p|o n] code]; simplify_eq/=.
    + destruct (init p σ) as [σ1|] eqn:Hi; simplify_eq/=.
      apply init_frame in Hi as (_&_&Hth).
      own H0. constructor.
    + destruct (set_data p d σ) as [σ1|] eqn:Hi; simplify_eq/=.
      apply set_data_frame in Hi as (_&_&Hth).
      own H0. constructor.
    + destruct (notify p σ) as [σ1|] eqn:Hi; simplify_eq/=.
      by eapply notify_moves.
    + own H0. constructor.
Qed.

(** Every action changes a goroutine only along [moves]. *)
Lemma step_moves act σ σ' i t t' :
  step zero act σ = Some σ' →
  threads σ !! i = Some t → threads σ' !! i = Some t' →
  t' = t ∨ moves zero act σ σ' t t'.
Proof.
  destruct act; simpl; [apply step_thread_moves|apply step_cancel_moves].
Qed.

(** No action adds or removes a goroutine. *)
Lemma step_threads_length act σ σ' :
  step zero act σ = Some σ' → length (threads σ') = length (threads σ).
Proof.
  intros Hs. destruct act as [i b|k e]; simpl in Hs.
  - step_cases Hs; simpl; rewrite ?length_insert; try congruence.
    all: try match goal with
      | H : notify _ _ = Some _ |- _ =>
          apply notify_frame in H as (_&_&[->|(?&_&->)]);
          by rewrite ?length_alter
      end.
  - unfold cancel in Hs. destruct (ctxs σ !! k) as [[|]|]; simplify_eq/=.
    by rewrite length_fmap.
Qed.

Lemma step_lookup_back act σ σ' i t' :
  step zero act σ = Some σ' → threads σ' !! i = Some t' →
  ∃ t, threads σ !! i = Some t.
Proof.
  intros Hs Ht'. apply lookup_lt_is_Some.
  rewrite <-(step_threads_length _ _ _ Hs). by eapply lookup_lt_Some.
Qed.

Lemma step_lookup_forward act σ σ' i t :
  step zero act σ = Some σ' → threads σ !! i = Some t →
  ∃ t', threads σ' !! i = Some t'.
Proof.
  intros Hs Ht. apply lookup_lt_is_Some.
  rewrite (step_threads_length _ _ _ Hs). by eapply lookup_lt_Some.
Qed.

(** ** Results of [Recv] *)

Lemma moves_ret_ok act σ σ' t t' :
  moves zero act σ σ' t t' → ret_ok zero t'.
Proof. by destruct 1. Qed.

Lemma exec_ret_ok tr σ σ' i :
  exec zero tr σ = Some σ' →
  (∀ t, threads σ !! i = Some t → ret_ok zero t) →
  ∀ t', threads σ' !! i = Some t' → ret_ok zero t'.
Proof.
  revert σ. induction tr as [|act tr IH]; intros σ Hex Hok; simpl in Hex.
  { by simplify_eq. }
  destruct (step zero act σ) as [σ1|] eqn:Hs; simplify_eq/=.
  apply (IH σ1 Hex). intros t1 Ht1.
  destruct (step_lookup_back _ _ _ _ _ Hs Ht1) as [t Ht].
  destruct (step_moves _ _ _ _ _ _ Hs Ht Ht1) as [->|Hm]; [by apply Hok|].
  by eapply moves_ret_ok.
Qed.

(** C8: a call of [in.Recv(ctx)] that returns a non-nil error returns the
    zero value of [T] with it, whatever the other goroutines do meanwhile. *)
Theorem Recv_error_carries_zero tr σ σ' i a k l v e :
  threads σ !! i = Some (Recv a k l) →
  exec zero tr σ = Some σ' →
  threads σ' !! i = Some (RecvRet v (Some e)) →
  v = zero.
Proof.
  intros Hi Hex Hret.
  apply (exec_ret_ok _ _ _ i Hex) in Hret; [done|].
  intros t Ht. by simplify_eq.
Qed.

(** ** A context cancelled before the call *)

(** C10: when [ctx] is already cancelled as [Recv(ctx)] or [Send(ctx, v)]
    starts, the first action of the call returns [ctx.Err()] (with the zero
    value for [Recv]) and changes nothing else: no port, no channel and no
    other goroutine, in whatever state they are. *)
Theorem cancelled_before_call_returns i b σ a k e :
  ctxs σ !! k = Some (Some e) →
  (threads σ !! i = Some (Recv a k Entry) →
   step zero (Step i b) σ
   = Some (set_threads (<[i:=RecvRet zero (Some e)]> (threads σ)) σ))
  ∧ (∀ v, threads σ !! i = Some (Send a k v Entry) →
     step zero (Step i b) σ
     = Some (set_threads (<[i:=SendRet (Some e)]> (threads σ)) σ)).
Proof.
  intros Hk. split; [intros Hi|intros v Hi];
    simpl; unfold step_thread; rewrite Hi; simpl; by rewrite Hk.
Qed.

(** ** Data channels stay open *)

Lemma notify_chans p σ σ' : notify p σ = Some σ' → chans σ' = chans σ.
Proof. by intros (?&_)%notify_frame. Qed.

Lemma swap_chans p d σ σ' : swap p d σ = Some σ' → chans σ' = chans σ.
Proof.
  unfold swap. intros H.
  destruct (init p σ) as [σ1|] eqn:H1; simplify_eq/=.
  destruct (set_data p d σ1) as [σ2|] eqn:H2; simplify_eq/=.
  apply init_frame in H1 as (<-&_). apply set_data_frame in H2 as (<-&_).
  by eapply notify_chans.
Qed.

Lemma step_chans act σ σ' :
  step zero act σ = Some σ' →
  chans σ' = chans σ ∨ chans σ' = chans σ ++ [DChan 0 false].
Proof.
  intros Hs. destruct act as [i b|k e]; simpl in Hs.
  - step_cases Hs; simpl; auto; try (left; congruence).
    all: try match goal with
      | H : notify _ _ = Some _ |- _ => apply notify_chans in H; auto
      end.
  - unfold cancel in Hs. destruct (ctxs σ !! k) as [[|]|]; simplify_eq/=. auto.
Qed.

Lemma step_is_closed act σ σ' c :
  step zero act σ = Some σ' → is_closed c σ' = is_closed c σ.
Proof.
  intros Hs. unfold is_closed.
  destruct (step_chans _ _ _ Hs) as [-> | ->]; [done|].
  destruct (decide (c < length (chans σ))) as [Hlt|Hge].
  - by rewrite lookup_app_l.
  - rewrite lookup_app_r by lia. rewrite (lookup_ge_None_2 (chans σ)) by lia.
    by destruct (c - length (chans σ)) as [|[|]].
Qed.

Lemma exec_is_closed tr σ σ' c :
  exec zero tr σ = Some σ' → is_closed c σ' = is_closed c σ.
Proof.
  revert σ. induction tr as [|act tr IH]; intros σ Hex; simpl in Hex.
  { by simplify_eq. }
  destruct (step zero act σ) as [σ1|] eqn:Hs; simplify_eq/=.
  rewrite (IH _ Hex). by eapply step_is_closed.
Qed.

Lemma moves_recv_nil act σ σ' a k l v :
  moves zero act σ σ' (Recv a k l) (RecvRet v None) →
  (∃ c, l = Poll (Some c) ∧ is_closed c σ = true)
  ∨ (∃ c j a' k' l', at_select l (Some c) ∧ at_select l' (Some c)
                     ∧ threads σ !! j = Some (Send a' k' v l')).
Proof. inversion 1; subst; eauto 10. Qed.

(** C9: no action of [Connect], [Disconnect], [swap], [Recv] or [Send]
    closes a data channel. Along every run each channel is as closed as it
    was; [Disconnect] leaves the heap of channels as it is; and where no
    channel is closed, a [Recv] that returns a nil error got its value from
    a [Send] on the channel it waited on, never from a closed channel. *)
Theorem data_channels_never_closed tr σ σ' :
  exec zero tr σ = Some σ' →
  (∀ c, is_closed c σ' = is_closed c σ)
  ∧ (∀ conn σ1, Disconnect conn σ' = Some σ1 → chans σ1 = chans σ')
  ∧ ((∀ c, is_closed c σ = false) →
     ∀ act σ1 i a k l v,
       step zero act σ' = Some σ1 →
       threads σ' !! i = Some (Recv a k l) →
       threads σ1 !! i = Some (RecvRet v None) →
       ∃ c j a' k' l', at_select l (Some c) ∧ at_select l' (Some c)
                       ∧ threads σ' !! j = Some (Send a' k' v l')).
Proof.
  intros Hex. split; [|split].
  - intros c. by eapply exec_is_closed.
  - intros conn σ1. unfold Disconnect. intros H.
    destruct (swap _ _ σ') as [σ2|] eqn:H2; simplify_eq/=.
    apply swap_chans in H2 as <-. by apply swap_chans in H.
  - intros Hopen act σ1 i a k l v Hs Hi Hi1.
    destruct (step_moves _ _ _ _ _ _ Hs Hi Hi1) as [?|Hm]; [done|].
    apply moves_recv_nil in Hm as [(c&_&Hc)|?]; [|done].
    by rewrite (exec_is_closed _ _ _ _ Hex), Hopen in Hc.
Qed.

(** ** [swap] *)

Lemma get_set_port_eq p x y σ :
  get_port p σ = Some y → get_port p (set_port p x σ) = Some x.
Proof.
  destruct p; simpl; intros H; apply list_lookup_insert_eq;
    by eapply lookup_lt_Some.
Qed.

Lemma get_set_port_ne p q x σ :
  q ≠ p → get_port q (set_port p x σ) = get_port q σ.
Proof.
  destruct p, q; simpl; intros H; try done;
    apply list_lookup_insert_ne; congruence.
Qed.

Lemma get_port_set_threads p ts σ :
  get_port p (set_threads ts σ) = get_port p σ.
Proof. by destruct p. Qed.

Lemma init_spec p σ x :
  get_port p σ = Some x →
  ∃ σ1, init p σ = Some σ1
        ∧ get_port p σ1 = Some (MkPort (data x) (made_once x) true)
        ∧ (∀ q, q ≠ p → get_port q σ1 = get_port q σ)
        ∧ chans σ1 = chans σ ∧ ctxs σ1 = ctxs σ ∧ threads σ1 = threads σ.
Proof.
  intros Hx. unfold init, made_once. rewrite Hx. simpl.
  destruct x as [d c [|]]; simpl; eexists; (split; [done|]).
  - by repeat split.
  - destruct (set_port_frame p (MkPort d (Some (PChan 0 0)) true) σ) as (?&?&?).
    repeat split; [by eapply get_set_port_eq| |done..].
    intros q Hq. by apply get_set_port_ne.
Qed.

Lemma set_data_spec p d σ x :
  get_port p σ = Some x →
  ∃ σ1, set_data p d σ = Some σ1
        ∧ get_port p σ1 = Some (MkPort d (ping x) (create x))
        ∧ (∀ q, q ≠ p → get_port q σ1 = get_port q σ)
        ∧ chans σ1 = chans σ ∧ ctxs σ1 = ctxs σ ∧ threads σ1 = threads σ.
Proof.
  intros Hx. unfold set_data. rewrite Hx. simpl. eexists. split; [done|].
  destruct (set_port_frame p (MkPort d (ping x) (create x)) σ) as (?&?&?).
  repeat split; [by eapply get_set_port_eq| |done..].
  intros q Hq. by apply get_set_port_ne.
Qed.

Lemma notify_spec p σ x :
  get_port p σ = Some x →
  ∃ σ1 x1, notify p σ = Some σ1
        ∧ get_port p σ1 = Some x1
        ∧ data x1 = data x ∧ create x1 = create x
        ∧ pcap <$> ping x1 = pcap <$> ping x
        ∧ (∀ c, ping x = Some c → pcap c = 0 → ping x1 = Some c)
        ∧ (∀ q, q ≠ p → get_port q σ1 = get_port q σ)
        ∧ chans σ1 = chans σ ∧ ctxs σ1 = ctxs σ
        ∧ (threads σ1 = threads σ
           ∨ ∃ j t, threads σ !! j = Some t ∧ parked_on p t = true
                    ∧ threads σ1 = <[j:=wake t]> (threads σ))
        ∧ (find_idx (parked_on p) (threads σ) = None → threads σ1 = threads σ)
        ∧ (∀ j, is_Some (ping x) → find_idx (parked_on p) (threads σ) = Some j →
                threads σ1 = alter wake j (threads σ)).
Proof.
  intros Hx. unfold notify. rewrite Hx. simpl.
  destruct (ping x) as [c|] eqn:Hc.
  2:{ exists σ, x. rewrite Hc.
      do 11 (split; [by auto|]). by intros j [??]. }
  destruct (find_idx _ _) as [j|] eqn:Hj.
  - destruct (find_idx_Some _ _ _ Hj) as (t&Ht&Hp).
    exists (set_threads (alter wake j (threads σ)) σ), x.
    rewrite get_port_set_threads, Hc.
    do 6 (split; [by auto|]).
    split; [intros; apply get_port_set_threads|].
    do 2 (split; [done|]).
    split; [|split; [done|by intros j' _ [= <-]]].
    right. exists j, t. repeat split; [done..|]. simpl.
    apply list_eq. intros i. destruct (decide (j = i)) as [<-|Hne].
    + rewrite list_lookup_alter_eq, Ht, list_lookup_insert_eq; [done|].
      by eapply lookup_lt_Some.
    + by rewrite list_lookup_alter_ne, list_lookup_insert_ne.
  - case_decide as Hlen.
    + destruct (set_port_frame p
        (MkPort (data x) (Some (PChan (pcap c) (S (plen c)))) (create x)) σ)
        as (?&?&?).
      eexists _, _. split; [done|]. split; [by eapply get_set_port_eq|].
      simpl. do 3 (split; [done|]).
      split; [intros c' [= <-] Hcap; lia|].
      split; [intros q Hq; by apply get_set_port_ne|].
      do 2 (split; [done|]). split; [by left|]. split; [by auto|].
      by intros j _ [=].
    + exists σ, x. rewrite Hc. do 11 (split; [by auto|]). by intros j _ [=].
Qed.

Lemma swap_spec p d σ x :
  get_port p σ = Some x →
  ∃ σ' x', swap p d σ = Some σ'
        ∧ get_port p σ' = Some x'
        ∧ data x' = d ∧ create x' = true
        ∧ pcap <$> ping x' = pcap <$> made_once x
        ∧ (∀ c, made_once x = Some c → pcap c = 0 → ping x' = Some c)
        ∧ (∀ q, q ≠ p → get_port q σ' = get_port q σ)
        ∧ chans σ' = chans σ ∧ ctxs σ' = ctxs σ
        ∧ (threads σ' = threads σ
           ∨ ∃ j t, threads σ !! j = Some t ∧ parked_on p t = true
                    ∧ threads σ' = <[j:=wake t]> (threads σ))
        ∧ (find_idx (parked_on p) (threads σ) = None → threads σ' = threads σ)
        ∧ (∀ j, is_Some (made_once x) →
                find_idx (parked_on p) (threads σ) = Some j →
                threads σ' = alter wake j (threads σ)).
Proof.
  intros Hx. unfold swap.
  destruct (init_spec p σ x Hx) as (σ1&->&Hx1&Hq1&Hc1&Hk1&Ht1). simpl.
  destruct (set_data_spec p d σ1 _ Hx1) as (σ2&->&Hx2&Hq2&Hc2&Hk2&Ht2). simpl.
  destruct (notify_spec p σ2 _ Hx2)
    as (σ3&x3&->&Hx3&Hd3&Hcr3&Hcap3&Hp3&Hq3&Hc3&Hk3&Ht3&Hn3&Hw3).
  simpl in *. exists σ3, x3. rewrite Ht2, Ht1 in *.
  repeat split; auto; try congruence.
  intros q Hq. by rewrite Hq3, Hq2, Hq1.
Qed.

Lemma init_twice p σ σ1 : init p σ = Some σ1 → init p σ1 = Some σ1.
Proof.
  unfold init. destruct (get_port p σ) as [x|] eqn:Hx; [|done]. simpl.
  destruct (create x) eqn:Hc; intros [= <-].
  - rewrite Hx. simpl. by rewrite Hc.
  - by erewrite get_set_port_eq.
Qed.

(** C6: [swap] always succeeds, on any port in any state: it installs the
    given channel ([None] for [nil]) as current, leaves the port with the
    [ping] its first [init()] made, and changes at most one goroutine, one
    that was parked on this port and now restarts its loop; with nobody
    parked on the port no goroutine changes. A second [init()] makes
    nothing, and each of the three actions of [swap] can run whenever the
    controller is scheduled, whatever the other goroutines do. *)
Theorem swap_installs_and_never_blocks p d σ x :
  get_port p σ = Some x →
  (∃ σ' x', swap p d σ = Some σ'
     ∧ get_port p σ' = Some x' ∧ data x' = d ∧ create x' = true
     ∧ pcap <$> ping x' = pcap <$> made_once x
     ∧ (∀ c, made_once x = Some c → pcap c = 0 → ping x' = Some c)
     ∧ (threads σ' = threads σ
        ∨ ∃ j t, threads σ !! j = Some t ∧ parked_on p t = true
                 ∧ threads σ' = <[j:=wake t]> (threads σ))
     ∧ (find_idx (parked_on p) (threads σ) = None → threads σ' = threads σ))
  ∧ (∀ σ1, init p σ = Some σ1 → init p σ1 = Some σ1)
  ∧ (∀ i b ins code,
       ins ∈ swap_code p d →
       threads σ !! i = Some (Ctl (ins :: code)) →
       is_Some (step zero (Step i b) σ)).
Proof.
  intros Hx. split; [|split].
  - destruct (swap_spec p d σ x Hx) as (σ'&x'&?&?&?&?&?&?&_&_&_&?&?&_).
    exists σ', x'. by repeat split.
  - apply init_twice.
  - intros i b ins code Hin Hi. simpl. unfold step_thread. rewrite Hi. simpl.
    unfold swap_code in Hin.
    apply elem_of_cons in Hin as [->|Hin]; [|apply elem_of_cons in Hin as [->|Hin];
      [|apply list_elem_of_singleton in Hin as ->]]; simpl.
    + destruct (init_spec p σ x Hx) as (σ1&->&_). by eexists.
    + destruct (set_data_spec p d σ x Hx) as (σ1&->&_). by eexists.
    + destruct (notify_spec p σ x Hx) as (σ1&x1&->&_). by eexists.
Qed.

(** ** [Connect] and [Disconnect] *)

(** C5: [Connect(from, to)] on two existing ports returns a [Conn] of
    exactly these two ports; the channel it makes is new on the heap,
    unbuffered and open, and when [Connect] returns it is the current
    channel of both ports. *)
Theorem Connect_installs_fresh_channel o n σ xo xi :
  outs σ !! o = Some xo → ins σ !! n = Some xi →
  ∃ σ', Connect o n σ = Some (MkConn o n, σ')
        ∧ chans σ !! length (chans σ) = None
        ∧ chans σ' = chans σ ++ [DChan 0 false]
        ∧ current (POut o) σ' = Some (Some (length (chans σ)))
        ∧ current (PIn n) σ' = Some (Some (length (chans σ))).
Proof.
  intros Ho Hn. unfold Connect. simpl.
  set (σ0 := Config (ins σ) (outs σ) (chans σ ++ [DChan 0 false]) (ctxs σ) (threads σ)).
  destruct (swap_spec (POut o) (Some (length (chans σ))) σ0 xo Ho)
    as (σ1&x1&->&Hx1&Hd1&_&_&_&Hq1&Hc1&_).
  simpl. assert (get_port (PIn n) σ1 = Some xi) as Hn1 by by rewrite Hq1.
  destruct (swap_spec (PIn n) (Some (length (chans σ))) σ1 xi Hn1)
    as (σ2&x2&->&Hx2&Hd2&_&_&_&Hq2&Hc2&_).
  simpl. exists σ2. repeat split.
  - by apply lookup_ge_None_2.
  - by rewrite Hc2, Hc1.
  - unfold current. by rewrite Hq2, Hx1, <-Hd1.
  - unfold current. by rewrite Hx2, <-Hd2.
Qed.

Lemma Disconnect_spec conn σ xo xi :
  outs σ !! from conn = Some xo → ins σ !! to conn = Some xi →
  ∃ σ' xo' xi', Disconnect conn σ = Some σ'
        ∧ outs σ' !! from conn = Some xo' ∧ data xo' = None
        ∧ ins σ' !! to conn = Some xi' ∧ data xi' = None
        ∧ chans σ' = chans σ.
Proof.
  intros Ho Hn. unfold Disconnect.
  destruct (swap_spec (POut (from conn)) None σ xo Ho)
    as (σ1&x1&->&Hx1&Hd1&_&_&_&Hq1&Hc1&_).
  simpl. assert (get_port (PIn (to conn)) σ1 = Some xi) as Hn1 by by rewrite Hq1.
  destruct (swap_spec (PIn (to conn)) None σ1 xi Hn1)
    as (σ2&x2&->&Hx2&Hd2&_&_&_&Hq2&Hc2&_).
  exists σ2, x1, x2. repeat split; try done.
  - by rewrite <-Hx1, <-(Hq2 (POut (from conn))).
  - by rewrite Hc2.
Qed.

(** ** A call on an absent port *)

Lemma moves_retrying act σ σ' p k t t' :
  retrying p k t → moves zero act σ σ' t t' →
  current p σ = Some None → ctxs σ' !! k = Some None →
  retrying p k t'.
Proof.
  intros Hr Hm Hcur Hctx. unfold retrying, retry_loc in *.
  destruct p as [a|a]; inversion Hm; subst; try done;
    destruct Hr as (<-&<-&Hl);
    repeat match goal with
      | H : at_select _ _ |- _ => destruct H as [-> | ->]
      end;
    try (repeat split; auto; fail);
    try (destruct Hl as [?|[?|[?|?]]]; congruence).
  all: repeat split; try done; simplify_eq; auto.
  all: destruct Hl as [?|[?|[?|?]]]; simplify_eq; auto.
Qed.


Lemma runs_absent_end p k σ σ' :
  runs_absent zero p k σ σ' →
  current p σ = Some None → ctxs σ !! k = Some None →
  current p σ' = Some None ∧ ctxs σ' !! k = Some None.
Proof. by destruct 1. Qed.

Lemma runs_absent_cons p k act σ σ1 σ' :
  step zero act σ = Some σ1 →
  current p σ1 = Some None → ctxs σ1 !! k = Some None →
  runs_absent zero p k σ1 σ' → runs_absent zero p k σ σ'.
Proof.
  intros Hs Hcur Hctx Hrun. induction Hrun as [|σ1 σ2 act' σ3 _ IH].
  - eapply ra_step; [apply ra_refl|done..].
  - eapply ra_step; [by apply IH|done..].
Qed.

Lemma exec_absent_runs p k tr σ σ' :
  exec_absent zero p k tr σ = Some σ' → runs_absent zero p k σ σ'.
Proof.
  revert σ. induction tr as [|act tr IH]; intros σ Hex; simpl in Hex.
  { simplify_eq. apply ra_refl. }
  destruct (step zero act σ) as [σ1|] eqn:Hs; simplify_eq/=.
  destruct (current p σ1) as [[|]|] eqn:Hcur; try done.
  destruct (ctxs σ1 !! k) as [[|]|] eqn:Hctx; try done.
  eapply runs_absent_cons; [done..|by apply IH].
Qed.

Lemma runs_absent_retrying p k σ σ' i t :
  runs_absent zero p k σ σ' →
  current p σ = Some None → ctxs σ !! k = Some None →
  threads σ !! i = Some t → retrying p k t →
  ∃ t', threads σ' !! i = Some t' ∧ retrying p k t'.
Proof.
  intros Hrun Hcur Hctx Ht Hr.
  induction Hrun as [|σ σ1 act σ2 Hrun IH Hs Hcur2 Hctx2]; [by eauto|].
  destruct (IH Hcur Hctx Ht) as (t1&Ht1&Hr1).
  destruct (runs_absent_end _ _ _ _ Hrun Hcur Hctx) as [Hcur1 _].
  destruct (step_lookup_forward _ _ _ _ _ Hs Ht1) as [t2 Ht2].
  exists t2. split; [done|].
  destruct (step_moves _ _ _ _ _ _ Hs Ht1 Ht2) as [->|Hm]; [done|].
  by eapply moves_retrying.
Qed.

Lemma token_ready_drain p σ :
  is_Some (get_port p σ) → token_ready p σ = false → drain p σ = Some σ.
Proof.
  intros [x Hx]. unfold token_ready, drain. rewrite Hx. simpl.
  destruct (ping x) as [c|]; [|done].
  intros Hc%bool_decide_eq_false. by case_decide.
Qed.

Lemma token_ready_set_threads p ts σ :
  token_ready p (set_threads ts σ) = token_ready p σ.
Proof. unfold token_ready. by rewrite get_port_set_threads. Qed.

Lemma ctx_done_live k σ : ctxs σ !! k = Some None → ctx_done k σ = false.
Proof. unfold ctx_done. by intros ->. Qed.

Lemma exec_cons act tr σ :
  exec zero (act :: tr) σ = step zero act σ ≫= exec zero tr.
Proof. done. Qed.

Lemma lookup_set_threads_insert i t σ :
  i < length (threads σ) →
  threads (set_threads (<[i:=t]> (threads σ)) σ) !! i = Some t.
Proof. intros. simpl. by apply list_lookup_insert_eq. Qed.

Lemma set_threads_twice i t1 t2 σ :
  set_threads (<[i:=t2]> (threads (set_threads (<[i:=t1]> (threads σ)) σ)))
    (set_threads (<[i:=t1]> (threads σ)) σ)
  = set_threads (<[i:=t2]> (threads σ)) σ.
Proof. unfold set_threads. simpl. by rewrite list_insert_insert_eq. Qed.

Lemma step_drain_Recv i b a k σ :
  threads σ !! i = Some (Recv a k Drain) →
  is_Some (get_port (PIn a) σ) → token_ready (PIn a) σ = false →
  step zero (Step i b) σ
  = Some (set_threads (<[i:=Recv a k Eval]> (threads σ)) σ).
Proof.
  intros Hi Hp Htok. simpl. unfold step_thread. rewrite Hi. simpl.
  by rewrite (token_ready_drain _ _ Hp Htok).
Qed.

Lemma step_eval_Recv i b a k d σ :
  threads σ !! i = Some (Recv a k Eval) → current (PIn a) σ = Some d →
  step zero (Step i b) σ
  = Some (set_threads (<[i:=Recv a k (Poll d)]> (threads σ)) σ).
Proof.
  intros Hi Hd. simpl. unfold step_thread. rewrite Hi. simpl. by rewrite Hd.
Qed.

Lemma step_park_Recv i a k σ :
  threads σ !! i = Some (Recv a k (Poll None)) →
  ctxs σ !! k = Some None → token_ready (PIn a) σ = false →
  step zero (Step i BNone) σ
  = Some (set_threads (<[i:=Recv a k (Park None)]> (threads σ)) σ).
Proof.
  intros Hi Hk Htok. simpl. unfold step_thread. rewrite Hi. simpl.
  by rewrite (ctx_done_live _ _ Hk), Htok.
Qed.

Lemma step_drain_Send i b a k v σ :
  threads σ !! i = Some (Send a k v Drain) →
  is_Some (get_port (POut a) σ) → token_ready (POut a) σ = false →
  step zero (Step i b) σ
  = Some (set_threads (<[i:=Send a k v Eval]> (threads σ)) σ).
Proof.
  intros Hi Hp Htok. simpl. unfold step_thread. rewrite Hi. simpl.
  by rewrite (token_ready_drain _ _ Hp Htok).
Qed.

Lemma step_eval_Send i b a k v d σ :
  threads σ !! i = Some (Send a k v Eval) → current (POut a) σ = Some d →
  step zero (Step i b) σ
  = Some (set_threads (<[i:=Send a k v (Poll d)]> (threads σ)) σ).
Proof.
  intros Hi Hd. simpl. unfold step_thread. rewrite Hi. simpl. by rewrite Hd.
Qed.

Lemma step_park_Send i a k v σ :
  threads σ !! i = Some (Send a k v (Poll None)) →
  ctxs σ !! k = Some None → token_ready (POut a) σ = false →
  step zero (Step i BNone) σ
  = Some (set_threads (<[i:=Send a k v (Park None)]> (threads σ)) σ).
Proof.
  intros Hi Hk Htok. simpl. unfold step_thread. rewrite Hi. simpl.
  by rewrite (ctx_done_live _ _ Hk), Htok.
Qed.

Lemma current_is_Some p d σ : current p σ = Some d → is_Some (get_port p σ).
Proof. unfold current. by destruct (get_port p σ); [eexists|]. Qed.

Lemma current_set_threads p ts σ :
  current p (set_threads ts σ) = current p σ.
Proof. unfold current. by rewrite get_port_set_threads. Qed.

Lemma Recv_blocks_on_absent σ i a k :
  threads σ !! i = Some (Recv a k Drain) →
  current (PIn a) σ = Some None → ctxs σ !! k = Some None →
  token_ready (PIn a) σ = false →
  exec zero [Step i BNone; Step i BNone; Step i BNone] σ
  = Some (set_threads (<[i:=Recv a k (Park None)]> (threads σ)) σ).
Proof.
  intros Hi Hcur Hctx Htok.
  assert (i < length (threads σ)) as Hlt by by eapply lookup_lt_Some.
  rewrite exec_cons, (step_drain_Recv _ _ a k); [|done|by eapply current_is_Some|done].
  cbn [mbind option_bind].
  rewrite exec_cons, (step_eval_Recv _ _ a k None);
    [|by apply lookup_set_threads_insert|by rewrite current_set_threads].
  cbn [mbind option_bind]. rewrite set_threads_twice.
  rewrite exec_cons, (step_park_Recv _ a k);
    [|by apply lookup_set_threads_insert|done|by rewrite token_ready_set_threads].
  cbn [mbind option_bind]. by rewrite set_threads_twice.
Qed.

Lemma Send_blocks_on_absent σ i a k v :
  threads σ !! i = Some (Send a k v Drain) →
  current (POut a) σ = Some None → ctxs σ !! k = Some None →
  token_ready (POut a) σ = false →
  exec zero [Step i BNone; Step i BNone; Step i BNone] σ
  = Some (set_threads (<[i:=Send a k v (Park None)]> (threads σ)) σ).
Proof.
  intros Hi Hcur Hctx Htok.
  assert (i < length (threads σ)) as Hlt by by eapply lookup_lt_Some.
  rewrite exec_cons, (step_drain_Send _ _ a k v); [|done|by eapply current_is_Some|done].
  cbn [mbind option_bind].
  rewrite exec_cons, (step_eval_Send _ _ a k v None);
    [|by apply lookup_set_threads_insert|by rewrite current_set_threads].
  cbn [mbind option_bind]. rewrite set_threads_twice.
  rewrite exec_cons, (step_park_Send _ a k v);
    [|by apply lookup_set_threads_insert|done|by rewrite token_ready_set_threads].
  cbn [mbind option_bind]. by rewrite set_threads_twice.
Qed.

Lemma parked_wake_retrying p t :
  parked_on p t = true → ∃ k, retrying p k (wake t).
Proof.
  destruct p as [a|a]; intros Hp.
  - apply parked_on_PIn in Hp as (k&ch&->). exists k. simpl.
    unfold retry_loc. auto.
  - apply parked_on_POut in Hp as (k&v&ch&->). exists k. simpl.
    unfold retry_loc. auto.
Qed.

(** C3: a call blocked on a port that is swapped to absent is woken by the
    swap and restarts its loop on the absent port. From then on, through
    any run in which the port stays absent and its context is not
    cancelled, whatever else happens (further swaps to absent, other
    goroutines), the call is still in its loop on the absent channel: it
    has not returned, neither a value nor an error. Left to itself it
    drains, reads the absent channel and parks on it again. *)
Theorem absent_port_keeps_call_waiting p k σ i t :
  threads σ !! i = Some t →
  (∀ x, get_port p σ = Some x → is_Some (made_once x) →
        find_idx (parked_on p) (threads σ) = Some i →
        ∃ σ1 k', swap p None σ = Some σ1
                 ∧ current p σ1 = Some None
                 ∧ threads σ1 !! i = Some (wake t)
                 ∧ retrying p k' (wake t))
  ∧ (retrying p k t → current p σ = Some None → ctxs σ !! k = Some None →
     ∀ σ', runs_absent zero p k σ σ' →
           ∃ t', threads σ' !! i = Some t' ∧ retrying p k t')
  ∧ (current p σ = Some None → ctxs σ !! k = Some None →
     token_ready p σ = false →
     (∀ a, p = PIn a → t = Recv a k Drain →
        exec zero [Step i BNone; Step i BNone; Step i BNone] σ
        = Some (set_threads (<[i:=Recv a k (Park None)]> (threads σ)) σ))
     ∧ (∀ a v, p = POut a → t = Send a k v Drain →
        exec zero [Step i BNone; Step i BNone; Step i BNone] σ
        = Some (set_threads (<[i:=Send a k v (Park None)]> (threads σ)) σ))).
Proof.
  intros Ht. split; [|split].
  - intros x Hx Hmade Hfind.
    destruct (swap_spec p None σ x Hx)
      as (σ1&x1&Hsw&Hx1&Hd1&_&_&_&_&_&_&_&_&Hwake).
    destruct (find_idx_Some _ _ _ Hfind) as (t0&Ht0&Hp). simplify_eq.
    destruct (parked_wake_retrying p t Hp) as [k' Hk'].
    exists σ1, k'. repeat split; [done| | |done].
    + unfold current. by rewrite Hx1, <-Hd1.
    + by rewrite (Hwake i Hmade Hfind), list_lookup_alter_eq, Ht.
  - intros Hr Hcur Hctx σ' Hrun. by eapply runs_absent_retrying.
  - intros Hcur Hctx Htok. split.
    + intros a -> ->. by apply Recv_blocks_on_absent.
    + intros a v -> ->. by apply Send_blocks_on_absent.
Qed.
End Facts.

(** ** [Network.Run] *)

Section NetFacts.
Context {C : Type}.
Implicit Types (s : Net.run_state (C:=C)) (ts : list (Net.task (C:=C)))
  (cs : list C).

Lemma reported_app (evs1 evs2 : list Net.event) :
  Net.reported (evs1 ++ evs2) = Net.reported evs1 ++ Net.reported evs2.
Proof.
  induction evs1 as [|[|j [e|]|] evs1 IH]; simpl; by rewrite ?IH.
Qed.

Lemma unfinished_app ts ts' :
  Net.unfinished (ts ++ ts') = Net.unfinished ts + Net.unfinished ts'.
Proof.
  induction ts as [|t ts IH]; simpl; [done|]. destruct (Net.fin t); lia.
Qed.

Lemma unfinished_finish ts j t :
  ts !! j = Some t → Net.fin t = false →
  S (Net.unfinished (<[j:=Net.MkTask (Net.comp t) (Net.arg t) true]> ts))
  = Net.unfinished ts.
Proof.
  revert j. induction ts as [|t0 ts IH]; intros [|j] Hj Hf; simplify_eq/=.
  - by rewrite Hf.
  - destruct (Net.fin t0); rewrite <-(IH j); auto.
Qed.

Lemma unfinished_zero ctx ts :
  Forall (λ t, Net.arg t = ctx) ts → Net.unfinished ts = 0 →
  ts = (λ c, Net.MkTask c ctx true) <$> (Net.comp <$> ts).
Proof.
  induction 1 as [|[c a [|]] ts Ha _ IH]; simpl; intros Hz; try done.
  simpl in Ha. subst a. f_equal. by apply IH.
Qed.

Lemma comp_finish ts j t :
  ts !! j = Some t →
  Net.comp <$> <[j:=Net.MkTask (Net.comp t) (Net.arg t) true]> ts = Net.comp <$> ts.
Proof.
  intros Hj. rewrite list_fmap_insert. simpl. apply list_insert_id.
  by rewrite list_lookup_fmap, Hj.
Qed.

Lemma run_step_inv ctx cs evs ev s s' :
  Net.run_step ctx ev s = Some s' →
  Net.run_inv ctx cs evs s → Net.run_inv ctx cs (evs ++ [ev]) s'.
Proof.
  intros Hs (Hcs&Harg&Hwg&Herr&Honce&Hret). unfold Net.run_step in Hs.
  revert Hcs. destruct ev as [|j r|]; intros Hcs.
  - revert Hcs.
    destruct (Net.pc s) as [[|c rest]|] eqn:Hpc; simplify_eq/=; intros Hcs.
    unfold Net.to_start in Hcs. rewrite Hpc in Hcs.
    split; [|split; [|split; [|split; [|split]]]]; simpl.
    + unfold Net.to_start. simpl. by rewrite fmap_app, <-app_assoc.
    + apply Forall_app. split; [done|]. by repeat constructor.
    + rewrite unfinished_app. simpl. lia.
    + by rewrite reported_app, app_nil_r.
    + done.
    + done.
  - revert Hcs. destruct (Net.tasks s !! j) as [t|] eqn:Hj; simplify_eq/=.
    destruct (Net.fin t) eqn:Hf; simplify_eq/=; intros Hcs.
    pose proof (unfinished_finish _ _ _ Hj Hf) as Hun.
    assert (∀ r0, Net.pc s ≠ Net.Returned r0) as Hpc.
    { intros r0 Hr0. destruct (Hret r0 Hr0) as [_ Hz]. lia. }
    split; [|split; [|split; [|split; [|split]]]]; simpl.
    + unfold Net.to_start in *. simpl. by rewrite comp_finish.
    + apply Forall_insert; [done|]. simpl.
      by eapply (Forall_lookup_1 _ _ _ _ Harg Hj).
    + destruct r as [e|]; simpl; [destruct (Net.errOnce (Net.group s))|];
        simpl; lia.
    + rewrite reported_app. destruct r as [e|]; simpl.
      * destruct (Net.errOnce (Net.group s)) eqn:Ho; simpl.
        -- destruct (proj1 Honce eq_refl) as [e0 He0]. rewrite Herr in He0.
           rewrite Herr. by destruct (Net.reported evs).
        -- destruct (Net.reported evs) eqn:Hrep; [done|].
           assert (is_Some (Net.err (Net.group s))) as Hs
             by (rewrite Herr; by eexists).
           by apply Honce in Hs.
      * by rewrite app_nil_r.
    + destruct r as [e|]; simpl; [destruct (Net.errOnce (Net.group s)) eqn:Ho|];
        simpl; try done.
    + intros r0 Hr0. by destruct (Hpc r0).
  - revert Hcs. destruct (Net.pc s) as [[|c rest]|] eqn:Hpc; simplify_eq/=.
    unfold Net.Wait in Hs. case_decide as Hz; simplify_eq/=; intros Hcs.
    split; [|split; [|split; [|split; [|split]]]]; simpl.
    + unfold Net.to_start in *. simpl. by rewrite Hpc in Hcs.
    + done.
    + done.
    + by rewrite reported_app, app_nil_r.
    + done.
    + intros r [= <-]. rewrite reported_app, app_nil_r. split; [done|lia].
Qed.

Lemma run_inv_start ctx cs : Net.run_inv ctx cs [] (Net.start cs).
Proof.
  repeat split; simpl; try done.
Qed.

Lemma run_inv_run ctx cs pre evs s s' :
  Net.run ctx evs s = Some s' →
  Net.run_inv ctx cs pre s → Net.run_inv ctx cs (pre ++ evs) s'.
Proof.
  revert pre s. induction evs as [|ev evs IH]; intros pre s Hrun Hinv; simpl in Hrun.
  { simplify_eq. by rewrite app_nil_r. }
  destruct (Net.run_step ctx ev s) as [s1|] eqn:Hs; simplify_eq/=.
  replace (pre ++ ev :: evs) with ((pre ++ [ev]) ++ evs)
    by (by rewrite <-app_assoc).
  apply (IH _ s1 Hrun). by eapply run_step_inv.
Qed.

(** C7: [Network.Run(ctx)] starts one task per component and hands each of
    them [ctx] itself. When it returns, every task it started has
    returned, and its result is the first non-nil error a task reported,
    or nil if there was none. While a task is running or a component is
    still to be started, [g.Wait()] does not return. A running task can
    return whatever its siblings returned, and its return changes no other
    task. *)
Theorem Run_waits_and_returns_first_error (net : Net.Network (C:=C)) ctx evs s :
  Net.Run net ctx evs = Some s →
  (∀ r, Net.pc s = Net.Returned r →
        Net.tasks s = (λ c, Net.MkTask c ctx true) <$> Net.components net
        ∧ r = head (Net.reported evs))
  ∧ (0 < Net.unfinished (Net.tasks s) ∨ Net.to_start s ≠ [] →
     Net.run_step ctx Net.Join s = None)
  ∧ Forall (λ t, Net.arg t = ctx) (Net.tasks s)
  ∧ (∀ j t r, Net.tasks s !! j = Some t → Net.fin t = false →
       ∃ s', Net.run_step ctx (Net.Finish j r) s = Some s'
             ∧ ∀ j', j' ≠ j → Net.tasks s' !! j' = Net.tasks s !! j').
Proof.
  unfold Net.Run. intros Hrun.
  pose proof (run_inv_run ctx _ [] evs _ _ Hrun
                (run_inv_start ctx (Net.components net)))
    as (Hcs&Harg&Hwg&Herr&Honce&Hret).
  simpl in *. split; [|split; [|split]].
  - intros r Hr. destruct (Hret r Hr) as [-> Hz]. split; [|done].
    unfold Net.to_start in Hcs. rewrite Hr, app_nil_r in Hcs. rewrite Hcs.
    by apply unfinished_zero.
  - intros Hbusy. unfold Net.run_step, Net.to_start, Net.Wait in *.
    destruct (Net.pc s) as [[|c rest]|]; try done.
    destruct Hbusy as [Hpos|?]; [|done].
    case_decide; [lia|done].
  - done.
  - intros j t r Hj Hf. unfold Net.run_step. rewrite Hj. simpl. rewrite Hf.
    eexists. split; [done|]. simpl. intros j' Hne.
    by apply list_lookup_insert_ne.
Qed.
End NetFacts.

(** ** The lost wake-up *)

(** C1 (the code does not have it): the receiver reads [in.current()],
    still [nil]; [Connect] then installs channel 0 on both ports, and its
    notify finds nobody parked on [ping], which has no buffer, so the token
    is dropped; the receiver then parks on the [nil] channel it read. The
    sender parks on channel 0, the current channel of both ports, and no
    goroutine can run any more: the swap is lost, and the value waiting on
    the latest channel is never received. *)
Theorem swap_before_parking_is_lost :
  exec 0 race_schedule race_start = Some race_end
  ∧ exec 0 (take 4 race_schedule) race_start
    = Some (Config [absent_port] [zero_port] [] [None]
              [Recv 0 0 (Poll None); Ctl [IConnect 0 0]; Send 0 0 7 Entry])
  ∧ current (PIn 0) race_end = Some (Some 0)
  ∧ current (POut 0) race_end = Some (Some 0)
  ∧ threads race_end !! 0 = Some (Recv 0 0 (Park None))
  ∧ threads race_end !! 2 = Some (Send 0 0 7 (Park (Some 0)))
  ∧ ∀ i b, step 0 (Step i b) race_end = None.
Proof.
  repeat split; try reflexivity.
  intros [|[|[|i]]] b; reflexivity.
Qed.

(** With the [Recv] parked before the swap, the same [Connect] wakes it and
    the value is delivered: the loss above is due to the order alone. *)
Example swap_after_parking_is_seen :
  exec 0 ([Step 0 BNone; Step 0 BNone; Step 0 BNone; Step 0 BNone; Step 0 BNone]
          ++ replicate 7 (Step 1 BNone)
          ++ [Step 0 BNone; Step 0 BNone; Step 0 BNone]
          ++ replicate 4 (Step 2 BNone) ++ [Step 2 BData]) race_start
  = Some (Config [bound_port] [bound_port] [DChan 0 false] [None]
            [RecvRet 7 None; Ctl []; SendRet None]).
Proof. reflexivity. Qed.

(** A [Disconnect] wakes a parked [Recv], which parks again on [nil]. *)
Example Disconnect_leaves_Recv_parked :
  exec 0 (replicate 6 (Step 1 BNone) ++ replicate 3 (Step 0 BNone))
    (Config [bound_port] [bound_port] [DChan 0 false] [None]
       [Recv 0 0 (Park (Some 0)); Ctl (Disconnect_code (MkConn 0 0))])
  = Some (Config [absent_port] [absent_port] [DChan 0 false] [None]
            [Recv 0 0 (Park None); Ctl []]).
Proof. reflexivity. Qed.

(** ** Instances *)

Lemma stall_run : runs_absent 0 (PIn 0) 0 stall_start stall_end.
Proof. by apply (exec_absent_runs 0 _ _ stall_schedule). Qed.

Lemma absent_port_keeps_call_waiting_witness :
  threads stall_start !! 0 = Some (Recv 0 0 Drain)
  ∧ (∃ t', threads stall_end !! 0 = Some t' ∧ retrying (PIn 0) 0 t')
  ∧ exec 0 [Step 0 BNone; Step 0 BNone; Step 0 BNone] stall_start
    = Some (set_threads (<[0:=Recv 0 0 (Park None)]> (threads stall_start))
              stall_start).
Proof.
  assert (retrying (PIn 0) 0 (@Recv nat 0 0 Drain)) as Hretry.
  { simpl. unfold retry_loc. auto. }
  split; [reflexivity|]. split.
  - exact (proj1 (proj2 (absent_port_keeps_call_waiting 0 (PIn 0) 0
                    stall_start 0 (Recv 0 0 Drain) eq_refl))
             Hretry eq_refl eq_refl stall_end stall_run).
  - exact (proj1 (proj2 (proj2 (absent_port_keeps_call_waiting 0 (PIn 0) 0
                    stall_start 0 (Recv 0 0 Drain) eq_refl))
                    eq_refl eq_refl eq_refl) 0 eq_refl eq_refl).
Defined.

(** C4 (fails as stated): [c1.Disconnect()] called a second time, after
    another [Connect] has bound the [Out] port again, unbinds that port
    once more: it takes effect on every call, not once. *)
Lemma Disconnect_again_unbinds :
  ∃ σ1 σ2,
    Connect 0 0 wiring_start = Some (MkConn 0 0, σ1)
    ∧ Disconnect (MkConn 0 0) σ1 = Some σ2
    ∧ Connect 0 1 σ2 = Some (MkConn 0 1, rewired)
    ∧ current (POut 0) rewired = Some (Some 1)
    ∧ Disconnect (MkConn 0 0) rewired = Some rewired_cut
    ∧ current (POut 0) rewired_cut = Some None
    ∧ current (PIn 1) rewired_cut = Some (Some 1)
    ∧ rewired_cut ≠ rewired.
Proof.
  eexists _, _. repeat split; try reflexivity. discriminate.
Qed.

Lemma Connect_installs_fresh_channel_witness :
  outs wiring_start !! 0 = Some zero_port
  ∧ ins wiring_start !! 1 = Some zero_port
  ∧ ∃ σ', Connect 0 1 wiring_start = Some (MkConn 0 1, σ')
          ∧ chans wiring_start !! length (chans wiring_start) = None
          ∧ chans σ' = chans wiring_start ++ [DChan 0 false]
          ∧ current (POut 0) σ' = Some (Some (length (chans wiring_start)))
          ∧ current (PIn 1) σ' = Some (Some (length (chans wiring_start))).
Proof.
  split; [reflexivity|]. split; [reflexivity|].
  exact (Connect_installs_fresh_channel 0 1 wiring_start zero_port zero_port
           eq_refl eq_refl).
Defined.

Lemma swap_installs_and_never_blocks_witness :
  get_port (PIn 0) parked_start = Some bound_port
  ∧ ∃ σ' x', swap (PIn 0) None parked_start = Some σ'
     ∧ get_port (PIn 0) σ' = Some x' ∧ data x' = None ∧ create x' = true
     ∧ pcap <$> ping x' = pcap <$> made_once bound_port
     ∧ (∀ c, made_once bound_port = Some c → pcap c = 0 → ping x' = Some c)
     ∧ (threads σ' = threads parked_start
        ∨ ∃ j t, threads parked_start !! j = Some t
                 ∧ parked_on (PIn 0) t = true
                 ∧ threads σ' = <[j:=wake t]> (threads parked_start))
     ∧ (find_idx (parked_on (PIn 0)) (threads parked_start) = None →
        threads σ' = threads parked_start).
Proof.
  split; [reflexivity|].
  exact (proj1 (swap_installs_and_never_blocks 0 (PIn 0) None parked_start
                  bound_port eq_refl)).
Defined.

Lemma Run_waits_and_returns_first_error_witness :
  Net.Run two_components 5 two_failures = Some two_failures_end
  ∧ Net.tasks two_failures_end
    = (λ c, Net.MkTask c 5 true) <$> Net.components two_components
  ∧ Some (Failed 1) = head (Net.reported two_failures).
Proof.
  split; [reflexivity|].
  exact (proj1 (Run_waits_and_returns_first_error two_components 5 two_failures
                  two_failures_end eq_refl) (Some (Failed 1)) eq_refl).
Defined.

Lemma Recv_error_carries_zero_witness :
  threads cancelled_start !! 0 = Some (Recv 0 0 Entry)
  ∧ exec 0 [Step 0 BNone] cancelled_start
    = Some (set_threads (<[0:=RecvRet 0 (Some Canceled)]> (threads cancelled_start))
              cancelled_start)
  ∧ 0 = 0.
Proof.
  split; [reflexivity|]. split; [reflexivity|].
  exact (Recv_error_carries_zero 0 [Step 0 BNone] cancelled_start _ 0 0 0 Entry
           0 Canceled eq_refl eq_refl eq_refl).
Defined.

Lemma data_channels_never_closed_witness :
  exec 0 race_schedule race_start = Some race_end
  ∧ ∀ c, is_closed c race_end = is_closed c race_start.
Proof.
  split; [reflexivity|].
  exact (proj1 (data_channels_never_closed 0 race_schedule race_start race_end
                  eq_refl)).
Defined.

Lemma cancelled_before_call_returns_witness :
  ctxs cancelled_start !! 0 = Some (Some Canceled)
  ∧ step 0 (Step 0 BData) cancelled_start
    = Some (set_threads (<[0:=RecvRet 0 (Some Canceled)]> (threads cancelled_start))
              cancelled_start)
  ∧ step 0 (Step 1 BData) cancelled_start
    = Some (set_threads (<[1:=SendRet (Some Canceled)]> (threads cancelled_start))
              cancelled_start).
Proof.
  split; [reflexivity|]. split.
  - exact (proj1 (cancelled_before_call_returns 0 0 BData cancelled_start 0 0
                    Canceled eq_refl) eq_refl).
  - exact (proj2 (cancelled_before_call_returns 0 1 BData cancelled_start 0 0
                    Canceled eq_refl) 7 eq_refl).
Defined.

(** * Further properties *)

Section MoreFacts.
Context {T : Type} (zero : T).
Implicit Types (σ : config (T:=T)) (t : thread (T:=T)).

(** Opens a successful action of a goroutine into the statement that ran. *)
Ltac thread_cases H :=
  unfold step_thread, recv_poll, send_poll in H;
  repeat (case_match; simplify_option_eq).

(** ** The wake-up channel never holds a token *)

Lemma pings_empty_set_threads ts σ :
  pings_empty (set_threads ts σ) ↔ pings_empty σ.
Proof. done. Qed.

Lemma pings_empty_get p x σ :
  pings_empty σ → get_port p σ = Some x → ping_empty x.
Proof.
  intros [Hi Ho] Hx. destruct p; simpl in Hx.
  - exact (Forall_lookup_1 _ _ _ _ Hi Hx).
  - exact (Forall_lookup_1 _ _ _ _ Ho Hx).
Qed.

Lemma pings_empty_set p x σ :
  pings_empty σ → ping_empty x → pings_empty (set_port p x σ).
Proof.
  intros [Hi Ho] Hx. destruct p; split; simpl; try done;
    by apply Forall_insert.
Qed.

Lemma init_pings_empty p σ σ' :
  init p σ = Some σ' → pings_empty σ → pings_empty σ'.
Proof.
  unfold init. destruct (get_port p σ) as [x|]; [|done]. simpl.
  destruct (create x); intros [= <-] H; [done|].
  apply pings_empty_set; [done|]. by right.
Qed.

Lemma set_data_pings_empty p d σ σ' :
  set_data p d σ = Some σ' → pings_empty σ → pings_empty σ'.
Proof.
  unfold set_data. destruct (get_port p σ) as [x|] eqn:Hx; [|done]. simpl.
  intros [= <-] H. apply pings_empty_set; [done|].
  by apply (pings_empty_get p x σ).
Qed.

Lemma token_ready_empty p σ : pings_empty σ → token_ready p σ = false.
Proof.
  intros H. unfold token_ready.
  destruct (get_port p σ) as [x|] eqn:Hx; [|done].
  by destruct (pings_empty_get p x σ H Hx) as [-> | ->].
Qed.

Lemma drain_pings_empty p σ σ' :
  drain p σ = Some σ' → pings_empty σ → σ' = σ.
Proof.
  intros Hd H. destruct (get_port p σ) as [x|] eqn:Hx.
  - rewrite token_ready_drain in Hd; [congruence|by eexists|].
    by apply token_ready_empty.
  - unfold drain in Hd. by rewrite Hx in Hd.
Qed.

Lemma notify_pings_empty p σ σ' :
  notify p σ = Some σ' → pings_empty σ → pings_empty σ'.
Proof.
  unfold notify. destruct (get_port p σ) as [x|] eqn:Hx; [|done]. simpl.
  intros Hn H. destruct (ping x) as [c|] eqn:Hc; [|by simplify_eq].
  destruct (find_idx _ _); [by simplify_eq|].
  case_decide as Hlt; [|by simplify_eq].
  destruct (pings_empty_get p x σ H Hx) as [?|?]; simplify_eq/=. lia.
Qed.

Lemma step_pings_empty act σ σ' :
  step zero act σ = Some σ' → pings_empty σ → pings_empty σ'.
Proof.
  intros Hs H. destruct act as [i b|k e]; simpl in Hs.
  - thread_cases Hs;
      repeat match goal with
        | Hd : drain _ _ = Some _ |- _ =>
            apply drain_pings_empty in Hd; [subst|done]
        | Hd : init _ _ = Some _ |- _ => apply init_pings_empty in Hd; [|done]
        | Hd : set_data _ _ _ = Some _ |- _ =>
            apply set_data_pings_empty in Hd; [|done]
        | Hd : notify _ _ = Some _ |- _ =>
            apply notify_pings_empty in Hd; [|done]
        end; done.
  - unfold cancel in Hs. destruct (ctxs σ !! k) as [[|]|]; by simplify_eq/=.
Qed.

(** X1: from ports whose [ping] holds no token (as [init()] makes it), no
    run ever puts one there: the case [<-ping] of a [select] that is being
    entered can never proceed, and the draining [select] at the head of the
    loop of [Recv] and [Send] always takes [default]. *)
Theorem ping_never_holds_a_token tr σ σ' :
  exec zero tr σ = Some σ' → pings_empty σ →
  pings_empty σ'
  ∧ (∀ p, token_ready p σ' = false)
  ∧ (∀ p, is_Some (get_port p σ') → drain p σ' = Some σ').
Proof.
  intros Hex H. assert (pings_empty σ') as H'.
  { revert σ Hex H. induction tr as [|act tr IH]; intros σ Hex H; simpl in Hex.
    - by simplify_eq.
    - destruct (step zero act σ) as [σ1|] eqn:Hs; simplify_eq/=.
      apply (IH σ1 Hex). by eapply step_pings_empty. }
  split; [done|]. split.
  - intros p. by apply token_ready_empty.
  - intros p Hp. apply token_ready_drain; [done|]. by apply token_ready_empty.
Qed.

(** ** The errors of [Recv] and [Send] *)

Lemma step_ctxs act σ σ' k e :
  step zero act σ = Some σ' →
  ctxs σ !! k = Some (Some e) → ctxs σ' !! k = Some (Some e).
Proof.
  intros Hs Hk. destruct act as [i b|k' e']; simpl in Hs.
  - thread_cases Hs;
      repeat match goal with
        | Hd : drain _ _ = Some _ |- _ => apply drain_frame in Hd as (_&Hd&_)
        | Hd : init _ _ = Some _ |- _ => apply init_frame in Hd as (_&Hd&_)
        | Hd : set_data _ _ _ = Some _ |- _ =>
            apply set_data_frame in Hd as (_&Hd&_)
        | Hd : notify _ _ = Some _ |- _ => apply notify_frame in Hd as (_&Hd&_)
        end; simpl; congruence.
  - unfold cancel in Hs. destruct (ctxs σ !! k') as [[|]|] eqn:Hk'; simplify_eq/=.
    rewrite list_lookup_insert_ne; [done|]. intros ->. congruence.
Qed.

Lemma moves_call_error act σ σ' t t' k e :
  step zero act σ = Some σ' →
  moves zero act σ σ' t t' →
  (∃ a l, t = Recv a k l) ∨ (∃ a v l, t = Send a k v l) →
  (∃ v, t' = RecvRet v (Some e)) ∨ t' = SendRet (Some e) →
  ctxs σ' !! k = Some (Some e).
Proof.
  intros Hs Hm Ht Ht'. pose proof (step_ctxs act σ σ' k e Hs) as Hmono.
  inversion Hm; subst;
    destruct Ht as [(?&?&?)|(?&?&?&?)]; simplify_eq;
    destruct Ht' as [(?&?)|?]; simplify_eq;
    try done; by apply Hmono.
Qed.

Lemma moves_from_call act σ σ' t t' :
  moves zero act σ σ' t t' →
  (∃ a k l, t = Recv a k l) ∨ (∃ a k v l, t = Send a k v l) ∨ (∃ c, t = Ctl c).
Proof. destruct 1; eauto 10. Qed.

Lemma moves_keeps_call act σ σ' t t' :
  moves zero act σ σ' t t' →
  (∀ a k l, t = Recv a k l →
     (∃ l', t' = Recv a k l') ∨ ∃ v r, t' = RecvRet v r)
  ∧ (∀ a k v l, t = Send a k v l →
     (∃ l', t' = Send a k v l') ∨ (∃ r, t' = SendRet r) ∨ t' = SendPanic).
Proof. destruct 1; split; intros; simplify_eq; eauto 10. Qed.

Lemma exec_call_error tr σ σ' i t k :
  exec zero tr σ = Some σ' →
  threads σ !! i = Some t →
  (∃ a l, t = Recv a k l) ∨ (∃ a v l, t = Send a k v l) →
  ∃ t', threads σ' !! i = Some t'
        ∧ ((∃ a l, t' = Recv a k l) ∨ (∃ a v l, t' = Send a k v l)
           ∨ (∃ v, t' = RecvRet v None) ∨ t' = SendRet None ∨ t' = SendPanic
           ∨ ∃ e, ((∃ v, t' = RecvRet v (Some e)) ∨ t' = SendRet (Some e))
                  ∧ ctxs σ' !! k = Some (Some e)).
Proof.
  revert σ t. induction tr as [|act tr IH]; intros σ t Hex Ht Hcall; simpl in Hex.
  { simplify_eq. exists t. split; [done|]. destruct Hcall; auto. }
  destruct (step zero act σ) as [σ1|] eqn:Hs; simplify_eq/=.
  destruct (step_lookup_forward zero _ _ _ _ _ Hs Ht) as [t1 Ht1].
  destruct (step_moves zero _ _ _ _ _ _ Hs Ht Ht1) as [->|Hm].
  { by apply (IH σ1 t). }
  assert (∀ t2, threads σ1 !! i = Some t2 →
            (∀ act' σ2 σ3 t3, ¬ moves zero act' σ2 σ3 t2 t3) →
            (∀ e, ((∃ v, t2 = RecvRet v (Some e)) ∨ t2 = SendRet (Some e)) →
                  ctxs σ1 !! k = Some (Some e)) →
            ∃ t', threads σ' !! i = Some t' ∧ t' = t2
                  ∧ ∀ e, ((∃ v, t2 = RecvRet v (Some e)) ∨ t2 = SendRet (Some e)) →
                         ctxs σ' !! k = Some (Some e)) as Hfinal.
  { clear -Hex. revert σ1 Hex. induction tr as [|act' tr IH'];
      intros σ1 Hex t2 Ht2 Hstuck Hk; simpl in Hex.
    { simplify_eq. eauto. }
    destruct (step zero act' σ1) as [σ2|] eqn:Hs'; simplify_eq/=.
    destruct (step_lookup_forward zero _ _ _ _ _ Hs' Ht2) as [t3 Ht3].
    destruct (step_moves zero _ _ _ _ _ _ Hs' Ht2 Ht3) as [->|Hm'].
    - apply (IH' σ2 Hex t2 Ht3 Hstuck). intros e He.
      eapply step_ctxs; [done|]. by apply Hk.
    - by destruct (Hstuck _ _ _ _ Hm'). }
  destruct (moves_keeps_call _ _ _ _ _ Hm) as [Hr Hsd].
  destruct Hcall as [(a&l&->)|(a&v&l&->)].
  - destruct (Hr a k l eq_refl) as [(l'&->)|(v&r&->)].
    { apply (IH σ1 _ Hex Ht1). eauto. }
    destruct (Hfinal _ Ht1) as (t'&Ht'&->&Hk').
    + intros ???? Hm'. by destruct (moves_from_call _ _ _ _ _ Hm')
        as [(?&?&?&?)|[(?&?&?&?&?)|(?&?)]].
    + intros e He. eapply moves_call_error; [done|done|eauto|done].
    + exists (RecvRet v r). split; [done|]. destruct r as [e|]; [|eauto 10].
      do 5 right. exists e. split; [eauto|]. apply Hk'. eauto.
  - destruct (Hsd a k v l eq_refl) as [(l'&->)|[(r&->)| ->]].
    { apply (IH σ1 _ Hex Ht1). eauto 10. }
    + destruct (Hfinal _ Ht1) as (t'&Ht'&->&Hk').
      * intros ???? Hm'. by destruct (moves_from_call _ _ _ _ _ Hm')
          as [(?&?&?&?)|[(?&?&?&?&?)|(?&?)]].
      * intros e He. eapply moves_call_error; [done|done|eauto 10|done].
      * exists (SendRet r). split; [done|]. destruct r as [e|]; [|eauto 10].
        do 5 right. exists e. split; [eauto|]. apply Hk'. eauto.
    + destruct (Hfinal _ Ht1) as (t'&Ht'&->&Hk').
      * intros ???? Hm'. by destruct (moves_from_call _ _ _ _ _ Hm')
          as [(?&?&?&?)|[(?&?&?&?&?)|(?&?)]].
      * intros e [(?&?)|?]; done.
      * exists SendPanic. split; [done|]. eauto 10.
Qed.

(** X2: the only error [Recv] or [Send] ever returns is the error of its
    own context: in every run, a call that has returned a non-nil error [e]
    was made with a context that is cancelled with [e]. No swap, absent
    port or other goroutine makes a call fail. *)
Theorem call_errors_are_context_errors tr σ σ' i a k e :
  exec zero tr σ = Some σ' →
  (∀ l v, threads σ !! i = Some (Recv a k l) →
          threads σ' !! i = Some (RecvRet v (Some e)) →
          ctxs σ' !! k = Some (Some e))
  ∧ (∀ l v, threads σ !! i = Some (Send a k v l) →
            threads σ' !! i = Some (SendRet (Some e)) →
            ctxs σ' !! k = Some (Some e)).
Proof.
  intros Hex. split.
  - intros l v Hi Hi'.
    destruct (exec_call_error _ _ _ i _ k Hex Hi) as (t'&Ht'&Hc); [eauto|].
    simplify_eq.
    destruct Hc as [(?&?&?)|[(?&?&?&?)|[(?&?)|[?|[?|(e'&He'&Hk)]]]]];
      simplify_eq.
    by destruct He' as [(?&?)|?]; simplify_eq.
  - intros l v Hi Hi'.
    destruct (exec_call_error _ _ _ i _ k Hex Hi) as (t'&Ht'&Hc); [eauto 10|].
    simplify_eq.
    destruct Hc as [(?&?&?)|[(?&?&?&?)|[(?&?)|[?|[?|(e'&He'&Hk)]]]]];
      simplify_eq.
    by destruct He' as [(?&?)|?]; simplify_eq.
Qed.

Lemma moves_to_panic act σ σ' t :
  moves zero act σ σ' t SendPanic → ∃ c, is_closed c σ = true.
Proof. inversion 1; eauto. Qed.

(** X3: a call of [Send] never panics: no channel is ever closed, so the
    send on the current channel is never a send on a closed channel. *)
Theorem Send_never_panics tr σ σ' i a k v l :
  exec zero tr σ = Some σ' →
  (∀ c, is_closed c σ = false) →
  threads σ !! i = Some (Send a k v l) →
  threads σ' !! i ≠ Some SendPanic.
Proof.
  intros Hex Hopen Hi.
  assert (∃ t, threads σ !! i = Some t ∧ t ≠ SendPanic) as Hinv by eauto.
  clear Hi. revert σ Hex Hopen Hinv.
  induction tr as [|act tr IH]; intros σ Hex Hopen (t&Ht&Hne); simpl in Hex.
  { simplify_eq. congruence. }
  destruct (step zero act σ) as [σ1|] eqn:Hs; simplify_eq/=.
  apply (IH σ1 Hex).
  - intros c. by rewrite (step_is_closed zero _ _ _ c Hs).
  - destruct (step_lookup_forward zero _ _ _ _ _ Hs Ht) as [t1 Ht1].
    exists t1. split; [done|]. intros ->.
    destruct (step_moves zero _ _ _ _ _ _ Hs Ht Ht1) as [?|Hm]; [done|].
    apply moves_to_panic in Hm as [c Hc]. by rewrite Hopen in Hc.
Qed.

(** ** Wiring by [Connect] and [Disconnect] *)

Lemma swap_inv p d σ σ' :
  swap p d σ = Some σ' →
  ∃ x x', get_port p σ = Some x ∧ get_port p σ' = Some x' ∧ data x' = d
          ∧ (∀ q, q ≠ p → get_port q σ' = get_port q σ)
          ∧ chans σ' = chans σ.
Proof.
  intros Hs. destruct (get_port p σ) as [x|] eqn:Hx.
  - destruct (swap_spec p d σ x Hx) as (σ1&x'&Hs'&?&?&_&_&_&?&?&_).
    simplify_eq. eauto 10.
  - unfold swap, init in Hs. by rewrite Hx in Hs.
Qed.

Lemma get_port_make_chan q σ : get_port q (make_chan σ).2 = get_port q σ.
Proof. by destruct q. Qed.

Lemma Connect_inv o n σ conn σ' :
  Connect o n σ = Some (conn, σ') →
  conn = MkConn o n
  ∧ chans σ' = chans σ ++ [DChan 0 false]
  ∧ (∃ x, get_port (POut o) σ' = Some x ∧ data x = Some (length (chans σ)))
  ∧ (∃ y, get_port (PIn n) σ' = Some y ∧ data y = Some (length (chans σ)))
  ∧ (∀ q, q ≠ POut o → q ≠ PIn n → get_port q σ' = get_port q σ)
  ∧ (∀ q, is_Some (get_port q σ') ↔ is_Some (get_port q σ)).
Proof.
  unfold Connect. intros H.
  destruct (make_chan σ) as [d σ0] eqn:H0.
  assert (d = length (chans σ) ∧ chans σ0 = chans σ ++ [DChan 0 false]
          ∧ ∀ q, get_port q σ0 = get_port q σ) as (->&Hc0&Hq0).
  { unfold make_chan in H0. simplify_eq. repeat split; by try intros []. }
  cbn [from to] in H.
  destruct (swap (POut o) _ σ0) as [σ1|] eqn:H1; simpl in H; [|done].
  destruct (swap (PIn n) _ σ1) as [σ2|] eqn:H2; simpl in H; [|done].
  injection H as <- <-.
  apply swap_inv in H1 as (x1&x1'&Hx1&Hx1'&Hd1&Hq1&Hc1).
  apply swap_inv in H2 as (x2&x2'&Hx2&Hx2'&Hd2&Hq2&Hc2).
  split; [done|]. split; [by rewrite Hc2, Hc1|].
  split; [exists x1'; by rewrite Hq2|]. split; [by exists x2'|]. split.
  - intros q Ho Hn. by rewrite Hq2, Hq1.
  - intros q. rewrite <-Hq0. destruct (decide (q = PIn n)) as [->|Hn].
    { rewrite Hx2'. rewrite Hq1 in Hx2 by done. rewrite Hx2.
      split; by eexists. }
    rewrite Hq2 by done. destruct (decide (q = POut o)) as [->|Ho].
    { rewrite Hx1', Hx1. split; by eexists. }
    by rewrite Hq1.
Qed.

Lemma Disconnect_inv conn σ σ' :
  Disconnect conn σ = Some σ' →
  chans σ' = chans σ
  ∧ (∃ x, get_port (POut (from conn)) σ' = Some x ∧ data x = None)
  ∧ (∃ y, get_port (PIn (to conn)) σ' = Some y ∧ data y = None)
  ∧ (∀ q, q ≠ POut (from conn) → q ≠ PIn (to conn) →
          get_port q σ' = get_port q σ).
Proof.
  unfold Disconnect. intros H.
  destruct (swap (POut (from conn)) _ _) as [σ1|] eqn:H1; simpl in H; [|done].
  apply swap_inv in H1 as (x1&x1'&Hx1&Hx1'&Hd1&Hq1&Hc1).
  apply swap_inv in H as (x2&x2'&Hx2&Hx2'&Hd2&Hq2&Hc2).
  split; [by rewrite Hc2, Hc1|].
  split; [exists x1'; by rewrite Hq2|]. split; [by exists x2'|].
  intros q Ho Hn. by rewrite Hq2, Hq1.
Qed.

Lemma rewire_wired w σ σ' :
  rewire w σ = Some σ' →
  bound_in_range σ → exclusive σ →
  bound_in_range σ' ∧ exclusive σ'.
Proof.
  intros Hw Hb He. destruct w as [o n|conn]; simpl in Hw.
  - destruct (Connect o n σ) as [[conn σ1]|] eqn:Hc; simplify_eq/=.
    apply Connect_inv in Hc as (_&Hch&(x&Hx&Hdx)&(y&Hy&Hdy)&Hq&_).
    assert (∀ q z c, get_port q σ' = Some z → data z = Some c →
              (c = length (chans σ) ∧ (q = POut o ∨ q = PIn n))
              ∨ (c < length (chans σ) ∧ q ≠ POut o ∧ q ≠ PIn n
                 ∧ get_port q σ = Some z)) as Hcase.
    { intros q z c Hz Hdz.
      destruct (decide (q = POut o)) as [->|Ho]; [left; split; [congruence|auto]|].
      destruct (decide (q = PIn n)) as [->|Hn]; [left; split; [congruence|auto]|].
      right. rewrite Hq in Hz by done. split; [by eapply Hb|done]. }
    split.
    + intros q z c Hz Hdz. rewrite Hch, length_app. simpl.
      destruct (Hcase q z c Hz Hdz) as [[-> _]|[? _]]; lia.
    + intros p q z1 z2 c Hside Hz1 Hz2 Hd1 Hd2.
      destruct (Hcase p z1 c Hz1 Hd1) as [[-> Hp]|(Hlt&?&?&Hz1')];
        destruct (Hcase q z2 _ Hz2 Hd2) as [[Hc Hq']|(Hlt'&?&?&Hz2')];
        try lia.
      * destruct Hp as [-> | ->], Hq' as [-> | ->]; done.
      * by eapply He.
  - apply Disconnect_inv in Hw as (Hch&(x&Hx&Hdx)&(y&Hy&Hdy)&Hq).
    assert (∀ q z c, get_port q σ' = Some z → data z = Some c →
              q ≠ POut (from conn) ∧ q ≠ PIn (to conn)
              ∧ get_port q σ = Some z) as Hcase.
    { intros q z c Hz Hdz.
      destruct (decide (q = POut (from conn))) as [->|Ho]; [congruence|].
      destruct (decide (q = PIn (to conn))) as [->|Hn]; [congruence|].
      by rewrite Hq in Hz. }
    split.
    + intros q z c Hz Hdz. rewrite Hch.
      destruct (Hcase q z c Hz Hdz) as (_&_&Hz'). by eapply Hb.
    + intros p q z1 z2 c Hside Hz1 Hz2 Hd1 Hd2.
      destruct (Hcase p z1 c Hz1 Hd1) as (_&_&Hz1').
      destruct (Hcase q z2 c Hz2 Hd2) as (_&_&Hz2'). by eapply He.
Qed.

(** X4: however [Connect] and [Disconnect] are called one after the other,
    no channel is ever current on two [In] ports or on two [Out] ports:
    each channel joins at most one sender side and one receiver side. *)
Theorem wiring_is_exclusive ws σ σ' :
  rewires ws σ = Some σ' →
  bound_in_range σ → exclusive σ →
  bound_in_range σ' ∧ exclusive σ'.
Proof.
  revert σ. induction ws as [|w ws IH]; intros σ Hw Hb He; simpl in Hw.
  { by simplify_eq. }
  destruct (rewire w σ) as [σ1|] eqn:H1; simplify_eq/=.
  destruct (rewire_wired _ _ _ H1 Hb He). by apply (IH σ1).
Qed.

(** X5: [Connect] on a port that is already connected does not touch the
    port at the other end of the old connection: after [Connect(out, in2)]
    the [In] port [in1] that was connected to [out] still has the old
    channel as current, which is no longer the channel of [out]; likewise
    for an [Out] port whose [In] port is connected anew. The old partner is
    left bound to a channel nobody else holds unless it is disconnected. *)
Theorem Connect_leaves_old_partner_bound o n σ conn σ' :
  Connect o n σ = Some (conn, σ') →
  bound_in_range σ →
  (∀ n1 c1, n1 ≠ n → current (PIn n1) σ = Some (Some c1) →
     current (PIn n1) σ' = Some (Some c1)
     ∧ current (POut o) σ' ≠ Some (Some c1))
  ∧ (∀ o1 c1, o1 ≠ o → current (POut o1) σ = Some (Some c1) →
       current (POut o1) σ' = Some (Some c1)
       ∧ current (PIn n) σ' ≠ Some (Some c1)).
Proof.
  intros Hc Hb.
  apply Connect_inv in Hc as (_&Hch&(x&Hx&Hdx)&(y&Hy&Hdy)&Hq&_).
  unfold current. split.
  - intros n1 c1 Hne H1. rewrite Hq by congruence. split; [done|].
    rewrite Hx. simpl. rewrite Hdx. intros [= <-].
    destruct (get_port (PIn n1) σ) as [z|] eqn:Hz; simplify_eq/=.
    match goal with
    | H : data z = Some _ |- _ => pose proof (Hb (PIn n1) z _ Hz H)
    end. lia.
  - intros o1 c1 Hne H1. rewrite Hq by congruence. split; [done|].
    rewrite Hy. simpl. rewrite Hdy. intros [= <-].
    destruct (get_port (POut o1) σ) as [z|] eqn:Hz; simplify_eq/=.
    match goal with
    | H : data z = Some _ |- _ => pose proof (Hb (POut o1) z _ Hz H)
    end. lia.
Qed.

(** ** A value handed over *)

Lemma find_idx_insert_same {A} (f : A → bool) (l : list A) j x y :
  l !! j = Some x → f x = f y → find_idx f (<[j:=y]> l) = find_idx f l.
Proof.
  revert j. induction l as [|z l IH]; intros [|j] Hj Hf; simplify_eq/=.
  - by rewrite Hf.
  - by rewrite (IH j).
Qed.

Lemma init_set_threads p ts σ :
  init p (set_threads ts σ) = set_threads ts <$> init p σ.
Proof.
  unfold init. rewrite get_port_set_threads.
  destruct (get_port p σ) as [x|]; [|done]. simpl.
  by destruct (create x), p.
Qed.

Lemma init_token_free p σ σ1 x :
  get_port p σ = Some x → ping_empty x → init p σ = Some σ1 →
  token_ready p σ1 = false ∧ current p σ1 = Some (data x)
  ∧ threads σ1 = threads σ ∧ ctxs σ1 = ctxs σ ∧ chans σ1 = chans σ.
Proof.
  intros Hx Hp Hi.
  destruct (init_spec p σ x Hx) as (σ2&Hi2&Hx2&_&?&?&?). simplify_eq.
  unfold token_ready, current. rewrite Hx2. simpl.
  repeat split; try done.
  unfold made_once. destruct (create x); [|done].
  by destruct Hp as [-> | ->].
Qed.

Lemma step_entry_Send j b a k v σ :
  threads σ !! j = Some (Send a k v Entry) → ctxs σ !! k = Some None →
  step zero (Step j b) σ
  = Some (set_threads (<[j:=Send a k v Init]> (threads σ)) σ).
Proof.
  intros Hj Hk. simpl. unfold step_thread. rewrite Hj. simpl. by rewrite Hk.
Qed.

Lemma step_entry_Recv i b a k σ :
  threads σ !! i = Some (Recv a k Entry) → ctxs σ !! k = Some None →
  step zero (Step i b) σ
  = Some (set_threads (<[i:=Recv a k Init]> (threads σ)) σ).
Proof.
  intros Hi Hk. simpl. unfold step_thread. rewrite Hi. simpl. by rewrite Hk.
Qed.

Lemma step_init_Send j b a k v σ σ1 :
  threads σ !! j = Some (Send a k v Init) → init (POut a) σ = Some σ1 →
  step zero (Step j b) σ
  = Some (set_threads (<[j:=Send a k v Drain]> (threads σ1)) σ1).
Proof.
  intros Hj Hi. simpl. unfold step_thread. rewrite Hj. simpl. by rewrite Hi.
Qed.

Lemma step_init_Recv i b a k σ σ1 :
  threads σ !! i = Some (Recv a k Init) → init (PIn a) σ = Some σ1 →
  step zero (Step i b) σ
  = Some (set_threads (<[i:=Recv a k Drain]> (threads σ1)) σ1).
Proof.
  intros Hj Hi. simpl. unfold step_thread. rewrite Hj. simpl. by rewrite Hi.
Qed.

Lemma step_data_Send j a k v c i σ :
  threads σ !! j = Some (Send a k v (Poll (Some c))) →
  is_closed c σ = false →
  find_idx (recv_parked c) (threads σ) = Some i →
  step zero (Step j BData) σ
  = Some (set_threads (<[j:=SendRet None]> (<[i:=RecvRet v None]> (threads σ))) σ).
Proof.
  intros Hj Hc Hi. simpl. unfold step_thread. rewrite Hj. simpl.
  by rewrite Hc, Hi.
Qed.

Lemma step_data_Recv i a k c j a' k' v l σ :
  threads σ !! i = Some (Recv a k (Poll (Some c))) →
  is_closed c σ = false →
  find_idx (send_parked c) (threads σ) = Some j →
  threads σ !! j = Some (Send a' k' v l) →
  step zero (Step i BData) σ
  = Some (set_threads (<[i:=RecvRet v None]> (<[j:=SendRet None]> (threads σ))) σ).
Proof.
  intros Hi Hc Hj Hjt. simpl. unfold step_thread. rewrite Hi. simpl.
  rewrite Hc, Hj. simpl. by rewrite Hjt.
Qed.

(** The four statements of a call that precede the poll of its second
    [select], for a context that is live and a port without token. *)
Lemma Send_reaches_select j a k v σ x :
  threads σ !! j = Some (Send a k v Entry) → ctxs σ !! k = Some None →
  get_port (POut a) σ = Some x → ping_empty x →
  ∃ σ1, init (POut a) σ = Some σ1
        ∧ exec zero [Step j BNone; Step j BNone; Step j BNone; Step j BNone] σ
          = Some (set_threads (<[j:=Send a k v (Poll (data x))]> (threads σ)) σ1).
Proof.
  intros Hj Hk Hx Hp.
  assert (j < length (threads σ)) as Hlt by by eapply lookup_lt_Some.
  destruct (init_spec (POut a) σ x Hx) as (σ1&Hi&_).
  destruct (init_token_free _ _ _ _ Hx Hp Hi) as (Htok&Hcur&Hth&Hctx&_).
  exists σ1. split; [done|].
  rewrite exec_cons, (step_entry_Send _ _ a k v) by done.
  cbn [mbind option_bind].
  rewrite exec_cons, (step_init_Send _ _ a k v _
    (set_threads (<[j:=Send a k v Init]> (threads σ)) σ1));
    [|by apply lookup_set_threads_insert|by rewrite init_set_threads, Hi].
  cbn [mbind option_bind].
  assert (∀ t, set_threads
                 (<[j:=t]> (threads (set_threads (<[j:=Send a k v Init]> (threads σ)) σ1)))
                 (set_threads (<[j:=Send a k v Init]> (threads σ)) σ1)
               = set_threads (<[j:=t]> (threads σ1)) σ1) as Hsame.
  { intros t. unfold set_threads. simpl.
    by rewrite list_insert_insert_eq, Hth. }
  rewrite Hsame.
  assert (j < length (threads σ1)) as Hlt1 by by rewrite Hth.
  rewrite exec_cons, (step_drain_Send _ _ _ a k v);
    [|by apply lookup_set_threads_insert
     |rewrite get_port_set_threads; by eapply current_is_Some
     |by rewrite token_ready_set_threads].
  cbn [mbind option_bind]. rewrite set_threads_twice.
  rewrite exec_cons, (step_eval_Send _ _ _ a k v (data x));
    [|by apply lookup_set_threads_insert|by rewrite current_set_threads].
  cbn [mbind option_bind]. rewrite set_threads_twice. simpl.
  by rewrite Hth.
Qed.

Lemma Recv_reaches_select i a k σ x :
  threads σ !! i = Some (Recv a k Entry) → ctxs σ !! k = Some None →
  get_port (PIn a) σ = Some x → ping_empty x →
  ∃ σ1, init (PIn a) σ = Some σ1
        ∧ exec zero [Step i BNone; Step i BNone; Step i BNone; Step i BNone] σ
          = Some (set_threads (<[i:=Recv a k (Poll (data x))]> (threads σ)) σ1).
Proof.
  intros Hj Hk Hx Hp.
  assert (i < length (threads σ)) as Hlt by by eapply lookup_lt_Some.
  destruct (init_spec (PIn a) σ x Hx) as (σ1&Hi&_).
  destruct (init_token_free _ _ _ _ Hx Hp Hi) as (Htok&Hcur&Hth&Hctx&_).
  exists σ1. split; [done|].
  rewrite exec_cons, (step_entry_Recv _ _ a k) by done.
  cbn [mbind option_bind].
  rewrite exec_cons, (step_init_Recv _ _ a k _
    (set_threads (<[i:=Recv a k Init]> (threads σ)) σ1));
    [|by apply lookup_set_threads_insert|by rewrite init_set_threads, Hi].
  cbn [mbind option_bind].
  assert (∀ t, set_threads
                 (<[i:=t]> (threads (set_threads (<[i:=Recv a k Init]> (threads σ)) σ1)))
                 (set_threads (<[i:=Recv a k Init]> (threads σ)) σ1)
               = set_threads (<[i:=t]> (threads σ1)) σ1) as Hsame.
  { intros t. unfold set_threads. simpl.
    by rewrite list_insert_insert_eq, Hth. }
  rewrite Hsame.
  assert (i < length (threads σ1)) as Hlt1 by by rewrite Hth.
  rewrite exec_cons, (step_drain_Recv _ _ _ a k);
    [|by apply lookup_set_threads_insert
     |rewrite get_port_set_threads; by eapply current_is_Some
     |by rewrite token_ready_set_threads].
  cbn [mbind option_bind]. rewrite set_threads_twice.
  rewrite exec_cons, (step_eval_Recv _ _ _ a k (data x));
    [|by apply lookup_set_threads_insert|by rewrite current_set_threads].
  cbn [mbind option_bind]. rewrite set_threads_twice. simpl.
  by rewrite Hth.
Qed.

Lemma exec_app tr1 tr2 σ :
  exec zero (tr1 ++ tr2) σ = exec zero tr1 σ ≫= exec zero tr2.
Proof.
  revert σ. induction tr1 as [|act tr1 IH]; intros σ; simpl; [done|].
  destruct (step zero act σ); simpl; [apply IH|done].
Qed.

Lemma insert_over_insert {A} (l : list A) i j x y z :
  i ≠ j → <[j:=z]> (<[i:=y]> (<[j:=x]> l)) = <[j:=z]> (<[i:=y]> l).
Proof.
  intros Hne. rewrite (list_insert_insert_ne _ i j) by done.
  by rewrite list_insert_insert_eq.
Qed.

(** X6: a call that finds its partner waiting hands the value over
    unchanged. A [Send(ctx, v)] with a live context, on a port whose current
    channel has a receiver parked on it, runs straight to its [select] and
    completes there: it returns nil and the receiver returns [v] with a nil
    error. Likewise a [Recv] that finds a sender parked on the current
    channel returns that sender's value, and the sender returns nil. *)
Theorem call_meets_parked_partner σ c :
  is_closed c σ = false →
  (∀ j a k v x i,
     threads σ !! j = Some (Send a k v Entry) → ctxs σ !! k = Some None →
     get_port (POut a) σ = Some x → ping_empty x → data x = Some c →
     find_idx (recv_parked c) (threads σ) = Some i →
     ∃ σ1, init (POut a) σ = Some σ1
       ∧ exec zero (replicate 4 (Step j BNone) ++ [Step j BData]) σ
         = Some (set_threads
                   (<[j:=SendRet None]> (<[i:=RecvRet v None]> (threads σ))) σ1))
  ∧ (∀ i a k x j a' k' v,
       threads σ !! i = Some (Recv a k Entry) → ctxs σ !! k = Some None →
       get_port (PIn a) σ = Some x → ping_empty x → data x = Some c →
       find_idx (send_parked c) (threads σ) = Some j →
       threads σ !! j = Some (Send a' k' v (Park (Some c))) →
       ∃ σ1, init (PIn a) σ = Some σ1
         ∧ exec zero (replicate 4 (Step i BNone) ++ [Step i BData]) σ
           = Some (set_threads
                     (<[i:=RecvRet v None]> (<[j:=SendRet None]> (threads σ))) σ1)).
Proof.
  intros Hopen. split.
  - intros j a k v x i Hj Hk Hx Hp Hd Hi.
    destruct (Send_reaches_select j a k v σ x Hj Hk Hx Hp) as (σ1&Hinit&Hex).
    exists σ1. split; [done|]. rewrite exec_app. simpl replicate. rewrite Hex.
    cbn [mbind option_bind]. rewrite Hd.
    destruct (init_frame _ _ _ Hinit) as (Hc1&_&_).
    destruct (find_idx_Some _ _ _ Hi) as (ti&Hti&(a'&k'&->)%recv_parked_inv).
    assert (i ≠ j) by (intros ->; congruence).
    assert (j < length (threads σ)) by by eapply lookup_lt_Some.
    rewrite exec_cons, (step_data_Send _ a k v c i);
      [|simpl; by apply list_lookup_insert_eq
       |unfold is_closed in *; simpl; by rewrite Hc1
       |simpl; by erewrite find_idx_insert_same].
    simpl. unfold set_threads. simpl. by rewrite insert_over_insert.
  - intros i a k x j a' k' v Hi Hk Hx Hp Hd Hj Hjt.
    destruct (Recv_reaches_select i a k σ x Hi Hk Hx Hp) as (σ1&Hinit&Hex).
    exists σ1. split; [done|]. rewrite exec_app. simpl replicate. rewrite Hex.
    cbn [mbind option_bind]. rewrite Hd.
    destruct (init_frame _ _ _ Hinit) as (Hc1&_&_).
    assert (j ≠ i) by (intros ->; congruence).
    assert (i < length (threads σ)) by by eapply lookup_lt_Some.
    rewrite exec_cons, (step_data_Recv _ a k c j a' k' v (Park (Some c)));
      [|simpl; by apply list_lookup_insert_eq
       |unfold is_closed in *; simpl; by rewrite Hc1
       |simpl; by erewrite find_idx_insert_same
       |simpl; by rewrite list_lookup_insert_ne].
    simpl. unfold set_threads. simpl. by rewrite insert_over_insert.
Qed.

(** ** A parked call and [Connect] *)

Lemma Connect_wakes_Recv o n σ xo xi i k ch :
  outs σ !! o = Some xo → ins σ !! n = Some xi →
  create xi = true → ping xi = Some (PChan 0 0) →
  find_idx (parked_on (PIn n)) (threads σ) = Some i →
  threads σ !! i = Some (Recv n k (Park ch)) →
  ∃ σ1, Connect o n σ = Some (MkConn o n, σ1)
        ∧ threads σ1 !! i = Some (Recv n k Drain)
        ∧ exec zero [Step i BNone; Step i BNone] σ1
          = Some (set_threads
                    (<[i:=Recv n k (Poll (Some (length (chans σ))))]> (threads σ1))
                    σ1).
Proof.
  intros Ho Hn Hcr Hping Hfind Hi. unfold Connect.
  destruct (make_chan σ) as [d σ0] eqn:H0.
  assert (d = length (chans σ) ∧ threads σ0 = threads σ
          ∧ ∀ q, get_port q σ0 = get_port q σ) as (->&Hth0&Hq0).
  { unfold make_chan in H0. simplify_eq. repeat split; by try intros []. }
  cbn [from to].
  destruct (swap_spec (POut o) (Some (length (chans σ))) σ0 xo)
    as (σa&xa&->&_&_&_&_&_&Hqa&_&_&Htha&_); [by rewrite Hq0|].
  cbn [mbind option_bind].
  assert (find_idx (parked_on (PIn n)) (threads σa) = Some i
          ∧ threads σa !! i = Some (Recv n k (Park ch))) as [Hfinda Hia].
  { rewrite Hth0 in Htha. destruct Htha as [->|(j&t&Hj&Hp&->)]; [done|].
    apply parked_on_POut in Hp as (k'&v&ch'&->).
    assert (j ≠ i) by (intros ->; congruence). split.
    - by rewrite (find_idx_insert_same _ _ _ _ _ Hj).
    - by rewrite list_lookup_insert_ne. }
  assert (get_port (PIn n) σa = Some xi) as Hna.
  { rewrite Hqa by done. by rewrite Hq0. }
  destruct (swap_spec (PIn n) (Some (length (chans σ))) σa xi Hna)
    as (σ1&x1&->&Hx1&Hd1&_&_&Hp1&_&_&Hk1&_&_&Hwake).
  cbn [mbind option_bind]. exists σ1. split; [done|].
  assert (made_once xi = Some (PChan 0 0)) as Hmade.
  { unfold made_once. by rewrite Hcr. }
  assert (threads σ1 !! i = Some (Recv n k Drain)) as Hi1.
  { rewrite (Hwake i) by (by rewrite ?Hmade).
    by rewrite list_lookup_alter_eq, Hia. }
  split; [done|].
  assert (token_ready (PIn n) σ1 = false) as Htok.
  { unfold token_ready. rewrite Hx1, (Hp1 _ Hmade) by done. done. }
  assert (i < length (threads σ1)) by by eapply lookup_lt_Some.
  rewrite exec_cons, (step_drain_Recv _ _ _ n k) by (by rewrite ?Hx1).
  cbn [mbind option_bind].
  rewrite exec_cons, (step_eval_Recv _ _ _ n k (Some (length (chans σ))));
    [|by apply lookup_set_threads_insert
     |rewrite current_set_threads; unfold current; by rewrite Hx1, <-Hd1].
  cbn [mbind option_bind]. by rewrite set_threads_twice.
Qed.

Lemma Connect_wakes_Send o n σ xo xi i k v ch :
  outs σ !! o = Some xo → ins σ !! n = Some xi →
  create xo = true → ping xo = Some (PChan 0 0) →
  find_idx (parked_on (POut o)) (threads σ) = Some i →
  threads σ !! i = Some (Send o k v (Park ch)) →
  ∃ σ1, Connect o n σ = Some (MkConn o n, σ1)
        ∧ threads σ1 !! i = Some (Send o k v Drain)
        ∧ exec zero [Step i BNone; Step i BNone] σ1
          = Some (set_threads
                    (<[i:=Send o k v (Poll (Some (length (chans σ))))]> (threads σ1))
                    σ1).
Proof.
  intros Ho Hn Hcr Hping Hfind Hi. unfold Connect.
  destruct (make_chan σ) as [d σ0] eqn:H0.
  assert (d = length (chans σ) ∧ threads σ0 = threads σ
          ∧ ∀ q, get_port q σ0 = get_port q σ) as (->&Hth0&Hq0).
  { unfold make_chan in H0. simplify_eq. repeat split; by try intros []. }
  cbn [from to].
  assert (made_once xo = Some (PChan 0 0)) as Hmade.
  { unfold made_once. by rewrite Hcr. }
  destruct (swap_spec (POut o) (Some (length (chans σ))) σ0 xo)
    as (σa&xa&->&Hxa&Hda&_&_&Hpa&Hqa&_&_&_&_&Hwake); [by rewrite Hq0|].
  cbn [mbind option_bind].
  assert (threads σa !! i = Some (Send o k v Drain)) as Hia.
  { rewrite (Hwake i) by (by rewrite ?Hmade, ?Hth0).
    by rewrite list_lookup_alter_eq, Hth0, Hi. }
  assert (get_port (PIn n) σa = Some xi) as Hna.
  { rewrite Hqa by done. by rewrite Hq0. }
  destruct (swap_spec (PIn n) (Some (length (chans σ))) σa xi Hna)
    as (σ1&x1&->&_&_&_&_&_&Hq1&_&_&Hth1&_).
  cbn [mbind option_bind]. exists σ1. split; [done|].
  assert (threads σ1 !! i = Some (Send o k v Drain)) as Hi1.
  { destruct Hth1 as [->|(j&t&Hj&Hp&->)]; [done|].
    apply parked_on_PIn in Hp as (k'&ch'&->).
    assert (j ≠ i) by (intros ->; congruence).
    by rewrite list_lookup_insert_ne. }
  split; [done|].
  assert (get_port (POut o) σ1 = Some xa) as Hx1 by by rewrite Hq1.
  assert (token_ready (POut o) σ1 = false) as Htok.
  { unfold token_ready. rewrite Hx1, (Hpa _ Hmade) by done. done. }
  assert (i < length (threads σ1)) by by eapply lookup_lt_Some.
  rewrite exec_cons, (step_drain_Send _ _ _ o k v) by (by rewrite ?Hx1).
  cbn [mbind option_bind].
  rewrite exec_cons, (step_eval_Send _ _ _ o k v (Some (length (chans σ))));
    [|by apply lookup_set_threads_insert
     |rewrite current_set_threads; unfold current; by rewrite Hx1, <-Hda].
  cbn [mbind option_bind]. by rewrite set_threads_twice.
Qed.

(** X7: [Connect] reaches a call that is already parked: when a [Recv] is
    the goroutine parked on the [In] port, or a [Send] the one parked on
    the [Out] port, [Connect(out, in)] wakes it to the head of its loop,
    and its next two statements read the channel [Connect] has just made:
    the call goes on to wait on the new channel. *)
Theorem Connect_wakes_parked_call o n σ xo xi :
  outs σ !! o = Some xo → ins σ !! n = Some xi →
  (∀ i k ch,
     create xi = true → ping xi = Some (PChan 0 0) →
     find_idx (parked_on (PIn n)) (threads σ) = Some i →
     threads σ !! i = Some (Recv n k (Park ch)) →
     ∃ σ1, Connect o n σ = Some (MkConn o n, σ1)
           ∧ threads σ1 !! i = Some (Recv n k Drain)
           ∧ exec zero [Step i BNone; Step i BNone] σ1
             = Some (set_threads
                       (<[i:=Recv n k (Poll (Some (length (chans σ))))]>
                          (threads σ1)) σ1))
  ∧ (∀ i k v ch,
       create xo = true → ping xo = Some (PChan 0 0) →
       find_idx (parked_on (POut o)) (threads σ) = Some i →
       threads σ !! i = Some (Send o k v (Park ch)) →
       ∃ σ1, Connect o n σ = Some (MkConn o n, σ1)
             ∧ threads σ1 !! i = Some (Send o k v Drain)
             ∧ exec zero [Step i BNone; Step i BNone] σ1
               = Some (set_threads
                         (<[i:=Send o k v (Poll (Some (length (chans σ))))]>
                            (threads σ1)) σ1)).
Proof.
  intros Ho Hn. split.
  - intros i k ch ????. by eapply Connect_wakes_Recv.
  - intros i k v ch ????. by eapply Connect_wakes_Send.
Qed.

(** ** [init()] runs once *)

Lemma initialised_set_threads p ts σ :
  initialised p (set_threads ts σ) ↔ initialised p σ.
Proof. unfold initialised. by rewrite get_port_set_threads. Qed.

Lemma initialised_set_port p q x y σ :
  get_port q σ = Some x →
  (p = q → create y = true ∧ ping y = Some (PChan 0 0)) →
  initialised p σ → initialised p (set_port q y σ).
Proof.
  intros Hx Hy (z&Hz&Hc&Hp). destruct (decide (p = q)) as [->|Hne].
  - exists y. split; [by eapply get_set_port_eq|by apply Hy].
  - exists z. by rewrite get_set_port_ne.
Qed.

Lemma init_initialised p q σ σ' :
  init q σ = Some σ' → initialised p σ → initialised p σ'.
Proof.
  unfold init. destruct (get_port q σ) as [x|] eqn:Hx; [|done]. simpl.
  destruct (create x) eqn:Hc; intros [= <-] H; [done|].
  eapply initialised_set_port; [done| |done]. done.
Qed.

Lemma set_data_initialised p q d σ σ' :
  set_data q d σ = Some σ' → initialised p σ → initialised p σ'.
Proof.
  unfold set_data. destruct (get_port q σ) as [x|] eqn:Hx; [|done]. simpl.
  intros [= <-] H. eapply initialised_set_port; [done| |done].
  intros ->. destruct H as (z&Hz&?&?). by simplify_eq.
Qed.

Lemma drain_initialised p q σ σ' :
  drain q σ = Some σ' → initialised p σ → initialised p σ'.
Proof.
  unfold drain. destruct (get_port q σ) as [x|] eqn:Hx; [|done]. simpl.
  destruct (ping x) as [c|] eqn:Hc; [|by intros [= <-]].
  case_decide as Hlt; intros [= <-] H; [|done].
  eapply initialised_set_port; [done| |done].
  intros ->. destruct H as (z&Hz&?&?). simplify_eq/=. lia.
Qed.

Lemma notify_initialised p q σ σ' :
  notify q σ = Some σ' → initialised p σ → initialised p σ'.
Proof.
  unfold notify. destruct (get_port q σ) as [x|] eqn:Hx; [|done]. simpl.
  destruct (ping x) as [c|] eqn:Hc; [|by intros [= <-]].
  destruct (find_idx _ _); [intros [= <-]; by rewrite initialised_set_threads|].
  case_decide as Hlt; intros [= <-] H; [|done].
  eapply initialised_set_port; [done| |done].
  intros ->. destruct H as (z&Hz&?&?). simplify_eq/=. lia.
Qed.

Lemma step_initialised act p σ σ' :
  step zero act σ = Some σ' → initialised p σ → initialised p σ'.
Proof.
  intros Hs H. destruct act as [i b|k e]; simpl in Hs.
  - thread_cases Hs;
      repeat match goal with
        | Hd : drain _ _ = Some _ |- _ =>
            apply (drain_initialised p) in Hd; [|done]
        | Hd : init _ _ = Some _ |- _ =>
            apply (init_initialised p) in Hd; [|done]
        | Hd : set_data _ _ _ = Some _ |- _ =>
            apply (set_data_initialised p) in Hd; [|done]
        | Hd : notify _ _ = Some _ |- _ =>
            apply (notify_initialised p) in Hd; [|done]
        end; try (by rewrite ?initialised_set_threads).
    all: destruct H as (z&Hz&?&?); exists z; by destruct p.
  - unfold cancel in Hs. destruct (ctxs σ !! k) as [[|]|]; simplify_eq/=.
    destruct H as (z&Hz&?&?); exists z; by destruct p.
Qed.

(** X8: the [ping] of a port is made once for good: once [init()] has run
    on a port, in every later state of every run the port still has that
    [ping], empty, and its [sync.Once] is still done. The channel a parked
    call waits on is therefore the one every later [swap] signals. *)
Theorem ping_is_made_once tr p σ σ' :
  exec zero tr σ = Some σ' → initialised p σ → initialised p σ'.
Proof.
  revert σ. induction tr as [|act tr IH]; intros σ Hex H; simpl in Hex.
  { by simplify_eq. }
  destruct (step zero act σ) as [σ1|] eqn:Hs; simplify_eq/=.
  apply (IH σ1 Hex). by eapply step_initialised.
Qed.

(** ** What a call leaves alone *)

Lemma init_current p q σ σ' :
  init q σ = Some σ' → current p σ' = current p σ.
Proof.
  unfold init, current. destruct (get_port q σ) as [x|] eqn:Hx; [|done]. simpl.
  destruct (create x); intros [= <-]; [done|].
  destruct (decide (p = q)) as [->|Hne].
  - erewrite get_set_port_eq by done. by rewrite Hx.
  - by rewrite get_set_port_ne.
Qed.

Lemma drain_current p q σ σ' :
  drain q σ = Some σ' → current p σ' = current p σ.
Proof.
  unfold drain, current. destruct (get_port q σ) as [x|] eqn:Hx; [|done]. simpl.
  destruct (ping x) as [c|]; [|by intros [= <-]].
  case_decide; intros [= <-]; [|done].
  destruct (decide (p = q)) as [->|Hne].
  - erewrite get_set_port_eq by done. by rewrite Hx.
  - by rewrite get_set_port_ne.
Qed.

(** X15: [Recv] and [Send] never rewire: no statement of a call changes
    the current channel of any port, makes a channel, or touches a
    context. Only the controller's [swap] changes what a port is bound
    to. *)
Theorem calls_never_rewire i b σ σ' t :
  step zero (Step i b) σ = Some σ' →
  threads σ !! i = Some t →
  (∃ a k l, t = Recv a k l) ∨ (∃ a k v l, t = Send a k v l) →
  (∀ p, current p σ' = current p σ)
  ∧ chans σ' = chans σ ∧ ctxs σ' = ctxs σ.
Proof.
  intros Hs Ht Hcall. simpl in Hs.
  assert (∀ ts p, current p (set_threads ts σ) = current p σ) as Hst.
  { intros. apply current_set_threads. }
  destruct Hcall as [(a&k&l&->)|(a&k&v&l&->)];
    unfold step_thread in Hs; rewrite Ht in Hs; simpl in Hs;
    unfold recv_poll, send_poll in Hs;
    repeat (case_match; simplify_option_eq);
    repeat match goal with
      | Hd : drain ?q _ = Some _ |- _ =>
          pose proof (λ p, drain_current p q _ _ Hd);
          apply drain_frame in Hd as (?&?&_)
      | Hd : init ?q _ = Some _ |- _ =>
          pose proof (λ p, init_current p q _ _ Hd);
          apply init_frame in Hd as (?&?&_)
      end;
    (split; [intros p; rewrite ?current_set_threads; by auto|done]).
Qed.
End MoreFacts.

(** ** More of [Network.Run] *)

Section MoreNetFacts.
Context {C : Type}.
Implicit Types (s : Net.run_state (C:=C)) (net : Net.Network (C:=C)).

Lemma reported_nil (evs : list Net.event) :
  Net.reported evs = [] ↔ ∀ j e, Net.Finish j (Some e) ∉ evs.
Proof.
  induction evs as [|ev evs IH]; simpl.
  { split; [|done]. intros _ j e H. by apply elem_of_nil in H. }
  destruct ev as [|j [e|]|]; simpl.
  - rewrite IH. split.
    + intros H j e [?|?]%elem_of_cons; [done|by eapply H].
    + intros H j e ?. apply (H j e). by right.
  - split; [done|]. intros H. destruct (H j e). by left.
  - rewrite IH. split.
    + intros H j' e [?|?]%elem_of_cons; [done|by eapply H].
    + intros H j' e ?. apply (H j' e). by right.
  - rewrite IH. split.
    + intros H j e [?|?]%elem_of_cons; [done|by eapply H].
    + intros H j e ?. apply (H j e). by right.
Qed.

Lemma reported_elem (evs : list Net.event) e :
  e ∈ Net.reported evs → ∃ j, Net.Finish j (Some e) ∈ evs.
Proof.
  induction evs as [|ev evs IH]; simpl; [by intros ?%elem_of_nil|].
  destruct ev as [|j [e'|]|]; simpl.
  - intros [j ?]%IH. exists j. by right.
  - intros [->|[j' ?]%IH]%elem_of_cons; [exists j; by left|exists j'; by right].
  - intros [j' ?]%IH. exists j'. by right.
  - intros [j ?]%IH. exists j. by right.
Qed.

(** X9: when [Run] returns, it returns nil exactly when no component
    returned an error, and an error it returns is one that a component
    returned: [Run] adds no error of its own and hides a failure only
    behind another. *)
Theorem Run_result_is_a_reported_error net ctx evs s r :
  Net.Run net ctx evs = Some s → Net.pc s = Net.Returned r →
  (r = None ↔ ∀ j e, Net.Finish j (Some e) ∉ evs)
  ∧ (∀ e, r = Some e → ∃ j, Net.Finish j (Some e) ∈ evs).
Proof.
  unfold Net.Run. intros Hrun Hr.
  pose proof (run_inv_run ctx _ [] evs _ _ Hrun
                (run_inv_start ctx (Net.components net)))
    as (_&_&_&_&_&Hret).
  destruct (Hret r Hr) as [-> _]. simpl. split.
  - rewrite <-reported_nil. by destruct (Net.reported evs).
  - intros e He. apply reported_elem.
    destruct (Net.reported evs); simplify_eq/=. by left.
Qed.

Lemma unfinished_zero_fin (ts : list (Net.task (C:=C))) j t :
  Net.unfinished ts = 0 → ts !! j = Some t → Net.fin t = true.
Proof.
  revert j. induction ts as [|t0 ts IH]; intros j Hz Hj; [done|].
  simpl in Hz. destruct (Net.fin t0) eqn:Hf; [|done].
  destruct j; simplify_eq/=; [done|by eapply IH].
Qed.

Lemma finished_app (evs1 evs2 : list Net.event) :
  finished (evs1 ++ evs2) = finished evs1 ++ finished evs2.
Proof.
  induction evs1 as [|[|j r|] evs1 IH]; simpl; by rewrite ?IH.
Qed.

(** Along a run, the tasks that returned are those marked so, each once. *)
Lemma run_finished ctx evs pre s s' :
  Net.run ctx evs s = Some s' →
  NoDup (finished pre) →
  (∀ j, j ∈ finished pre ↔ ∃ t, Net.tasks s !! j = Some t ∧ Net.fin t = true) →
  NoDup (finished (pre ++ evs))
  ∧ (∀ j, j ∈ finished (pre ++ evs)
          ↔ ∃ t, Net.tasks s' !! j = Some t ∧ Net.fin t = true).
Proof.
  revert pre s. induction evs as [|ev evs IH]; intros pre s Hrun Hnd Hin;
    simpl in Hrun.
  { simplify_eq. by rewrite app_nil_r. }
  destruct (Net.run_step ctx ev s) as [s1|] eqn:Hs; simplify_eq/=.
  replace (pre ++ ev :: evs) with ((pre ++ [ev]) ++ evs)
    by (by rewrite <-app_assoc).
  apply (IH _ s1 Hrun); rewrite finished_app; unfold Net.run_step in Hs.
  - destruct ev as [|j r|]; simpl; rewrite ?app_nil_r; try done.
    destruct (Net.tasks s !! j) as [t|] eqn:Hj; simplify_eq/=.
    destruct (Net.fin t) eqn:Hf; simplify_eq/=.
    apply NoDup_app. split; [done|]. split; [|apply NoDup_singleton].
    intros j' Hj' ->%list_elem_of_singleton.
    apply Hin in Hj' as (t'&?&?). congruence.
  - intros j0. destruct ev as [|j r|]; simpl; rewrite ?app_nil_r.
    + destruct (Net.pc s) as [[|c rest]|]; simplify_eq/=.
      rewrite Hin. split; intros (t&Ht&Hf); exists t; (split; [|done]).
      * by apply lookup_app_l_Some.
      * apply lookup_app_Some in Ht as [?|[_ Ht]]; [done|].
        destruct (j0 - length (Net.tasks s)) as [|[|]]; simplify_eq/=.
    + destruct (Net.tasks s !! j) as [t|] eqn:Hj; simplify_eq/=.
      destruct (Net.fin t) eqn:Hf; simplify_eq/=.
      rewrite elem_of_app, list_elem_of_singleton, Hin.
      assert (j < length (Net.tasks s)) by by eapply lookup_lt_Some.
      destruct (decide (j0 = j)) as [->|Hne].
      * rewrite list_lookup_insert_eq by done. split; [|by auto].
        intros _. by eexists.
      * rewrite list_lookup_insert_ne by done. split; [|by auto].
        by intros [?|?].
    + destruct (Net.pc s) as [[|c rest]|]; simplify_eq/=.
      destruct (Net.Wait (Net.group s)); by simplify_eq/=.
Qed.

(** X10: when [Run] returns, the [Run] of every registered component has
    been called and has returned exactly once: the tasks that returned are
    the tasks of the components, each of them once. *)
Theorem Run_runs_each_component_once net ctx evs s r :
  Net.Run net ctx evs = Some s → Net.pc s = Net.Returned r →
  finished evs ≡ₚ seq 0 (length (Net.components net)).
Proof.
  unfold Net.Run. intros Hrun Hr.
  pose proof (run_inv_run ctx _ [] evs _ _ Hrun
                (run_inv_start ctx (Net.components net)))
    as (Hcs&_&_&_&_&Hret).
  destruct (Hret r Hr) as [_ Hz].
  destruct (run_finished ctx evs [] _ _ Hrun) as [Hnd Hin].
  { constructor. }
  { intros j. simpl. split; [by intros ?%elem_of_nil|by intros (?&?&?)]. }
  simpl in *. apply NoDup_Permutation; [done|apply NoDup_seq|].
  intros j. rewrite Hin, elem_of_seq.
  unfold Net.to_start in Hcs. rewrite Hr, app_nil_r in Hcs.
  rewrite Hcs, length_fmap. split.
  - intros (t&Ht&_). apply lookup_lt_Some in Ht. lia.
  - intros [_ Hlt]. destruct (lookup_lt_is_Some_2 (Net.tasks s) j) as [t Ht];
      [lia|]. exists t. split; [done|]. by eapply unfinished_zero_fin.
Qed.

(** X11: a network without components runs to its end at once: [Run]
    starts nothing, its [g.Wait()] returns without waiting, and the result
    is nil. *)
Theorem Run_of_empty_network net ctx :
  Net.components net = [] →
  Net.Run net ctx [Net.Join]
  = Some (Net.MkRun (Net.Returned None) Net.zero_group [])
  ∧ ∀ evs s, Net.Run net ctx evs = Some s → evs = [] ∨ evs = [Net.Join].
Proof.
  unfold Net.Run. intros ->. split; [done|].
  intros [|[|j r|] [|[|j' r'|] evs]] s; simpl; auto; try done.
Qed.
End MoreNetFacts.

(** ** The pump of a [StringConnection] *)

Lemma pump_run_cons ev evs s :
  pump_run (ev :: evs) s
  = pump_step ev s ≫= λ '(s1, o),
    pump_run evs s1 ≫= λ '(s2, given),
    Some (s2, from_option (λ v, [v]) [] o ++ given).
Proof. done. Qed.

(** A pump that has returned takes and gives nothing more. *)
Lemma pump_exited_final evs s s' given :
  ppc s = PExited → pump_run evs s = Some (s', given) →
  given = [] ∧ taken evs = [] ∧ ppc s' = PExited.
Proof.
  revert s given. induction evs as [|ev evs IH]; intros s given Hpc Hrun.
  { simpl in Hrun. by simplify_eq. }
  rewrite pump_run_cons in Hrun.
  destruct (pump_step ev s) as [[s1 o]|] eqn:Hs; [|done]. simpl in Hrun.
  destruct (pump_run evs s1) as [[s2 given']|] eqn:Hr; [|done].
  simpl in Hrun. simplify_eq.
  unfold pump_step in Hs. rewrite Hpc in Hs.
  destruct ev; try done.
  destruct (cut (conn_of s)); simplify_eq/=.
  - by destruct (IH (MkPump _ PExited) _ eq_refl Hr) as (->&->&->).
  - destruct (close_chan (stop (conn_of s))); simplify_eq/=.
    by destruct (IH (MkPump _ PExited) _ eq_refl Hr) as (->&->&->).
Qed.

(** The value a pump holds. *)
Lemma pump_run_order evs s s' given :
  pump_run evs s = Some (s', given) →
  ∃ pending,
    match ppc s with PHold val => [val] | _ => [] end ++ taken evs
    = given ++ pending
    ∧ length pending ≤ 1
    ∧ (ppc s' = PIdle → pending = [])
    ∧ (∀ val, ppc s' = PHold val → pending = [val]).
Proof.
  revert s given. induction evs as [|ev evs IH]; intros s given Hrun.
  { simpl in Hrun. simplify_eq. destruct (ppc s') as [|val|] eqn:Hpc.
    - exists []. repeat split; simpl; [lia|done].
    - exists [val]. repeat split; simpl; [lia|done|congruence].
    - exists []. repeat split; simpl; [lia|done..]. }
  rewrite pump_run_cons in Hrun.
  destruct (pump_step ev s) as [[s1 o]|] eqn:Hs; [|done]. simpl in Hrun.
  destruct (pump_run evs s1) as [[s2 given']|] eqn:Hr; [|done].
  simpl in Hrun. simplify_eq.
  destruct (IH _ _ Hr) as (pending&Heq&Hlen&Hidle&Hhold).
  unfold pump_step in Hs.
  destruct ev as [val| | |]; destruct (ppc s) as [|val0|] eqn:Hpc; try done.
  - simplify_eq/=. exists pending. by rewrite Heq.
  - simplify_eq/=. exists pending. by rewrite <-Heq.
  - destruct (stop (conn_of s)); [|done].
    destruct (close_chan _); simplify_eq/=.
    exists pending. by rewrite <-Heq.
  - destruct (stop (conn_of s)); [|done].
    destruct (close_chan _); simplify_eq/=.
    destruct (pump_exited_final evs (MkPump _ PExited) _ _ eq_refl Hr)
      as (->&->&Hex).
    exists [val0]. repeat split; simpl; [lia|congruence..].
  - destruct (cut (conn_of s)); simplify_eq/=.
    + rewrite ?Hpc in Heq. by exists pending.
    + destruct (close_chan _); simplify_eq/=.
      rewrite ?Hpc in Heq. by exists pending.
  - destruct (cut (conn_of s)); simplify_eq/=.
    + rewrite ?Hpc in Heq. by exists pending.
    + destruct (close_chan _); simplify_eq/=.
      rewrite ?Hpc in Heq. by exists pending.
  - destruct (cut (conn_of s)); simplify_eq/=.
    + rewrite ?Hpc in Heq. by exists pending.
    + destruct (close_chan _); simplify_eq/=.
      rewrite ?Hpc in Heq. by exists pending.
Qed.

(** What a run from [ConnectString] keeps true of the three fields. *)
Lemma pump_run_fields evs s s' given :
  pump_run evs s = Some (s', given) →
  (cut (conn_of s) = stop (conn_of s)
   ∧ (exited (conn_of s) = true ↔ ppc s = PExited)
   ∧ (ppc s = PExited → stop (conn_of s) = true)) →
  cut (conn_of s') = stop (conn_of s')
  ∧ (exited (conn_of s') = true ↔ ppc s' = PExited)
  ∧ (ppc s' = PExited → stop (conn_of s') = true).
Proof.
  revert s given. induction evs as [|ev evs IH]; intros s given Hrun Hinv.
  { simpl in Hrun. by simplify_eq. }
  rewrite pump_run_cons in Hrun.
  destruct (pump_step ev s) as [[s1 o]|] eqn:Hs; [|done]. simpl in Hrun.
  destruct (pump_run evs s1) as [[s2 given']|] eqn:Hr; [|done].
  simpl in Hrun. simplify_eq. apply (IH _ _ Hr).
  destruct Hinv as (Hcut&Hex&Hst). unfold pump_step, close_chan in Hs.
  destruct ev as [val| | |]; destruct (ppc s) as [|val0|] eqn:Hpc;
    try done; simplify_eq/=;
    try (split; [done|]; split; [|done];
         rewrite Hex; split; done);
    repeat match goal with
      | H : context [if ?b then _ else _] |- _ => destruct b eqn:?
      end; simplify_eq/=;
    try (split; [done|]; split; [|done]; try rewrite Hex; split; done).
  all: try (split; [congruence|]; split; [|congruence];
            rewrite Hex; split; done).
  all: split; [done|]; split; [|by auto]; split; congruence.
Qed.

Lemma ConnectString_fields :
  cut (conn_of ConnectString) = stop (conn_of ConnectString)
  ∧ (exited (conn_of ConnectString) = true ↔ ppc ConnectString = PExited)
  ∧ (ppc ConnectString = PExited → stop (conn_of ConnectString) = true).
Proof. by repeat split. Qed.

(** X12: the pump of a connection forwards in order and drops at most the
    value it holds when it is cut. In every run from [ConnectString], the
    values sent on [in] are the values received from [out], in the same
    order, up to at most one last value: none is missing when the pump
    waits in its outer [select], and the one the pump holds is; and the
    pump returns only after [stop] was closed. *)
Theorem pump_forwards_in_order evs s given :
  pump_run evs ConnectString = Some (s, given) →
  ∃ pending,
    taken evs = given ++ pending
    ∧ length pending ≤ 1
    ∧ (ppc s = PIdle → pending = [])
    ∧ (∀ val, ppc s = PHold val → pending = [val])
    ∧ (stop (conn_of s) = false → ppc s ≠ PExited).
Proof.
  intros Hrun.
  destruct (pump_run_order _ _ _ _ Hrun) as (pending&Heq&Hlen&Hidle&Hhold).
  destruct (pump_run_fields _ _ _ _ Hrun ConnectString_fields) as (_&_&Hst).
  exists pending. repeat split; try done.
  intros Hstop Hpc. rewrite (Hst Hpc) in Hstop. done.
Qed.

(** X13: [Cut] and the pump. In every state a run from [ConnectString] can
    reach: [Cut] can run its guarded [close] without a panic; its
    [<-conn.exited] can return exactly when the pump has returned; once
    [stop] is closed the pump can return, from either [select]; and a pump
    that has returned receives and sends nothing more. Calling [Cut] on a
    live pump and letting the pump return gives the connection that [Cut]
    computes. *)
Theorem Cut_stops_the_pump evs s given :
  pump_run evs ConnectString = Some (s, given) →
  is_Some (pump_step PCut s)
  ∧ (Cut_returns s = true ↔ ppc s = PExited)
  ∧ (stop (conn_of s) = true → ppc s ≠ PExited → is_Some (pump_step PStop s))
  ∧ (ppc s = PExited →
     ∀ evs' s' given', pump_run evs' s = Some (s', given') →
                       given' = [] ∧ taken evs' = [] ∧ ppc s' = PExited)
  ∧ (ppc s ≠ PExited →
     ∃ c, Cut (conn_of s) = Some c
          ∧ pump_run [PCut; PStop] s = Some (MkPump c PExited, [])).
Proof.
  intros Hrun.
  destruct (pump_run_fields _ _ _ _ Hrun ConnectString_fields) as (Hcut&Hex&Hst).
  destruct s as [[c st ex] pc]. simpl in *. subst st.
  assert (ex = true → pc = PExited) as Hex1 by apply Hex.
  split; [|split; [|split; [|split]]].
  - unfold pump_step, close_chan. simpl. destruct c; by eexists.
  - done.
  - intros -> Hpc. unfold pump_step, close_chan. simpl.
    destruct ex; [exfalso; apply Hpc, Hex1; reflexivity|].
    destruct pc; [by eexists..|done].
  - intros -> evs' s' given' Hr.
    exact (pump_exited_final evs' (MkPump _ PExited) s' given' eq_refl Hr).
  - intros Hpc. destruct ex; [exfalso; apply Hpc, Hex1; reflexivity|].
    unfold Cut, pump_exit, pump_step, close_chan. simpl.
    destruct c, pc; simpl; try done; by eexists.
Qed.

(** ** [StringProcessor.Run] *)

Lemma sp_run_cons process ev evs pc :
  sp_run process (ev :: evs) pc
  = sp_step process ev pc ≫= λ '(pc1, o),
    sp_run process evs pc1 ≫= λ '(pc2, sent),
    Some (pc2, from_option (λ v, [v]) [] o ++ sent).
Proof. done. Qed.

(** A [Run] that has returned does nothing more. *)
Lemma sp_returned_final process evs r pc sent :
  sp_run process evs (SPRet r) = Some (pc, sent) →
  evs = [] ∧ pc = SPRet r ∧ sent = [].
Proof. destruct evs; simpl; [|done]. by intros [= <- <-]. Qed.

Lemma sp_run_order process evs pc pc' sent :
  sp_run process evs pc = Some (pc', sent) →
  ∃ pending,
    match pc with SPHold value => [value] | _ => [] end
      ++ (from_option id id process <$> sp_received evs)
    = sent ++ pending
    ∧ length pending ≤ 1
    ∧ (pc' = SPWait → pending = [])
    ∧ (∀ value, pc' = SPHold value → pending = [value])
    ∧ (pc' = SPRet None → pc ≠ SPRet None → SPClosed ∈ evs ∧ pending = [])
    ∧ (∀ e, pc' = SPRet (Some e) → pc ≠ SPRet (Some e) → SPDone e ∈ evs).
Proof.
  revert pc sent. induction evs as [|ev evs IH]; intros pc sent Hrun.
  { simpl in Hrun. simplify_eq. destruct pc' as [|value|r].
    - exists []. repeat split; simpl; try done; try lia.
    - exists [value]. repeat split; simpl; try done; try lia; congruence.
    - exists []. repeat split; simpl; try done; try lia; congruence. }
  rewrite sp_run_cons in Hrun.
  destruct (sp_step process ev pc) as [[pc1 o]|] eqn:Hs; [|done].
  simpl in Hrun.
  destruct (sp_run process evs pc1) as [[pc2 sent']|] eqn:Hr; [|done].
  simpl in Hrun. simplify_eq.
  destruct (IH _ _ Hr) as (pending&Heq&Hlen&Hwait&Hhold&Hnil&Herr).
  unfold sp_step in Hs.
  destruct pc as [|value0|r0], ev as [e|value| |]; simplify_eq/=.
  - apply sp_returned_final in Hr as (->&->&->).
    exists []. repeat split; simpl; try done; try lia.
    intros e' [= ->] _. by left.
  - exists pending. split.
    { rewrite <-Heq. by destruct process. }
    split; [done|]. split; [done|]. split; [done|]. split.
    + intros H1 _. destruct (Hnil H1) as [? ?]; [done|]. split; [by right|done].
    + intros e H1 _. right. by apply Herr.
  - apply sp_returned_final in Hr as (->&->&->).
    exists []. repeat split; simpl; try done; try lia. by left.
  - apply sp_returned_final in Hr as (->&->&->).
    exists [value0]. repeat split; simpl; try done; try lia.
    intros e' [= ->] _. by left.
  - exists pending. split; [by rewrite <-Heq|].
    split; [done|]. split; [done|]. split; [done|]. split.
    + intros H1 _. destruct (Hnil H1) as [? ?]; [done|]. split; [by right|done].
    + intros e H1 _. right. by apply Herr.
Qed.

(** X14: [StringProcessor.Run] sends [process(v)] for each value [v] it
    receives, in order, the values themselves when [process] is nil. At
    most the last received value has not been sent: none when [Run] waits
    for input, the held one otherwise. [Run] returns nil only when it found
    its input closed, and then every value received was sent; it returns an
    error only when its context was done with that error. *)
Theorem StringProcessor_relays_in_order process evs pc sent :
  sp_run process evs SPWait = Some (pc, sent) →
  ∃ pending,
    from_option id id process <$> sp_received evs = sent ++ pending
    ∧ length pending ≤ 1
    ∧ (pc = SPWait → pending = [])
    ∧ (∀ value, pc = SPHold value → pending = [value])
    ∧ (pc = SPRet None → SPClosed ∈ evs ∧ pending = [])
    ∧ (∀ e, pc = SPRet (Some e) → SPDone e ∈ evs).
Proof.
  intros Hrun.
  destruct (sp_run_order _ _ _ _ _ Hrun) as (pending&Heq&?&?&?&Hnil&Herr).
  exists pending. do 4 (split; [done|]). split.
  - intros Hpc. by apply Hnil.
  - intros e Hpc. by apply Herr.
Qed.

(** ** Instances of the further properties *)

Lemma ping_never_holds_a_token_witness :
  exec 0 race_schedule race_start = Some race_end
  ∧ pings_empty race_start
  ∧ ∀ p, token_ready p race_end = false.
Proof.
  assert (pings_empty race_start) as Hempty.
  { split; repeat constructor; by left. }
  split; [reflexivity|]. split; [exact Hempty|].
  exact (proj1 (proj2 (ping_never_holds_a_token 0 race_schedule race_start
                         race_end eq_refl Hempty))).
Defined.

Lemma call_errors_are_context_errors_witness :
  exec 0 [Step 0 BNone] cancelled_start
  = Some (set_threads (<[0:=RecvRet 0 (Some Canceled)]> (threads cancelled_start))
            cancelled_start)
  ∧ ctxs cancelled_start !! 0 = Some (Some Canceled).
Proof.
  split; [reflexivity|].
  exact (proj1 (call_errors_are_context_errors 0 [Step 0 BNone] cancelled_start
                  _ 0 0 0 Canceled eq_refl) Entry 0 eq_refl eq_refl).
Defined.

Lemma Send_never_panics_witness :
  exec 0 race_schedule race_start = Some race_end
  ∧ (∀ c, is_closed c race_start = false)
  ∧ threads race_start !! 2 = Some (Send 0 0 7 Entry)
  ∧ threads race_end !! 2 ≠ Some SendPanic.
Proof.
  assert (∀ c, is_closed c race_start = false) as Hopen.
  { intros [|c]; reflexivity. }
  split; [reflexivity|]. split; [exact Hopen|]. split; [reflexivity|].
  exact (Send_never_panics 0 race_schedule race_start race_end 2 0 0 7 Entry
           eq_refl Hopen eq_refl).
Defined.

Lemma wiring_start_wired : bound_in_range wiring_start ∧ exclusive wiring_start.
Proof.
  split.
  - intros [[|[|a]]|[|a]] x c Hx Hd; simplify_eq/=.
  - intros [[|[|a]]|[|a]] q x y c _ Hx _ Hd _; simplify_eq/=.
Qed.

Lemma wiring_is_exclusive_witness :
  rewires [WConnect 0 0; WDisconnect (MkConn 0 0); WConnect 0 1] wiring_start
  = Some rewired
  ∧ bound_in_range wiring_start ∧ exclusive wiring_start
  ∧ bound_in_range rewired ∧ exclusive rewired.
Proof.
  split; [reflexivity|].
  split; [exact (proj1 wiring_start_wired)|].
  split; [exact (proj2 wiring_start_wired)|].
  exact (wiring_is_exclusive
           [WConnect 0 0; WDisconnect (MkConn 0 0); WConnect 0 1]
           wiring_start rewired eq_refl
           (proj1 wiring_start_wired) (proj2 wiring_start_wired)).
Defined.

Lemma wired_once_in_range : bound_in_range wired_once.
Proof.
  intros [[|[|a]]|[|a]] x c Hx Hd; simplify_eq/=; lia.
Qed.

Lemma Connect_leaves_old_partner_bound_witness :
  Connect 0 1 wired_once = Some (MkConn 0 1, wired_twice)
  ∧ bound_in_range wired_once
  ∧ current (PIn 0) wired_once = Some (Some 0)
  ∧ current (PIn 0) wired_twice = Some (Some 0)
  ∧ current (POut 0) wired_twice ≠ Some (Some 0).
Proof.
  assert (0 ≠ 1) as Hne by lia.
  split; [reflexivity|]. split; [exact wired_once_in_range|].
  split; [reflexivity|].
  exact (proj1 (Connect_leaves_old_partner_bound 0 1 wired_once _ wired_twice
                  eq_refl wired_once_in_range) 0 0 Hne eq_refl).
Defined.

Lemma call_meets_parked_partner_witness :
  is_closed 0 handover_start = false
  ∧ ∃ σ1, init (POut 0) handover_start = Some σ1
      ∧ exec 0 (replicate 4 (Step 1 BNone) ++ [Step 1 BData]) handover_start
        = Some (set_threads
                  (<[1:=SendRet None]>
                     (<[0:=RecvRet 7 None]> (threads handover_start))) σ1).
Proof.
  assert (ping_empty bound_port) as Hp by (by right).
  split; [reflexivity|].
  exact (proj1 (call_meets_parked_partner 0 handover_start 0 eq_refl)
           1 0 0 7 bound_port 0 eq_refl eq_refl eq_refl Hp eq_refl eq_refl).
Defined.

Lemma Connect_wakes_parked_call_witness :
  outs waiting_start !! 0 = Some zero_port
  ∧ ins waiting_start !! 0 = Some absent_port
  ∧ ∃ σ1, Connect 0 0 waiting_start = Some (MkConn 0 0, σ1)
      ∧ threads σ1 !! 0 = Some (Recv 0 0 Drain)
      ∧ exec 0 [Step 0 BNone; Step 0 BNone] σ1
        = Some (set_threads
                  (<[0:=Recv 0 0 (Poll (Some (length (chans waiting_start))))]>
                     (threads σ1)) σ1).
Proof.
  split; [reflexivity|]. split; [reflexivity|].
  exact (proj1 (Connect_wakes_parked_call 0 0 0 waiting_start zero_port
                  absent_port eq_refl eq_refl)
           0 0 None eq_refl eq_refl eq_refl eq_refl).
Defined.

Lemma ping_is_made_once_witness :
  exec 0 stall_schedule stall_start = Some stall_end
  ∧ initialised (PIn 0) stall_start
  ∧ initialised (PIn 0) stall_end.
Proof.
  assert (initialised (PIn 0) stall_start) as Hinit.
  { exists absent_port. by repeat split. }
  split; [reflexivity|]. split; [exact Hinit|].
  exact (ping_is_made_once 0 stall_schedule (PIn 0) stall_start stall_end
           eq_refl Hinit).
Defined.

Lemma calls_never_rewire_witness :
  step 0 (Step 0 BNone) stall_start
  = Some (set_threads (<[0:=Recv 0 0 Eval]> (threads stall_start)) stall_start)
  ∧ threads stall_start !! 0 = Some (Recv 0 0 Drain)
  ∧ (∀ p, current p
            (set_threads (<[0:=Recv 0 0 Eval]> (threads stall_start)) stall_start)
          = current p stall_start).
Proof.
  split; [reflexivity|]. split; [reflexivity|].
  exact (proj1 (calls_never_rewire 0 0 BNone stall_start _ (Recv 0 0 Drain)
                  eq_refl eq_refl
                  (or_introl (ex_intro _ 0 (ex_intro _ 0
                     (ex_intro _ Drain eq_refl)))))).
Defined.

Lemma Run_result_is_a_reported_error_witness :
  Net.Run two_components 5 two_failures = Some two_failures_end
  ∧ Net.pc two_failures_end = Net.Returned (Some (Failed 1))
  ∧ ∃ j, Net.Finish j (Some (Failed 1)) ∈ two_failures.
Proof.
  split; [reflexivity|]. split; [reflexivity|].
  exact (proj2 (Run_result_is_a_reported_error two_components 5 two_failures
                  two_failures_end (Some (Failed 1)) eq_refl eq_refl)
           (Failed 1) eq_refl).
Defined.

Lemma Run_runs_each_component_once_witness :
  Net.Run two_components 5 two_failures = Some two_failures_end
  ∧ Net.pc two_failures_end = Net.Returned (Some (Failed 1))
  ∧ finished two_failures ≡ₚ seq 0 (length (Net.components two_components)).
Proof.
  split; [reflexivity|]. split; [reflexivity|].
  exact (Run_runs_each_component_once two_components 5 two_failures
           two_failures_end (Some (Failed 1)) eq_refl eq_refl).
Defined.

Lemma Run_of_empty_network_witness :
  Net.components empty_network = []
  ∧ Net.Run empty_network 5 [Net.Join]
    = Some (Net.MkRun (Net.Returned None) Net.zero_group []).
Proof.
  split; [reflexivity|].
  exact (proj1 (Run_of_empty_network empty_network 5 eq_refl)).
Defined.

Lemma pump_forwards_in_order_witness :
  pump_run cut_while_holding ConnectString = Some (cut_while_holding_end, ["a"])
  ∧ ∃ pending,
      taken cut_while_holding = ["a"] ++ pending
      ∧ length pending ≤ 1
      ∧ (ppc cut_while_holding_end = PIdle → pending = [])
      ∧ (∀ val, ppc cut_while_holding_end = PHold val → pending = [val])
      ∧ (stop (conn_of cut_while_holding_end) = false →
         ppc cut_while_holding_end ≠ PExited).
Proof.
  split; [reflexivity|].
  exact (pump_forwards_in_order cut_while_holding cut_while_holding_end ["a"]
           eq_refl).
Defined.

Lemma Cut_stops_the_pump_witness :
  pump_run cut_while_holding ConnectString = Some (cut_while_holding_end, ["a"])
  ∧ is_Some (pump_step PCut cut_while_holding_end)
  ∧ (Cut_returns cut_while_holding_end = true
     ↔ ppc cut_while_holding_end = PExited).
Proof.
  split; [reflexivity|].
  pose proof (Cut_stops_the_pump cut_while_holding cut_while_holding_end ["a"]
                eq_refl) as H.
  exact (conj (proj1 H) (proj1 (proj2 H))).
Defined.

Lemma StringProcessor_relays_in_order_witness :
  sp_run (Some (λ v, "<" +:+ v)) relay_events SPWait = Some (SPRet None, ["<a"])
  ∧ ∃ pending,
      from_option id id (Some (λ v, "<" +:+ v)) <$> sp_received relay_events
      = ["<a"] ++ pending
      ∧ length pending ≤ 1
      ∧ (SPRet None = SPWait → pending = [])
      ∧ (∀ value, SPRet None = SPHold value → pending = [value])
      ∧ (SPRet None = SPRet None → SPClosed ∈ relay_events ∧ pending = [])
      ∧ (∀ e, SPRet None = SPRet (Some e) → SPDone e ∈ relay_events).
Proof.
  split; [reflexivity|].
  exact (StringProcessor_relays_in_order (Some (λ v, "<" +:+ v)) relay_events
           (SPRet None) ["<a"] eq_refl).
Defined.

(** * The blocked call and the teardown, action by action *)

Section CallFacts.
Context {T : Type} (zero : T).
Implicit Types (σ : config (T:=T)) (t : thread (T:=T)).

(** ** What another goroutine can do to a goroutine *)

(** An action of goroutine [j] leaves every other goroutine as it is,
    unless it is the transfer that completes the other's parked send or
    receive, or the notify that wakes it. *)
Lemma step_thread_other j b σ σ' i t :
  step_thread zero j b σ = Some σ' → threads σ !! i = Some t → i ≠ j →
  threads σ' !! i = Some t
  ∨ (∃ a k v c, b = BData
       ∧ threads σ !! j = Some (Send a k v (Poll (Some c)))
       ∧ find_idx (recv_parked c) (threads σ) = Some i
       ∧ threads σ' !! i = Some (RecvRet v None)
       ∧ threads σ' !! j = Some (SendRet None))
  ∨ (∃ a k c, b = BData
       ∧ threads σ !! j = Some (Recv a k (Poll (Some c)))
       ∧ find_idx (send_parked c) (threads σ) = Some i
       ∧ threads σ' !! i = Some (SendRet None)
       ∧ threads σ' !! j = Some (RecvRet (sent_value zero t) None))
  ∨ (∃ p code, threads σ !! j = Some (Ctl (INotify p :: code))
       ∧ find_idx (parked_on p) (threads σ) = Some i
       ∧ threads σ' !! i = Some (wake t)).
Proof.
  intros Hs Ht Hne. unfold step_thread in Hs.
  destruct (threads σ !! j) as [t0|] eqn:Hj; simplify_eq/=.
  assert (j < length (threads σ)) as Hlt by by eapply lookup_lt_Some.
  assert (∀ t1 σ1, threads σ1 = threads σ →
            threads (set_threads (<[j:=t1]> (threads σ1)) σ1) !! i = Some t)
    as Hown.
  { intros t1 σ1 Heq. simpl. rewrite Heq. by rewrite list_lookup_insert_ne. }
  destruct t0 as [a k l| |a k v l| | |code]; try done.
  - destruct l; simplify_eq/=.
    + destruct (ctxs σ !! k) as [[e|]|]; simplify_eq/=; left; by apply Hown.
    + destruct (init (PIn a) σ) as [σ1|] eqn:Hi; simplify_eq/=.
      apply init_frame in Hi as (_&_&Hth). left. by apply Hown.
    + destruct (drain (PIn a) σ) as [σ1|] eqn:Hi; simplify_eq/=.
      apply drain_frame in Hi as (_&_&Hth). left. by apply Hown.
    + destruct (current (PIn a) σ) as [d|]; simplify_eq/=. left. by apply Hown.
    + unfold recv_poll in Hs. destruct b.
      * destruct (ctxs σ !! k) as [[e|]|]; simplify_eq/=. left. by apply Hown.
      * destruct ch as [c|]; simplify_eq/=.
        destruct (is_closed c σ) eqn:Hcl; simplify_eq/=.
        { left. by apply Hown. }
        destruct (find_idx (send_parked c) (threads σ)) as [j'|] eqn:Hf;
          simplify_eq/=.
        destruct (threads σ !! j') as [t1|] eqn:Hj'; simplify_eq/=.
        destruct (decide (j' = i)) as [->|Hne'].
        -- right; right; left. exists a, k, c. simplify_eq.
           repeat split; try done.
           ++ rewrite list_lookup_insert_ne by done.
              apply list_lookup_insert_eq. by eapply lookup_lt_Some.
           ++ apply list_lookup_insert_eq. by rewrite length_insert.
        -- left. by rewrite !list_lookup_insert_ne.
      * destruct (token_ready (PIn a) σ); simplify_eq/=.
        destruct (drain (PIn a) σ) as [σ1|] eqn:Hi; simplify_eq/=.
        apply drain_frame in Hi as (_&_&Hth). left. by apply Hown.
      * case_match; simplify_eq/=. left. by apply Hown.
  - destruct l; simplify_eq/=.
    + destruct (ctxs σ !! k) as [[e|]|]; simplify_eq/=; left; by apply Hown.
    + destruct (init (POut a) σ) as [σ1|] eqn:Hi; simplify_eq/=.
      apply init_frame in Hi as (_&_&Hth). left. by apply Hown.
    + destruct (drain (POut a) σ) as [σ1|] eqn:Hi; simplify_eq/=.
      apply drain_frame in Hi as (_&_&Hth). left. by apply Hown.
    + destruct (current (POut a) σ) as [d|]; simplify_eq/=. left. by apply Hown.
    + unfold send_poll in Hs. destruct b.
      * destruct (ctxs σ !! k) as [[e|]|]; simplify_eq/=. left. by apply Hown.
      * destruct ch as [c|]; simplify_eq/=.
        destruct (is_closed c σ) eqn:Hcl; simplify_eq/=.
        { left. by apply Hown. }
        destruct (find_idx (recv_parked c) (threads σ)) as [j'|] eqn:Hf;
          simplify_eq/=.
        destruct (decide (j' = i)) as [->|Hne'].
        -- right; left. exists a, k, v, c. repeat split; try done.
           ++ rewrite list_lookup_insert_ne by done.
              apply list_lookup_insert_eq. by eapply lookup_lt_Some.
           ++ apply list_lookup_insert_eq. by rewrite length_insert.
        -- left. by rewrite !list_lookup_insert_ne.
      * destruct (token_ready (POut a) σ); simplify_eq/=.
        destruct (drain (POut a) σ) as [σ1|] eqn:Hi; simplify_eq/=.
        apply drain_frame in Hi as (_&_&Hth). left. by apply Hown.
      * case_match; simplify_eq/=. left. by apply Hown.
  - destruct code as [|[p|p d|p|o n] code]; simplify_eq/=.
    + destruct (init p σ) as [σ1|] eqn:Hi; simplify_eq/=.
      apply init_frame in Hi as (_&_&Hth). left. by apply Hown.
    + destruct (set_data p d σ) as [σ1|] eqn:Hi; simplify_eq/=.
      apply set_data_frame in Hi as (_&_&Hth). left. by apply Hown.
    + destruct (notify p σ) as [σ1|] eqn:Hi; simplify_eq/=.
      apply notify_frame in Hi as (_&_&[Hth|(j'&Hf&Hth)]).
      { left. by apply Hown. }
      rewrite Hth, list_lookup_insert_ne by done.
      destruct (decide (j' = i)) as [->|Hne'].
      * right; right; right. exists p, code. repeat split; try done.
        by rewrite list_lookup_alter_eq, Ht.
      * left. by rewrite list_lookup_alter_ne.
    + left. by rewrite list_lookup_insert_ne.
Qed.

(** ** The parked call *)

(** The ways a parked [Recv] is taken out of its [select]. *)
Lemma parked_Recv_only act σ σ' i a k ch t' :
  threads σ !! i = Some (Recv a k (Park ch)) →
  step zero act σ = Some σ' → threads σ' !! i = Some t' →
  t' = Recv a k (Park ch)
  ∨ (∃ c j a' k' v, ch = Some c ∧ act = Step j BData
       ∧ threads σ !! j = Some (Send a' k' v (Poll (Some c)))
       ∧ threads σ' !! j = Some (SendRet None)
       ∧ t' = RecvRet v None)
  ∨ (∃ e, act = Cancel k e ∧ ctxs σ !! k = Some None
       ∧ ctxs σ' !! k = Some (Some e) ∧ t' = RecvRet zero (Some e))
  ∨ (∃ j b code, act = Step j b
       ∧ threads σ !! j = Some (Ctl (INotify (PIn a) :: code))
       ∧ t' = Recv a k Drain).
Proof.
  intros Hi Hs Hi'. destruct act as [j b|k' e]; simpl in Hs.
  - destruct (decide (i = j)) as [<-|Hne].
    { unfold step_thread in Hs. by rewrite Hi in Hs. }
    destruct (step_thread_other _ _ _ _ _ _ Hs Hi Hne)
      as [H|[(a'&k'&v&c&->&Hj&Hf&H&Hj')|[(a'&k'&c&->&Hj&Hf&H&Hj')
         |(p&code&Hj&Hf&H)]]]; rewrite H in Hi'; simplify_eq.
    + by left.
    + right; left.
      destruct (find_idx_Some _ _ _ Hf) as (t&Ht&Hp). simplify_eq.
      apply recv_parked_inv in Hp as (?&?&?). simplify_eq. eauto 10.
    + destruct (find_idx_Some _ _ _ Hf) as (t&Ht&Hp). simplify_eq.
    + right; right; right.
      destruct (find_idx_Some _ _ _ Hf) as (t&Ht&Hp). simplify_eq.
      destruct p as [a'|a']; simpl in Hp; [|done].
      apply bool_decide_eq_true in Hp as ->. eauto 10.
  - unfold cancel in Hs.
    destruct (ctxs σ !! k') as [[|]|] eqn:Hk'; simplify_eq/=.
    rewrite list_lookup_fmap, Hi in Hi'. simpl in Hi'.
    case_decide; simplify_eq; [|by left].
    right; right; left. exists e. repeat split; try done.
    apply list_lookup_insert_eq. by eapply lookup_lt_Some.
Qed.

Lemma parked_Send_only act σ σ' i a k v ch t' :
  threads σ !! i = Some (Send a k v (Park ch)) →
  step zero act σ = Some σ' → threads σ' !! i = Some t' →
  t' = Send a k v (Park ch)
  ∨ (∃ c j a' k', ch = Some c ∧ act = Step j BData
       ∧ threads σ !! j = Some (Recv a' k' (Poll (Some c)))
       ∧ threads σ' !! j = Some (RecvRet v None)
       ∧ t' = SendRet None)
  ∨ (∃ e, act = Cancel k e ∧ ctxs σ !! k = Some None
       ∧ ctxs σ' !! k = Some (Some e) ∧ t' = SendRet (Some e))
  ∨ (∃ j b code, act = Step j b
       ∧ threads σ !! j = Some (Ctl (INotify (POut a) :: code))
       ∧ t' = Send a k v Drain).
Proof.
  intros Hi Hs Hi'. destruct act as [j b|k' e]; simpl in Hs.
  - destruct (decide (i = j)) as [<-|Hne].
    { unfold step_thread in Hs. by rewrite Hi in Hs. }
    destruct (step_thread_other _ _ _ _ _ _ Hs Hi Hne)
      as [H|[(a'&k'&v'&c&->&Hj&Hf&H&Hj')|[(a'&k'&c&->&Hj&Hf&H&Hj')
         |(p&code&Hj&Hf&H)]]]; rewrite H in Hi'; simplify_eq.
    + by left.
    + destruct (find_idx_Some _ _ _ Hf) as (t&Ht&Hp). simplify_eq.
    + right; left.
      destruct (find_idx_Some _ _ _ Hf) as (t&Ht&Hp). simplify_eq.
      apply send_parked_inv in Hp as (?&?&?&?). simplify_eq. eauto 10.
    + right; right; right.
      destruct (find_idx_Some _ _ _ Hf) as (t&Ht&Hp). simplify_eq.
      destruct p as [a'|a']; simpl in Hp; [done|].
      apply bool_decide_eq_true in Hp as ->. eauto 10.
  - unfold cancel in Hs.
    destruct (ctxs σ !! k') as [[|]|] eqn:Hk'; simplify_eq/=.
    rewrite list_lookup_fmap, Hi in Hi'. simpl in Hi'.
    case_decide; simplify_eq; [|by left].
    right; right; left. exists e. repeat split; try done.
    apply list_lookup_insert_eq. by eapply lookup_lt_Some.
Qed.

(** ** The statements of the controller *)

Lemma step_IInit j b p code σ σ1 :
  threads σ !! j = Some (Ctl (IInit p :: code)) → init p σ = Some σ1 →
  step zero (Step j b) σ = Some (set_threads (<[j:=Ctl code]> (threads σ1)) σ1).
Proof.
  intros Hj H. simpl. unfold step_thread. rewrite Hj. simpl. by rewrite H.
Qed.

Lemma step_ISet j b p d code σ σ1 :
  threads σ !! j = Some (Ctl (ISet p d :: code)) → set_data p d σ = Some σ1 →
  step zero (Step j b) σ = Some (set_threads (<[j:=Ctl code]> (threads σ1)) σ1).
Proof.
  intros Hj H. simpl. unfold step_thread. rewrite Hj. simpl. by rewrite H.
Qed.

Lemma step_INotify j b p code σ σ1 :
  threads σ !! j = Some (Ctl (INotify p :: code)) → notify p σ = Some σ1 →
  step zero (Step j b) σ = Some (set_threads (<[j:=Ctl code]> (threads σ1)) σ1).
Proof.
  intros Hj H. simpl. unfold step_thread. rewrite Hj. simpl. by rewrite H.
Qed.

(** A [swap] run by goroutine [j] on a port with a goroutine parked on it:
    its three statements install [d] and wake that goroutine. *)
Lemma swap_code_wakes j p d code σ x i t :
  threads σ !! j = Some (Ctl (swap_code p d ++ code)) →
  get_port p σ = Some x → create x = true → ping x = Some (PChan 0 0) →
  find_idx (parked_on p) (threads σ) = Some i → threads σ !! i = Some t →
  exec zero (replicate 3 (Step j BNone)) σ
  = Some (set_threads (<[j:=Ctl code]> (<[i:=wake t]> (threads σ)))
            (set_port p (MkPort d (Some (PChan 0 0)) true) σ)).
Proof.
  intros Hj Hx Hcr Hping Hf Hi.
  destruct (find_idx_Some _ _ _ Hf) as (t0&Ht0&Hp). simplify_eq.
  assert (i ≠ j) as Hne.
  { intros ->. rewrite Hj in Hi. simplify_eq. by destruct p. }
  assert (j < length (threads σ)) as Hlt by by eapply lookup_lt_Some.
  assert (i < length (threads σ)) as Hlti by by eapply lookup_lt_Some.
  simpl replicate. simpl app in Hj.
  set (σa := set_threads (<[j:=Ctl (ISet p d :: INotify p :: code)]> (threads σ)) σ).
  rewrite exec_cons.
  assert (step zero (Step j BNone) σ = Some σa) as ->.
  { apply (step_IInit _ _ p _ σ σ); [done|].
    unfold init. rewrite Hx. simpl. by rewrite Hcr. }
  cbn [mbind option_bind]. rewrite exec_cons.
  set (σb := set_port p (MkPort d (Some (PChan 0 0)) true)
               (set_threads (<[j:=Ctl (INotify p :: code)]> (threads σ)) σ)).
  assert (threads σb = <[j:=Ctl (INotify p :: code)]> (threads σ)) as Hthb.
  { unfold σb. by destruct p. }
  assert (step zero (Step j BNone) σa = Some σb) as ->.
  { rewrite (step_ISet _ _ p d (INotify p :: code) σa
               (set_port p (MkPort d (Some (PChan 0 0)) true) σa)).
    - f_equal. unfold σb, σa. destruct p; unfold set_threads; simpl;
        by rewrite list_insert_insert_eq.
    - unfold σa. simpl. by apply list_lookup_insert_eq.
    - unfold set_data. unfold σa. rewrite get_port_set_threads, Hx. simpl.
      by rewrite Hcr, Hping. }
  cbn [mbind option_bind]. rewrite exec_cons.
  rewrite (step_INotify _ _ p code σb
             (set_threads (alter wake i (threads σb)) σb)).
  - simpl. f_equal. rewrite Hthb.
    assert (<[j:=Ctl code]> (alter wake i (<[j:=Ctl (INotify p :: code)]> (threads σ)))
            = <[j:=Ctl code]> (<[i:=wake t]> (threads σ))) as Heq.
    { apply list_eq; intros n.
      destruct (decide (n = j)) as [->|Hnj].
      { by rewrite !list_lookup_insert_eq by
          (rewrite ?length_alter, ?length_insert; done). }
      rewrite !(list_lookup_insert_ne _ j n) by done.
      destruct (decide (n = i)) as [->|Hni].
      - rewrite list_lookup_alter_eq, list_lookup_insert_ne by done.
        rewrite Hi. simpl. by rewrite list_lookup_insert_eq.
      - by rewrite list_lookup_alter_ne, !list_lookup_insert_ne by done. }
    rewrite Heq. unfold σb. by destruct p.
  - rewrite Hthb. by apply list_lookup_insert_eq.
  - assert (get_port p σb = Some (MkPort d (Some (PChan 0 0)) true)) as Hxb.
    { unfold σb. eapply get_set_port_eq. by rewrite get_port_set_threads. }
    unfold notify. rewrite Hxb. simpl. rewrite Hthb.
    rewrite (find_idx_insert_same _ _ _ _ (Ctl (INotify p :: code)) Hj)
      by (by destruct p).
    by rewrite Hf.
Qed.

(** Woken by a [swap], a call drains and reads [current()] again. *)
Lemma swap_restarts_Recv j a d code σ x i k ch :
  threads σ !! i = Some (Recv a k (Park ch)) →
  threads σ !! j = Some (Ctl (swap_code (PIn a) d ++ code)) →
  get_port (PIn a) σ = Some x → create x = true → ping x = Some (PChan 0 0) →
  find_idx (parked_on (PIn a)) (threads σ) = Some i →
  ∃ σ1, exec zero (replicate 3 (Step j BNone)) σ = Some σ1
    ∧ threads σ1 = <[j:=Ctl code]> (<[i:=Recv a k Drain]> (threads σ))
    ∧ current (PIn a) σ1 = Some d
    ∧ chans σ1 = chans σ ∧ ctxs σ1 = ctxs σ
    ∧ exec zero [Step i BNone; Step i BNone] σ1
      = Some (set_threads (<[i:=Recv a k (Poll d)]> (threads σ1)) σ1).
Proof.
  intros Hi Hj Hx Hcr Hping Hf.
  rewrite (swap_code_wakes j (PIn a) d code σ x i _ Hj Hx Hcr Hping Hf Hi).
  eexists. split; [done|]. simpl wake.
  set (σ1 := set_threads _ _).
  assert (i ≠ j) as Hne by (intros ->; congruence).
  assert (i < length (threads σ)) as Hlti by by eapply lookup_lt_Some.
  assert (get_port (PIn a) σ1 = Some (MkPort d (Some (PChan 0 0)) true)) as Hx1.
  { unfold σ1. rewrite get_port_set_threads. by eapply get_set_port_eq. }
  assert (threads σ1 !! i = Some (Recv a k Drain)) as Hi1.
  { unfold σ1. simpl. rewrite list_lookup_insert_ne by done.
    by apply list_lookup_insert_eq. }
  do 4 (split; [done || (unfold current; by rewrite Hx1)|]).
  assert (i < length (threads σ1)) by by eapply lookup_lt_Some.
  rewrite exec_cons, (step_drain_Recv _ _ _ a k);
    [|done|by rewrite Hx1|unfold token_ready; by rewrite Hx1].
  cbn [mbind option_bind].
  rewrite exec_cons, (step_eval_Recv _ _ _ a k d);
    [|by apply lookup_set_threads_insert
     |rewrite current_set_threads; unfold current; by rewrite Hx1].
  cbn [mbind option_bind]. by rewrite set_threads_twice.
Qed.

Lemma swap_restarts_Send j a d code σ x i k v ch :
  threads σ !! i = Some (Send a k v (Park ch)) →
  threads σ !! j = Some (Ctl (swap_code (POut a) d ++ code)) →
  get_port (POut a) σ = Some x → create x = true → ping x = Some (PChan 0 0) →
  find_idx (parked_on (POut a)) (threads σ) = Some i →
  ∃ σ1, exec zero (replicate 3 (Step j BNone)) σ = Some σ1
    ∧ threads σ1 = <[j:=Ctl code]> (<[i:=Send a k v Drain]> (threads σ))
    ∧ current (POut a) σ1 = Some d
    ∧ chans σ1 = chans σ ∧ ctxs σ1 = ctxs σ
    ∧ exec zero [Step i BNone; Step i BNone] σ1
      = Some (set_threads (<[i:=Send a k v (Poll d)]> (threads σ1)) σ1).
Proof.
  intros Hi Hj Hx Hcr Hping Hf.
  rewrite (swap_code_wakes j (POut a) d code σ x i _ Hj Hx Hcr Hping Hf Hi).
  eexists. split; [done|]. simpl wake.
  set (σ1 := set_threads _ _).
  assert (i ≠ j) as Hne by (intros ->; congruence).
  assert (i < length (threads σ)) as Hlti by by eapply lookup_lt_Some.
  assert (get_port (POut a) σ1 = Some (MkPort d (Some (PChan 0 0)) true)) as Hx1.
  { unfold σ1. rewrite get_port_set_threads. by eapply get_set_port_eq. }
  assert (threads σ1 !! i = Some (Send a k v Drain)) as Hi1.
  { unfold σ1. simpl. rewrite list_lookup_insert_ne by done.
    by apply list_lookup_insert_eq. }
  do 4 (split; [done || (unfold current; by rewrite Hx1)|]).
  assert (i < length (threads σ1)) by by eapply lookup_lt_Some.
  rewrite exec_cons, (step_drain_Send _ _ _ a k v);
    [|done|by rewrite Hx1|unfold token_ready; by rewrite Hx1].
  cbn [mbind option_bind].
  rewrite exec_cons, (step_eval_Send _ _ _ a k v d);
    [|by apply lookup_set_threads_insert
     |rewrite current_set_threads; unfold current; by rewrite Hx1].
  cbn [mbind option_bind]. by rewrite set_threads_twice.
Qed.

(** A call that finds none of its cases ready can only park. *)
Lemma Recv_parks_when_idle i a k ch σ b σ' :
  threads σ !! i = Some (Recv a k (Poll ch)) →
  ctx_done k σ = false → recv_ready ch σ = false →
  token_ready (PIn a) σ = false →
  step zero (Step i b) σ = Some σ'
  ↔ b = BNone ∧ σ' = set_threads (<[i:=Recv a k (Park ch)]> (threads σ)) σ.
Proof.
  intros Hi Hk Hr Htok. simpl. unfold step_thread. rewrite Hi. simpl.
  unfold recv_poll. unfold ctx_done in Hk. split.
  - destruct b.
    + by destruct (ctxs σ !! k) as [[|]|].
    + destruct ch as [c|]; [|done]. simpl in *.
      apply orb_false_elim in Hr as [-> Hr]. simpl.
      apply bool_decide_eq_false in Hr.
      destruct (find_idx _ _) as [j|]; [|done]. destruct Hr. by eexists.
    + by rewrite Htok.
    + fold (ctx_done k σ). rewrite Hr, Htok. unfold ctx_done.
      destruct (ctxs σ !! k) as [[|]|]; simplify_eq/=; by intros [= <-].
  - intros [-> ->]. fold (ctx_done k σ). rewrite Hr, Htok. unfold ctx_done.
    by destruct (ctxs σ !! k) as [[|]|].
Qed.

Lemma Send_parks_when_idle i a k v ch σ b σ' :
  threads σ !! i = Some (Send a k v (Poll ch)) →
  ctx_done k σ = false → send_ready ch σ = false →
  token_ready (POut a) σ = false →
  step zero (Step i b) σ = Some σ'
  ↔ b = BNone ∧ σ' = set_threads (<[i:=Send a k v (Park ch)]> (threads σ)) σ.
Proof.
  intros Hi Hk Hr Htok. simpl. unfold step_thread. rewrite Hi. simpl.
  unfold send_poll. unfold ctx_done in Hk. split.
  - destruct b.
    + by destruct (ctxs σ !! k) as [[|]|].
    + destruct ch as [c|]; [|done]. simpl in *.
      apply orb_false_elim in Hr as [-> Hr]. simpl.
      apply bool_decide_eq_false in Hr.
      destruct (find_idx _ _) as [j|]; [|done]. destruct Hr. by eexists.
    + by rewrite Htok.
    + fold (ctx_done k σ). rewrite Hr, Htok. unfold ctx_done.
      destruct (ctxs σ !! k) as [[|]|]; simplify_eq/=; by intros [= <-].
  - intros [-> ->]. fold (ctx_done k σ). rewrite Hr, Htok. unfold ctx_done.
    by destruct (ctxs σ !! k) as [[|]|].
Qed.

Lemma cancel_parked k e σ i t :
  ctxs σ !! k = Some None → threads σ !! i = Some t →
  ∃ σ', step zero (Cancel k e) σ = Some σ'
        ∧ threads σ' !! i = Some (cancel_wake zero k e t)
        ∧ ctxs σ' !! k = Some (Some e)
        ∧ chans σ' = chans σ ∧ ins σ' = ins σ ∧ outs σ' = outs σ.
Proof.
  intros Hk Hi. simpl. unfold cancel. rewrite Hk. simpl. eexists.
  split; [done|]. simpl. rewrite list_lookup_fmap, Hi. repeat split.
  apply list_lookup_insert_eq. by eapply lookup_lt_Some.
Qed.

(** C2: a call of [Recv] or [Send] blocks until a transfer, a cancellation
    or a swap, and each of the three ends the wait as the specification
    says. A call that enters its second [select] with a live context, no
    partner on the channel and no token can do nothing but park. Once it
    is parked, whatever any goroutine does, the call stays parked on the
    same channel unless (a) a partner at its own [select] on that channel
    takes the data case: [Recv] returns the partner's value with a nil
    error and [Send] returns nil; (b) the context of the call is
    cancelled: the call returns that error ([Recv] with the zero value);
    (c) a controller runs the notify of a [swap] on the port: the call is
    back at the head of its loop, with no error. Conversely each of the
    three happens when its cause does: the partner's data case is enabled
    and gives exactly that result; cancelling the live context returns the
    call at once; and the three statements of a [swap(d)] on the port wake
    the call, whose next two statements lead it into the [select] again
    with [d], the new current channel, evaluated. (A swap that lands
    before the call has parked is not covered here: see C1.) *)
Theorem blocked_call_outcomes σ i a k :
  (∀ ch, threads σ !! i = Some (Recv a k (Poll ch)) →
     ctx_done k σ = false → recv_ready ch σ = false →
     token_ready (PIn a) σ = false →
     ∀ b σ', step zero (Step i b) σ = Some σ'
       ↔ b = BNone
         ∧ σ' = set_threads (<[i:=Recv a k (Park ch)]> (threads σ)) σ)
  ∧ (∀ ch, threads σ !! i = Some (Recv a k (Park ch)) →
     (∀ act σ' t', step zero act σ = Some σ' → threads σ' !! i = Some t' →
        t' = Recv a k (Park ch)
        ∨ (∃ c j a' k' v, ch = Some c ∧ act = Step j BData
             ∧ threads σ !! j = Some (Send a' k' v (Poll (Some c)))
             ∧ threads σ' !! j = Some (SendRet None)
             ∧ t' = RecvRet v None)
        ∨ (∃ e, act = Cancel k e ∧ ctxs σ !! k = Some None
             ∧ ctxs σ' !! k = Some (Some e) ∧ t' = RecvRet zero (Some e))
        ∨ (∃ j b code, act = Step j b
             ∧ threads σ !! j = Some (Ctl (INotify (PIn a) :: code))
             ∧ t' = Recv a k Drain))
     ∧ (∀ c j a' k' v,
          ch = Some c → is_closed c σ = false →
          find_idx (recv_parked c) (threads σ) = Some i →
          threads σ !! j = Some (Send a' k' v (Poll (Some c))) →
          step zero (Step j BData) σ
          = Some (set_threads
                    (<[j:=SendRet None]> (<[i:=RecvRet v None]> (threads σ))) σ))
     ∧ (∀ e, ctxs σ !! k = Some None →
          ∃ σ', step zero (Cancel k e) σ = Some σ'
                ∧ threads σ' !! i = Some (RecvRet zero (Some e))
                ∧ ctxs σ' !! k = Some (Some e))
     ∧ (∀ j d code x,
          threads σ !! j = Some (Ctl (swap_code (PIn a) d ++ code)) →
          get_port (PIn a) σ = Some x →
          create x = true → ping x = Some (PChan 0 0) →
          find_idx (parked_on (PIn a)) (threads σ) = Some i →
          ∃ σ1, exec zero (replicate 3 (Step j BNone)) σ = Some σ1
            ∧ threads σ1 = <[j:=Ctl code]> (<[i:=Recv a k Drain]> (threads σ))
            ∧ current (PIn a) σ1 = Some d
            ∧ chans σ1 = chans σ ∧ ctxs σ1 = ctxs σ
            ∧ exec zero [Step i BNone; Step i BNone] σ1
              = Some (set_threads (<[i:=Recv a k (Poll d)]> (threads σ1)) σ1)))
  ∧ (∀ v ch, threads σ !! i = Some (Send a k v (Poll ch)) →
     ctx_done k σ = false → send_ready ch σ = false →
     token_ready (POut a) σ = false →
     ∀ b σ', step zero (Step i b) σ = Some σ'
       ↔ b = BNone
         ∧ σ' = set_threads (<[i:=Send a k v (Park ch)]> (threads σ)) σ)
  ∧ (∀ v ch, threads σ !! i = Some (Send a k v (Park ch)) →
     (∀ act σ' t', step zero act σ = Some σ' → threads σ' !! i = Some t' →
        t' = Send a k v (Park ch)
        ∨ (∃ c j a' k', ch = Some c ∧ act = Step j BData
             ∧ threads σ !! j = Some (Recv a' k' (Poll (Some c)))
             ∧ threads σ' !! j = Some (RecvRet v None)
             ∧ t' = SendRet None)
        ∨ (∃ e, act = Cancel k e ∧ ctxs σ !! k = Some None
             ∧ ctxs σ' !! k = Some (Some e) ∧ t' = SendRet (Some e))
        ∨ (∃ j b code, act = Step j b
             ∧ threads σ !! j = Some (Ctl (INotify (POut a) :: code))
             ∧ t' = Send a k v Drain))
     ∧ (∀ c j a' k',
          ch = Some c → is_closed c σ = false →
          find_idx (send_parked c) (threads σ) = Some i →
          threads σ !! j = Some (Recv a' k' (Poll (Some c))) →
          step zero (Step j BData) σ
          = Some (set_threads
                    (<[j:=RecvRet v None]> (<[i:=SendRet None]> (threads σ))) σ))
     ∧ (∀ e, ctxs σ !! k = Some None →
          ∃ σ', step zero (Cancel k e) σ = Some σ'
                ∧ threads σ' !! i = Some (SendRet (Some e))
                ∧ ctxs σ' !! k = Some (Some e))
     ∧ (∀ j d code x,
          threads σ !! j = Some (Ctl (swap_code (POut a) d ++ code)) →
          get_port (POut a) σ = Some x →
          create x = true → ping x = Some (PChan 0 0) →
          find_idx (parked_on (POut a)) (threads σ) = Some i →
          ∃ σ1, exec zero (replicate 3 (Step j BNone)) σ = Some σ1
            ∧ threads σ1 = <[j:=Ctl code]> (<[i:=Send a k v Drain]> (threads σ))
            ∧ current (POut a) σ1 = Some d
            ∧ chans σ1 = chans σ ∧ ctxs σ1 = ctxs σ
            ∧ exec zero [Step i BNone; Step i BNone] σ1
              = Some (set_threads (<[i:=Send a k v (Poll d)]> (threads σ1)) σ1))).
Proof.
  split; [|split; [|split]].
  - intros ch Hi Hk Hr Htok b σ'. by apply Recv_parks_when_idle.
  - intros ch Hi. split; [|split; [|split]].
    + intros act σ' t'. by apply parked_Recv_only.
    + intros c j a' k' v -> Hc Hf Hj. by eapply step_data_Send.
    + intros e Hk.
      destruct (cancel_parked k e σ i _ Hk Hi) as (σ'&Hs&Hi'&Hk'&_).
      exists σ'. simpl in Hi'. by rewrite decide_True in Hi'.
    + intros j d code x Hj Hx Hcr Hping Hf. by eapply swap_restarts_Recv.
  - intros v ch Hi Hk Hr Htok b σ'. by apply Send_parks_when_idle.
  - intros v ch Hi. split; [|split; [|split]].
    + intros act σ' t'. by apply parked_Send_only.
    + intros c j a' k' -> Hc Hf Hj. by eapply step_data_Recv.
    + intros e Hk.
      destruct (cancel_parked k e σ i _ Hk Hi) as (σ'&Hs&Hi'&Hk'&_).
      exists σ'. simpl in Hi'. by rewrite decide_True in Hi'.
    + intros j d code x Hj Hx Hcr Hping Hf. by eapply swap_restarts_Send.
Qed.

(** ** Calls of [Disconnect] running together *)

Lemma set_data_current p q d σ σ' :
  set_data q d σ = Some σ' →
  current p σ' = if decide (p = q) then Some d else current p σ.
Proof.
  unfold set_data, current. destruct (get_port q σ) as [x|] eqn:Hx; [|done].
  simpl. intros [= <-]. case_decide as Hpq.
  - subst. by erewrite get_set_port_eq.
  - by rewrite get_set_port_ne.
Qed.

Lemma notify_current p q σ σ' :
  notify q σ = Some σ' → current p σ' = current p σ.
Proof.
  unfold notify, current. destruct (get_port q σ) as [x|] eqn:Hx; [|done].
  simpl. destruct (ping x) as [c|]; [|by intros [= <-]].
  destruct (find_idx _ _) as [j|].
  { intros [= <-]. by rewrite get_port_set_threads. }
  case_decide; intros [= <-]; [|done].
  destruct (decide (p = q)) as [->|Hne].
  - erewrite get_set_port_eq by done. by rewrite Hx.
  - by rewrite get_set_port_ne.
Qed.

(** Only the assignment in [swap] changes the current channel of a port. *)
Lemma step_current act σ σ' p :
  step zero act σ = Some σ' →
  current p σ' = current p σ
  ∨ ∃ i b d code, act = Step i b
      ∧ threads σ !! i = Some (Ctl (ISet p d :: code))
      ∧ current p σ' = Some d.
Proof.
  intros Hs. destruct act as [i b|k e]; simpl in Hs.
  2:{ unfold cancel in Hs. destruct (ctxs σ !! k) as [[|]|]; simplify_eq/=.
      left. by destruct p. }
  unfold step_thread in Hs.
  destruct (threads σ !! i) as [t|] eqn:Hi; simplify_eq/=.
  destruct t as [a k l| |a k v l| | |code]; try done.
  - left. destruct l; simplify_eq/=; unfold recv_poll in *;
      simplify_option_eq; repeat (case_match; simplify_option_eq);
      rewrite ?current_set_threads; try done;
      eauto using init_current, drain_current.
  - left. destruct l; simplify_eq/=; unfold send_poll in *;
      simplify_option_eq; repeat (case_match; simplify_option_eq);
      rewrite ?current_set_threads; try done;
      eauto using init_current, drain_current.
  - destruct code as [|[q|q d|q|o n] code]; simplify_eq/=.
    + destruct (init q σ) as [σ1|] eqn:H; simplify_eq/=. left.
      rewrite current_set_threads. by eapply init_current.
    + destruct (set_data q d σ) as [σ1|] eqn:H; simplify_eq/=.
      rewrite current_set_threads, (set_data_current p q d _ _ H).
      case_decide; [subst; right; eauto 10|by left].
    + destruct (notify q σ) as [σ1|] eqn:H; simplify_eq/=. left.
      rewrite current_set_threads. by eapply notify_current.
    + left. by destruct p.
Qed.

(** A controller goroutine is moved by its own statements only. *)
Lemma step_ctl_back act σ σ' i code' :
  step zero act σ = Some σ' → threads σ' !! i = Some (Ctl code') →
  threads σ !! i = Some (Ctl code')
  ∨ ∃ b ins code0, act = Step i b
      ∧ threads σ !! i = Some (Ctl (ins :: code0))
      ∧ code' = match ins with
                | IConnect o n =>
                    swap_code (POut o) (Some (length (chans σ)))
                    ++ swap_code (PIn n) (Some (length (chans σ))) ++ code0
                | _ => code0
                end.
Proof.
  intros Hs Hi'.
  destruct (step_lookup_back zero _ _ _ _ _ Hs Hi') as (t&Hi).
  assert (i < length (threads σ)) as Hlt by by eapply lookup_lt_Some.
  destruct act as [j b|k e]; simpl in Hs.
  2:{ unfold cancel in Hs. destruct (ctxs σ !! k) as [[|]|]; simplify_eq/=.
      rewrite list_lookup_fmap, Hi in Hi'. left.
      destruct t as [? ? []| |? ? ? []| | |]; simpl in Hi';
        repeat case_decide; by simplify_eq. }
  destruct (decide (i = j)) as [<-|Hne].
  - unfold step_thread in Hs. rewrite Hi in Hs. simpl in Hs.
    assert (∀ t1 σ1, threads σ1 = threads σ →
              threads (set_threads (<[i:=t1]> (threads σ1)) σ1) !! i = Some t1)
      as Hown.
    { intros t1 σ1 Heq. simpl. rewrite Heq. by apply list_lookup_insert_eq. }
    destruct t as [a k l| |a k v l| | |code]; try done.
    + exfalso. destruct l; simplify_eq/=; unfold recv_poll in *;
        simplify_option_eq; repeat (case_match; simplify_option_eq);
        repeat match goal with
          | H : init _ _ = Some _ |- _ => apply init_frame in H as (_&_&H)
          | H : drain _ _ = Some _ |- _ => apply drain_frame in H as (_&_&H)
          end;
        try (rewrite Hown in Hi' by done; done).
      simpl in Hi'. rewrite list_lookup_insert_eq in Hi'; [done|].
      by rewrite length_insert.
    + exfalso. destruct l; simplify_eq/=; unfold send_poll in *;
        simplify_option_eq; repeat (case_match; simplify_option_eq);
        repeat match goal with
          | H : init _ _ = Some _ |- _ => apply init_frame in H as (_&_&H)
          | H : drain _ _ = Some _ |- _ => apply drain_frame in H as (_&_&H)
          end;
        try (rewrite Hown in Hi' by done; done).
      simpl in Hi'. rewrite list_lookup_insert_eq in Hi'; [done|].
      by rewrite length_insert.
    + right. destruct code as [|[q|q d|q|o n] code]; simplify_eq/=.
      * destruct (init q σ) as [σ1|] eqn:H; simplify_eq/=.
        apply init_frame in H as (_&_&H). rewrite Hown in Hi' by done.
        simplify_eq. eauto 10.
      * destruct (set_data q d σ) as [σ1|] eqn:H; simplify_eq/=.
        apply set_data_frame in H as (_&_&H). rewrite Hown in Hi' by done.
        simplify_eq. eauto 10.
      * destruct (notify q σ) as [σ1|] eqn:H; simplify_eq/=.
        apply notify_frame in H as (_&_&[H|(j'&_&H)]).
        -- rewrite Hown in Hi' by done. simplify_eq. eauto 10.
        -- rewrite list_lookup_insert_eq in Hi'
             by (by rewrite H, length_alter).
           simplify_eq. eauto 10.
      * rewrite list_lookup_insert_eq in Hi' by done. simplify_eq.
        exists b, (IConnect o n), code. eauto.
  - left.
    destruct (step_thread_other _ _ _ _ _ _ Hs Hi Hne)
      as [H|[(?&?&?&?&_&_&_&H&_)|[(?&?&?&_&_&_&H&_)|(?&?&_&_&H)]]];
      rewrite H in Hi'; simplify_eq; try done.
    destruct t; by simplify_eq/=.
Qed.

Lemma drop_Disconnect_code conn n ins code :
  drop n (Disconnect_code conn) = ins :: code →
  code = drop (S n) (Disconnect_code conn)
  ∧ (∀ o m, ins ≠ IConnect o m)
  ∧ (∀ p d, ins = ISet p d →
       d = None ∧ (p = POut (from conn) ∧ n = 1 ∨ p = PIn (to conn) ∧ n = 4))
  ∧ (n ≠ 1 → n ≠ 4 → ∀ p d, ins ≠ ISet p d)
  ∧ (∃ p, (p = POut (from conn) ∨ p = PIn (to conn))
          ∧ (ins = IInit p ∨ ins = ISet p None ∨ ins = INotify p)).
Proof.
  destruct n as [|[|[|[|[|[|n]]]]]]; simpl; rewrite ?drop_nil;
    intros H; simplify_eq;
    (split; [done|]); (split; [done|]);
    (split; [intros ?? [= <- <-]; auto|]);
    (split; [try done; intros; lia|]);
    eauto 10.
Qed.

(** While only calls of [conn.Disconnect()] run, a port that is absent
    stays absent. *)
Lemma tearing_absent conn act σ σ' p :
  tearing conn σ → step zero act σ = Some σ' →
  current p σ = Some None → current p σ' = Some None.
Proof.
  intros Hinv Hs Hp.
  destruct (step_current _ _ _ p Hs) as [->|(i&b&d&code&->&Hi&->)]; [done|].
  destruct (Hinv _ _ Hi) as (n&Hn&_). symmetry in Hn.
  apply drop_Disconnect_code in Hn as (_&_&Hset&_).
  by destruct (Hset p d eq_refl) as [-> _].
Qed.

Lemma step_ISet_current i b p d code σ σ' :
  threads σ !! i = Some (Ctl (ISet p d :: code)) →
  step zero (Step i b) σ = Some σ' → current p σ' = Some d.
Proof.
  intros Hi Hs. simpl in Hs. unfold step_thread in Hs. rewrite Hi in Hs.
  simpl in Hs. destruct (set_data p d σ) as [σ1|] eqn:H; simplify_eq/=.
  rewrite current_set_threads, (set_data_current p p d _ _ H).
  by rewrite decide_True.
Qed.

Lemma step_tearing conn act σ σ' :
  tearing conn σ → step zero act σ = Some σ' → tearing conn σ'.
Proof.
  intros Hinv Hs i code' Hi'.
  destruct (step_ctl_back _ _ _ _ _ Hs Hi')
    as [Hi|(b&ins&code0&->&Hi&Hcode)].
  - destruct (Hinv _ _ Hi) as (n&Hn&Ho&Hn').
    exists n. split; [done|].
    split; intros; eapply tearing_absent; eauto.
  - destruct (Hinv _ _ Hi) as (n&Hn&Ho&Hn'). symmetry in Hn.
    destruct (drop_Disconnect_code _ _ _ _ Hn) as (Hcode0&Hnc&Hset&_&_).
    assert (code' = code0) as ->.
    { destruct ins; try done. by destruct (Hnc out_ inp). }
    exists (S n). split; [done|]. split; intros Hle.
    + destruct (decide (n = 1)) as [->|Hn1].
      * simpl in Hn. simplify_eq. by eapply step_ISet_current.
      * eapply tearing_absent; [done..|]. apply Ho. lia.
    + destruct (decide (n = 4)) as [->|Hn4].
      * simpl in Hn. simplify_eq. by eapply step_ISet_current.
      * eapply tearing_absent; [done..|]. apply Hn'. lia.
Qed.

Lemma step_tearing_chans conn act σ σ' :
  tearing conn σ → step zero act σ = Some σ' → chans σ' = chans σ.
Proof.
  intros Hinv Hs. destruct act as [i b|k e]; simpl in Hs.
  2:{ unfold cancel in Hs. by destruct (ctxs σ !! k) as [[|]|]; simplify_eq/=. }
  unfold step_thread in Hs.
  destruct (threads σ !! i) as [t|] eqn:Hi; simplify_eq/=.
  destruct t as [a k l| |a k v l| | |code]; try done.
  - destruct l; simplify_eq/=; unfold recv_poll in *;
      simplify_option_eq; repeat (case_match; simplify_option_eq);
      repeat match goal with
        | H : init _ _ = Some _ |- _ => apply init_frame in H as (H&_&_)
        | H : drain _ _ = Some _ |- _ => apply drain_frame in H as (H&_&_)
        end; done.
  - destruct l; simplify_eq/=; unfold send_poll in *;
      simplify_option_eq; repeat (case_match; simplify_option_eq);
      repeat match goal with
        | H : init _ _ = Some _ |- _ => apply init_frame in H as (H&_&_)
        | H : drain _ _ = Some _ |- _ => apply drain_frame in H as (H&_&_)
        end; done.
  - destruct (Hinv _ _ Hi) as (n&Hn&_). symmetry in Hn.
    destruct code as [|[q|q d|q|o m] code]; simplify_eq/=.
    + destruct (init q σ) as [σ1|] eqn:H; simplify_eq/=.
      by apply init_frame in H as (H&_&_).
    + destruct (set_data q d σ) as [σ1|] eqn:H; simplify_eq/=.
      by apply set_data_frame in H as (H&_&_).
    + destruct (notify q σ) as [σ1|] eqn:H; simplify_eq/=.
      by apply notify_frame in H as (H&_&_).
    + apply drop_Disconnect_code in Hn as (_&Hnc&_). by destruct (Hnc o m).
Qed.

Lemma step_port_stays act σ σ' p :
  step zero act σ = Some σ' → is_Some (get_port p σ) → is_Some (get_port p σ').
Proof.
  intros Hs [x Hx].
  assert (is_Some (current p σ')) as [d Hd].
  { destruct (step_current _ _ _ p Hs) as [->|(?&?&?&?&_&_&->)]; [|done].
    unfold current. by rewrite Hx. }
  by eapply current_is_Some.
Qed.

Lemma exec_tearing conn tr σ σ' :
  tearing conn σ → exec zero tr σ = Some σ' →
  tearing conn σ' ∧ chans σ' = chans σ
  ∧ ∀ p, is_Some (get_port p σ) → is_Some (get_port p σ').
Proof.
  revert σ. induction tr as [|act tr IH]; intros σ Hinv Hex; simpl in Hex.
  { by simplify_eq. }
  destruct (step zero act σ) as [σ1|] eqn:Hs; simplify_eq/=.
  destruct (IH σ1) as (?&Hc&Hp); [by eapply step_tearing|done|].
  split; [done|]. split.
  - rewrite Hc. by eapply step_tearing_chans.
  - intros p Hx. apply Hp. by eapply step_port_stays.
Qed.

Lemma Disconnect_calls_tearing conn σ : Disconnect_calls conn σ → tearing conn σ.
Proof.
  intros H i code Hi. exists 0. rewrite (H _ _ Hi). repeat split; lia.
Qed.

(** A statement of [Disconnect] never blocks. *)
Lemma tearing_enabled conn σ i b ins code :
  tearing conn σ →
  is_Some (get_port (POut (from conn)) σ) →
  is_Some (get_port (PIn (to conn)) σ) →
  threads σ !! i = Some (Ctl (ins :: code)) →
  is_Some (step zero (Step i b) σ).
Proof.
  intros Hinv Ho Hn Hi. destruct (Hinv _ _ Hi) as (n&Hcode&_).
  symmetry in Hcode.
  apply drop_Disconnect_code in Hcode as (_&_&_&_&p&Hp&Hins).
  assert (is_Some (get_port p σ)) as [x Hx] by (by destruct Hp as [->| ->]).
  destruct Hins as [->|[->| ->]].
  - destruct (init_spec p σ x Hx) as (σ1&H&_).
    erewrite step_IInit; done.
  - destruct (set_data_spec p None σ x Hx) as (σ1&H&_).
    erewrite step_ISet; done.
  - destruct (notify_spec p σ x Hx) as (σ1&x1&H&_).
    erewrite step_INotify; done.
Qed.

Lemma Disconnect_times_spec n conn σ xo xi :
  outs σ !! from conn = Some xo → ins σ !! to conn = Some xi →
  ∃ σ', Disconnect_times n conn σ = Some σ'
        ∧ is_Some (outs σ' !! from conn) ∧ is_Some (ins σ' !! to conn)
        ∧ chans σ' = chans σ
        ∧ (0 < n → current (POut (from conn)) σ' = Some None
                   ∧ current (PIn (to conn)) σ' = Some None).
Proof.
  revert σ xo xi. induction n as [|n IH]; intros σ xo xi Ho Hn; simpl.
  { exists σ. repeat split; eauto; lia. }
  destruct (Disconnect_spec conn σ xo xi Ho Hn)
    as (σ1&xo1&xi1&->&Ho1&Hdo&Hn1&Hdn&Hc1).
  simpl. destruct (IH σ1 xo1 xi1 Ho1 Hn1) as (σ'&Ht&?&?&Hc&Habs).
  exists σ'. split; [done|]. do 2 (split; [done|]).
  split; [congruence|]. intros _. destruct n as [|n]; [|apply Habs; lia].
  simpl in Ht. simplify_eq. unfold current. simpl. rewrite Ho1, Hn1. simpl.
  by rewrite Hdo, Hdn.
Qed.

(** A [Disconnect] that comes after another [Connect] on one of its ports
    takes that port out of the new connection. *)
Lemma Disconnect_after_Connect_out conn n' σ conn' σ1 :
  is_Some (ins σ !! to conn) → n' ≠ to conn →
  Connect (from conn) n' σ = Some (conn', σ1) →
  current (POut (from conn)) σ1 = Some (Some (length (chans σ)))
  ∧ ∃ σ2, Disconnect conn σ1 = Some σ2
          ∧ current (POut (from conn)) σ2 = Some None
          ∧ current (PIn n') σ2 = Some (Some (length (chans σ))).
Proof.
  intros [xi Hn] Hne Hc.
  apply Connect_inv in Hc as (_&_&(x&Hx&Hdx)&(y&Hy&Hdy)&Hq&_).
  split; [unfold current; by rewrite Hx, <-Hdx|].
  destruct (Disconnect_spec conn σ1 x xi) as (σ2&xo'&xi'&HD&Ho'&Hdo&_);
    [done|by rewrite <-Hn; apply (Hq (PIn (to conn))); congruence|].
  exists σ2. split; [done|]. split.
  - unfold current. simpl. rewrite Ho'. simpl. by rewrite Hdo.
  - apply Disconnect_inv in HD as (_&_&_&Hq2). unfold current.
    rewrite (Hq2 (PIn n')) by congruence. by rewrite Hy, <-Hdy.
Qed.

Lemma Disconnect_after_Connect_in conn o' σ conn' σ1 :
  is_Some (outs σ !! from conn) → o' ≠ from conn →
  Connect o' (to conn) σ = Some (conn', σ1) →
  current (PIn (to conn)) σ1 = Some (Some (length (chans σ)))
  ∧ ∃ σ2, Disconnect conn σ1 = Some σ2
          ∧ current (PIn (to conn)) σ2 = Some None
          ∧ current (POut o') σ2 = Some (Some (length (chans σ))).
Proof.
  intros [xo Ho] Hne Hc.
  apply Connect_inv in Hc as (_&_&(x&Hx&Hdx)&(y&Hy&Hdy)&Hq&_).
  split; [unfold current; by rewrite Hy, <-Hdy|].
  destruct (Disconnect_spec conn σ1 xo y) as (σ2&xo'&xi'&HD&_&_&Hn'&Hdn&_);
    [by rewrite <-Ho; apply (Hq (POut (from conn))); congruence|done|].
  exists σ2. split; [done|]. split.
  - unfold current. simpl. rewrite Hn'. simpl. by rewrite Hdn.
  - apply Disconnect_inv in HD as (_&_&_&Hq2). unfold current.
    rewrite (Hq2 (POut o')) by congruence. by rewrite Hx, <-Hdx.
Qed.

(** The [sync.Once] of [Cut]: any number of calls is one call. *)
Lemma Cut_times_once n c :
  cut c = stop c → Cut_times (S n) c = Some (MkSC true true true).
Proof.
  intros Hc.
  assert (Cut c = Some (MkSC true true true)) as Hcut.
  { by destruct c as [[] [] e]; simplify_eq/=. }
  change (Cut_times (S n) c) with (Cut c ≫= Cut_times n). rewrite Hcut.
  clear. simpl. induction n as [|n IH]; [done|]. by simpl.
Qed.

(** C4 as the code has it. [Conn.Disconnect] has no one-shot guard: every
    call runs [swap(nil)] on the [Out] and then on the [In] port. What
    holds is the end state: any number of calls, run one after the other,
    succeeds and leaves both ports absent and the channels untouched; and
    when the only controller goroutines are calls of [conn.Disconnect()],
    running together in any interleaving, with calls of [Recv] and [Send]
    going on, no statement of a call ever blocks, no channel is made or
    closed, and as soon as one of the calls has returned both ports are
    absent and stay so. What fails is "exactly once": a call that comes
    after earlier calls on the same [Conn] and after a [Connect] that has
    bound one of its ports anew takes effect again and unbinds that port,
    leaving the other port of the new connection bound to a channel with
    nobody at the other end. The one-shot guard is in
    [StringConnection.Cut] only: any number of calls of [Cut] closes
    [stop] once and has the result of one call. *)
Theorem Disconnect_every_call conn σ xo xi :
  outs σ !! from conn = Some xo → ins σ !! to conn = Some xi →
  (∀ n, 0 < n →
     ∃ σ', Disconnect_times n conn σ = Some σ'
           ∧ current (POut (from conn)) σ' = Some None
           ∧ current (PIn (to conn)) σ' = Some None
           ∧ chans σ' = chans σ)
  ∧ (Disconnect_calls conn σ → ∀ tr σ', exec zero tr σ = Some σ' →
       chans σ' = chans σ
       ∧ (∀ i, threads σ' !! i = Some (Ctl []) →
            current (POut (from conn)) σ' = Some None
            ∧ current (PIn (to conn)) σ' = Some None)
       ∧ (∀ i b ins code, threads σ' !! i = Some (Ctl (ins :: code)) →
            is_Some (step zero (Step i b) σ')))
  ∧ (∀ m σ0 n' conn' σ1,
       Disconnect_times m conn σ = Some σ0 → n' ≠ to conn →
       Connect (from conn) n' σ0 = Some (conn', σ1) →
       current (POut (from conn)) σ1 = Some (Some (length (chans σ0)))
       ∧ ∃ σ2, Disconnect conn σ1 = Some σ2
               ∧ current (POut (from conn)) σ2 = Some None
               ∧ current (PIn n') σ2 = Some (Some (length (chans σ0))))
  ∧ (∀ m σ0 o' conn' σ1,
       Disconnect_times m conn σ = Some σ0 → o' ≠ from conn →
       Connect o' (to conn) σ0 = Some (conn', σ1) →
       current (PIn (to conn)) σ1 = Some (Some (length (chans σ0)))
       ∧ ∃ σ2, Disconnect conn σ1 = Some σ2
               ∧ current (PIn (to conn)) σ2 = Some None
               ∧ current (POut o') σ2 = Some (Some (length (chans σ0))))
  ∧ (∀ n c, cut c = stop c → Cut_times (S n) c = Some (MkSC true true true)).
Proof.
  intros Ho Hn. split; [|split; [|split; [|split]]].
  - intros n Hpos.
    destruct (Disconnect_times_spec n conn σ xo xi Ho Hn)
      as (σ'&Ht&_&_&Hc&Habs).
    destruct (Habs Hpos). by exists σ'.
  - intros Hcalls tr σ' Hex.
    destruct (exec_tearing conn tr σ σ') as (Hinv&Hc&Hp);
      [by apply Disconnect_calls_tearing|done|].
    split; [done|]. split.
    + intros i Hi. destruct (Hinv _ _ Hi) as (n&Hcode&Hout&Hin).
      assert (6 ≤ n).
      { destruct (decide (6 ≤ n)); [done|].
        by destruct n as [|[|[|[|[|[|n]]]]]]; simpl in Hcode; try lia. }
      split; [apply Hout|apply Hin]; lia.
    + intros i b ins code Hi. eapply tearing_enabled; [done| | |done].
      * apply (Hp (POut (from conn))). by eexists.
      * apply (Hp (PIn (to conn))). by eexists.
  - intros m σ0 n' conn' σ1 Hm Hne Hc.
    destruct (Disconnect_times_spec m conn σ xo xi Ho Hn)
      as (σ0'&Ht&_&?&_). simplify_eq.
    by eapply Disconnect_after_Connect_out.
  - intros m σ0 o' conn' σ1 Hm Hne Hc.
    destruct (Disconnect_times_spec m conn σ xo xi Ho Hn)
      as (σ0'&Ht&?&_). simplify_eq.
    by eapply Disconnect_after_Connect_in.
  - intros n c. apply Cut_times_once.
Qed.

End CallFacts.

(** ** Instances for the blocked call and the teardown *)

Lemma blocked_call_outcomes_witness :
  (threads blocked_start !! 0 = Some (Recv 0 0 (Park (Some 0)))
   ∧ step 0 (Step 1 BData) blocked_start
     = Some (set_threads
               (<[1:=SendRet None]> (<[0:=RecvRet 7 None]> (threads blocked_start)))
               blocked_start)
   ∧ (∃ σ', step 0 (Cancel 0 Canceled) blocked_start = Some σ'
            ∧ threads σ' !! 0 = Some (RecvRet 0 (Some Canceled))
            ∧ ctxs σ' !! 0 = Some (Some Canceled))
   ∧ (∃ σ1, exec 0 (replicate 3 (Step 2 BNone)) blocked_start = Some σ1
        ∧ threads σ1
          = <[2:=Ctl []]> (<[0:=Recv 0 0 Drain]> (threads blocked_start))
        ∧ current (PIn 0) σ1 = Some None
        ∧ chans σ1 = chans blocked_start ∧ ctxs σ1 = ctxs blocked_start
        ∧ exec 0 [Step 0 BNone; Step 0 BNone] σ1
          = Some (set_threads (<[0:=Recv 0 0 (Poll None)]> (threads σ1)) σ1)))
  ∧ (threads blocked_send_start !! 0 = Some (Send 0 0 7 (Park (Some 0)))
     ∧ step 0 (Step 1 BData) blocked_send_start
       = Some (set_threads
                 (<[1:=RecvRet 7 None]>
                    (<[0:=SendRet None]> (threads blocked_send_start)))
                 blocked_send_start)
     ∧ (∃ σ', step 0 (Cancel 0 Canceled) blocked_send_start = Some σ'
              ∧ threads σ' !! 0 = Some (SendRet (Some Canceled))
              ∧ ctxs σ' !! 0 = Some (Some Canceled))
     ∧ (∃ σ1, exec 0 (replicate 3 (Step 2 BNone)) blocked_send_start = Some σ1
          ∧ threads σ1
            = <[2:=Ctl []]> (<[0:=Send 0 0 7 Drain]> (threads blocked_send_start))
          ∧ current (POut 0) σ1 = Some None
          ∧ chans σ1 = chans blocked_send_start
          ∧ ctxs σ1 = ctxs blocked_send_start
          ∧ exec 0 [Step 0 BNone; Step 0 BNone] σ1
            = Some (set_threads (<[0:=Send 0 0 7 (Poll None)]> (threads σ1)) σ1))).
Proof.
  pose proof (proj2 (proj1 (proj2 (blocked_call_outcomes 0 blocked_start 0 0 0))
                       (Some 0) eq_refl)) as (Ha&Hb&Hc).
  pose proof (proj2 (proj2 (proj2 (proj2
                (blocked_call_outcomes 0 blocked_send_start 0 0 0)))
                7 (Some 0) eq_refl)) as (Ha'&Hb'&Hc').
  split.
  - split; [reflexivity|]. split; [|split].
    + exact (Ha 0 1 0 0 7 eq_refl eq_refl eq_refl eq_refl).
    + exact (Hb Canceled eq_refl).
    + exact (Hc 2 None [] bound_port eq_refl eq_refl eq_refl eq_refl eq_refl).
  - split; [reflexivity|]. split; [|split].
    + exact (Ha' 0 1 0 0 eq_refl eq_refl eq_refl eq_refl).
    + exact (Hb' Canceled eq_refl).
    + exact (Hc' 2 None [] bound_port eq_refl eq_refl eq_refl eq_refl eq_refl).
Defined.

Lemma teardown_start_calls : Disconnect_calls (MkConn 0 0) teardown_start.
Proof. intros [|[|[|i]]] code H; by simplify_eq/=. Qed.

Lemma Disconnect_every_call_witness :
  (outs teardown_start !! 0 = Some bound_port
   ∧ ins teardown_start !! 0 = Some bound_port
   ∧ Disconnect_calls (MkConn 0 0) teardown_start
   ∧ exec 0 teardown_schedule teardown_start = Some teardown_end
   ∧ current (POut 0) teardown_end = Some None
   ∧ current (PIn 0) teardown_end = Some None
   ∧ ∃ σ', Disconnect_times 2 (MkConn 0 0) teardown_start = Some σ'
           ∧ current (POut 0) σ' = Some None
           ∧ current (PIn 0) σ' = Some None
           ∧ chans σ' = chans teardown_start)
  ∧ (outs wired_once !! 0 = Some bound_port
     ∧ ins wired_once !! 0 = Some bound_port
     ∧ Disconnect_times 1 (MkConn 0 0) wired_once = Some unwired_once
     ∧ Connect 0 1 unwired_once = Some (MkConn 0 1, rewired)
     ∧ current (POut 0) rewired = Some (Some 1)
     ∧ ∃ σ2, Disconnect (MkConn 0 0) rewired = Some σ2
             ∧ current (POut 0) σ2 = Some None
             ∧ current (PIn 1) σ2 = Some (Some 1)).
Proof.
  assert (0 < 2) as Hpos by lia. assert (1 ≠ 0) as Hne by lia.
  pose proof (Disconnect_every_call 0 (MkConn 0 0) teardown_start
                bound_port bound_port eq_refl eq_refl) as (Hseq&Hpar&_).
  pose proof (Disconnect_every_call 0 (MkConn 0 0) wired_once
                bound_port bound_port eq_refl eq_refl) as (_&_&Hout&_).
  split.
  - split; [reflexivity|]. split; [reflexivity|].
    split; [exact teardown_start_calls|]. split; [reflexivity|].
    split; [|split].
    + exact (proj1 (proj1 (proj2 (Hpar teardown_start_calls teardown_schedule
                                    teardown_end eq_refl)) 0 eq_refl)).
    + exact (proj2 (proj1 (proj2 (Hpar teardown_start_calls teardown_schedule
                                    teardown_end eq_refl)) 0 eq_refl)).
    + exact (Hseq 2 Hpos).
  - split; [reflexivity|]. split; [reflexivity|]. split; [reflexivity|].
    split; [reflexivity|].
    exact (Hout 1 unwired_once 1 (MkConn 0 1) rewired eq_refl Hne eq_refl).
Defined.
